(** * SFTP channel pools of sshfs: a shallow embedding and its properties

    The development follows [sshfs.py]: the base class [_SFTPChannelPool],
    its two policies [SFTPHardChannelPool] and [SFTPSoftChannelPool], the
    way [SSHFileSystem] builds a pool, the methods of [SSHFileSystem] that
    go through the pool, and [SSHFile].

    Python integers are [Z]; a channel (an [SFTPClient] object) is known by
    its identity, a natural number; the [asyncio.Queue] of the hard pool is
    a list with its head as the next item; the [Counter] of the soft pool is
    an association list in insertion order, as a Python [dict] is, because
    [heapq.nsmallest] breaks ties by that order.

    A coroutine runs without interruption between two suspensions.  Each
    [get()] is therefore cut at its suspension points into the pieces that
    run atomically, and a pool shared by several consumers is a transition
    system whose events are those pieces.  In the hard pool the
    suspensions are those of [asyncio.wait_for] and [asyncio.Queue.get] as
    CPython 3.11 has them: under a numeric timeout [Queue.get()] runs in a
    task of its own, so that taking a channel from the queue and counting
    it are two pieces, and a timeout that is not positive raises
    [TimeoutError] without looking at the queue; the getters of the queue
    are part of the state.

    What lies outside [sshfs.py] answers from outside: the connection says
    whether a channel could be opened, a channel says whether its teardown
    raised, the server says what a request returns, and time is a count of
    seconds gone by. *)

From stdpp Require Import base numbers list strings.

Local Open Scope Z_scope.

(** ** Python preliminaries *)

Inductive exn : Type :=
| ChannelOpenError
| TimeoutError
| ValueError (msg : string)
| RuntimeError (msg : string)
| NotImplementedError
| BrokenPipeError
| OtherException (name : string).

#[global] Instance exn_eq_dec : EqDecision exn.
Proof. solve_decision. Defined.

(** Identity of an [SFTPClient] object. *)
Abbreviation channel := nat (only parsing).

(** How the body of an [async with] block is left. *)
Inductive exit_kind : Type :=
| Normal
| Raising (e : exn).

(** [contextlib.asynccontextmanager.__aexit__] for a generator suspended at
    a [yield] that is not enclosed in any [try]: a normal exit resumes the
    generator, which runs [after_yield] to its end; an exception is thrown
    into the generator at the [yield], nothing handles it there, so the
    generator ends at once and the exception goes on to the caller. *)
Definition aexit {St : Type} (after_yield : St → St) (how : exit_kind) (st : St)
  : St * option exn :=
  match how with
  | Normal => (after_yield st, None)
  | Raising e => (st, Some e)
  end.

(** What [await client.start_sftp_client().__aenter__()] comes back with. *)
Inductive open_result : Type :=
| Opened (c : channel)
| OpenRaised (e : exn).

(** A keyword argument as [SSHFileSystem.__init__] receives it. *)
Inductive arg : Type :=
| _UNSET
| Given (v : option Z).

Definition _drop_unset (namespace : list (string * arg)) : list (string * option Z) :=
  omap (λ kv, match kv.2 with _UNSET => None | Given v => Some (kv.1, v) end) namespace.

(** Binding of a keyword-only parameter: the value passed, else the default. *)
Definition kwarg {A : Type} (name : string) (kwargs : list (string * A)) (default : A) : A :=
  match list_find (λ kv, kv.1 = name) kwargs with
  | Some (_, kv) => kv.2
  | None => default
  end.

Definition _MAX_TIMEOUT : Z := 60 * 60 * 3.

(** ** [_SFTPChannelPool] *)

Module SFTPChannelPool.

(** The attributes set by [__init__]; [sub] holds what the subclass adds
    ([_queue] or [_channels]).  [_stack] lists the channels entered into the
    [AsyncExitStack], the most recent first. *)
Record pool (S : Type) : Type := Pool {
  max_channels : option Z;
  active_channels : Z;
  timeout : option Z;
  unsafe_terminate : bool;
  _stack : list channel;
  sub : S
}.

Arguments Pool {S}.
Arguments max_channels {S}.
Arguments active_channels {S}.
Arguments timeout {S}.
Arguments unsafe_terminate {S}.
Arguments _stack {S}.
Arguments sub {S}.

Definition set_max_channels {S} (m : option Z) (p : pool S) : pool S :=
  Pool m (active_channels p) (timeout p) (unsafe_terminate p) (_stack p) (sub p).

Definition set_active_channels {S} (a : Z) (p : pool S) : pool S :=
  Pool (max_channels p) a (timeout p) (unsafe_terminate p) (_stack p) (sub p).

Definition set_stack {S} (st : list channel) (p : pool S) : pool S :=
  Pool (max_channels p) (active_channels p) (timeout p) (unsafe_terminate p) st (sub p).

Definition set_sub {S} (s : S) (p : pool S) : pool S :=
  Pool (max_channels p) (active_channels p) (timeout p) (unsafe_terminate p) (_stack p) s.

(** [__init__(self, client, *, max_channels=None, timeout=_MAX_TIMEOUT,
    unsafe_terminate=True)]; [s0] is what the subclass set up before calling
    [super().__init__]. *)
Definition init {S} (s0 : S) (kwargs : list (string * option Z)) (unsafe : option bool)
  : pool S :=
  {| max_channels := kwarg "max_channels" kwargs None;
     active_channels := 0;
     timeout := kwarg "timeout" kwargs (Some _MAX_TIMEOUT);
     unsafe_terminate := default true unsafe;
     _stack := [];
     sub := s0 |}.

(** The test that opens [_maybe_new_channel]:
    [self.max_channels is None or self.active_channels < self.max_channels]. *)
Definition may_open {S} (p : pool S) : bool :=
  match max_channels p with
  | None => true
  | Some m => bool_decide (active_channels p < m)
  end.

(** [_maybe_new_channel] from the point where the awaited
    [enter_async_context] comes back, on the pool as it is then. *)
Definition _maybe_new_channel_resume {S} (r : open_result) (p : pool S)
  : pool S * (exn + option channel) :=
  match r with
  | Opened c => (set_stack (c :: _stack p) p, inr (Some c))
  | OpenRaised ChannelOpenError =>
      (set_max_channels (Some (active_channels p)) p, inr None)
  | OpenRaised e => (p, inl e)
  end.

(** [_maybe_new_channel] run in one piece against the answer [r] of the
    connection.  The boolean tells whether [start_sftp_client] was called. *)
Definition _maybe_new_channel {S} (r : open_result) (p : pool S)
  : pool S * (exn + option channel) * bool :=
  if may_open p then (_maybe_new_channel_resume r p, true)
  else (p, inr None, false).

(** The interface the subclasses fill in.  [_cleanup] returns the subclass
    state it leaves and the exception it ended with, if any. *)
Class ChannelPool (S : Type) : Type := {
  class_name : string;
  _cleanup : S → S * option exn
}.

(** [AsyncExitStack.aclose()]: every callback is popped and run, last
    entered first; an exception raised by one replaces the pending one and
    the unwinding goes on; what is pending at the end is raised.
    [teardown c] is what [c.__aexit__] raises, if anything.  The result
    lists the channels whose exit ran and the exception finally raised. *)
Definition aclose (teardown : channel → option exn) (stack : list channel)
  : list channel * option exn :=
  (stack,
   foldl (λ pending c, match teardown c with Some e => Some e | None => pending end)
         None stack).

Definition leak_message (name : string) : string :=
  "'" +:+ name +:+ "' can't be closed while there are active channels".

(** [close]: the pool afterwards, the channels torn down, and the exception
    raised, if any.  [if self.active_channels] is Python truthiness: any
    non-zero count. *)
Definition close {S} `{ChannelPool S} (teardown : channel → option exn) (p : pool S)
  : pool S * list channel * option exn :=
  if bool_decide (active_channels p ≠ 0) && negb (unsafe_terminate p) then
    (p, [], Some (RuntimeError (leak_message class_name)))
  else
    (* with suppress(Exception): await self._cleanup() *)
    let s' := (_cleanup (sub p)).1 in
    let '(closed, raised) := aclose teardown (_stack p) in
    (set_stack [] (set_sub s' p), closed, raised).

(** The base class itself: [_cleanup] raises [NotImplementedError]. *)
#[global] Instance base_pool : ChannelPool unit := {|
  class_name := "_SFTPChannelPool";
  _cleanup s := (s, Some NotImplementedError)
|}.

End SFTPChannelPool.

Export SFTPChannelPool.

(** ** [SFTPHardChannelPool] *)

Module SFTPHardChannelPool.

(** [self._queue = asyncio.Queue(0)]: unbounded, first in first out.  The
    items of the queue are part of the pool.  Its getters, the futures on
    which calls of [Queue.get()] wait, are kept in [sys] below, beside the
    consumers they belong to. *)
Abbreviation hard := (pool (list channel)).

Definition _queue (p : hard) : list channel := sub p.

Definition init (kwargs : list (string * option Z)) (unsafe : option bool) : hard :=
  SFTPChannelPool.init [] kwargs unsafe.

(** [await asyncio.wait_for(self._queue.get(), timeout=self.timeout)] is
    modelled on CPython 3.11 ([asyncio/tasks.py], [asyncio/queues.py]):
    - [timeout is None]: [Queue.get()] is awaited in place, as part of
      [get()] itself;
    - [timeout <= 0]: [Queue.get()] is wrapped in a task, which [wait_for]
      cancels before it has run; [wait_for] raises [TimeoutError] once the
      task has ended, whatever the queue holds;
    - otherwise [Queue.get()] runs in a task of its own, and [wait_for]
      resumes when that task has ended or the timer has fired; if the task
      has not ended then, [wait_for] cancels it and raises [TimeoutError]
      once it has ended.
    [Queue.get()] returns the head of the queue when there is one; with the
    queue empty it appends a getter to the getters of the queue and awaits
    it; [put_nowait] gives the first pending getter its result; the woken
    [Queue.get()] looks at the queue again. *)

(** Where the task stood that [wait_for] cancelled. *)
Inductive cancelled : Type :=
| BeforeStart    (* it had not run: [Queue.get()] never starts *)
| AtGetter       (* [Queue.get()] awaited its getter, which is cancelled with it *)
| AfterWakeup.   (* the getter had its result; [Queue.get()] had not resumed *)

(** Where a coroutine inside [get()] stands. *)
Inductive consumer : Type :=
| Opening                     (* awaiting [self._maybe_new_channel()] *)
| Starting                    (* in [wait_for]; the task for [Queue.get()] has not run *)
| Waiting (waited : Z)        (* [Queue.get()] awaits its getter *)
| Woken (waited : Z)          (* the getter has its result; [Queue.get()] has not resumed *)
| Taken (c : channel)         (* the task returned [c]; [wait_for] has not resumed *)
| Cancelling (at_ : cancelled) (* [wait_for] cancelled the task, which has not run since *)
| TimedOut                    (* the task ended cancelled; [wait_for] has not resumed *)
| Holding (c : channel)       (* suspended at [yield channel] *)
| Returned                    (* the generator ran to its end *)
| Raised (e : exn).           (* an exception left [get()] or the scope *)

#[global] Instance cancelled_eq_dec : EqDecision cancelled.
Proof. solve_decision. Defined.

#[global] Instance consumer_eq_dec : EqDecision consumer.
Proof. solve_decision. Defined.

(** [self.active_channels += 1; yield channel]. *)
Definition hand_out (c : channel) (p : hard) : hard * consumer :=
  (set_active_channels (active_channels p + 1) p, Holding c).

(** [Queue.get()] from its start, or from its wake-up, to its return or its
    next suspension: [while self.empty(): ... await getter] and
    [return self.get_nowait()].  Awaited in place ([timeout is None]) its
    return is followed at once by the rest of [get()]; in a task, the item
    is the result of the task. *)
Definition queue_get (waited : Z) (p : hard) : hard * consumer :=
  match _queue p with
  | c :: q =>
      match timeout p with
      | None => hand_out c (set_sub q p)
      | Some _ => (set_sub q p, Taken c)
      end
  | [] => (p, Waiting waited)
  end.

(** [channel = await asyncio.wait_for(self._queue.get(), timeout=...)] up to
    its first suspension. *)
Definition wait_for_get (p : hard) : hard * consumer :=
  match timeout p with
  | None => queue_get 0 p
  | Some t => if bool_decide (t ≤ 0) then (p, Cancelling BeforeStart) else (p, Starting)
  end.

(** [get()] from its first line to its first suspension. *)
Definition get_start (p : hard) : hard * consumer :=
  if bool_decide (_queue p = []) then
    if may_open p then (p, Opening) else wait_for_get p
  else wait_for_get p.

(** [get()] from the return of [await self._maybe_new_channel()]. *)
Definition get_opened (r : open_result) (p : hard) : hard * consumer :=
  match _maybe_new_channel_resume r p with
  | (p', inl e) => (p', Raised e)
  | (p', inr (Some c)) => hand_out c p'
  | (p', inr None) => wait_for_get p'
  end.

(** The timeouts under which [wait_for] lets [Queue.get()] run. *)
Definition unbounded_or_positive (p : hard) : Prop :=
  timeout p = None ∨ ∃ t, timeout p = Some t ∧ 0 < t.

(** Has the timer of [wait_for] fired when [d] more seconds have gone by? *)
Definition expired (waited d : Z) (p : hard) : bool :=
  match timeout p with
  | Some t => bool_decide (t ≤ waited + d)
  | None => false
  end.

(** [d] more seconds went by for a consumer whose [Queue.get()] awaits its
    getter, and nobody touched the pool meanwhile: once the bound is
    reached [wait_for] cancels the task, the task takes its getter out of
    the queue and ends, and [wait_for] raises [TimeoutError]; never when
    the bound is [None]. *)
Definition get_elapsed (waited d : Z) (p : hard) : hard * consumer :=
  match timeout p with
  | Some t => if bool_decide (t ≤ waited + d) then (p, Raised TimeoutError)
              else (p, Waiting (waited + d))
  | None => (p, Waiting (waited + d))
  end.

(** The lines after [yield channel]; the wake-up that [put_nowait] gives to
    a waiting getter is in [step]. *)
Definition release (c : channel) (p : hard) : hard :=
  set_sub (_queue p ++ [c]) (set_active_channels (active_channels p - 1) p).

(** Leaving the [async with self._pool.get() as channel] block. *)
Definition get_exit (how : exit_kind) (c : channel) (p : hard) : hard * consumer :=
  match aexit (release c) how p with
  | (p', None) => (p', Returned)
  | (p', Some e) => (p', Raised e)
  end.

(** [_cleanup]: [while not self._queue.empty(): self._queue.get_nowait()]. *)
Fixpoint drain (q : list channel) : list channel :=
  match q with
  | [] => []
  | _ :: q' => drain q'
  end.

#[global] Instance hard_pool : ChannelPool (list channel) := {|
  class_name := "SFTPHardChannelPool";
  _cleanup q := (drain q, None)
|}.

(** *** One consumer, nobody else touching the pool *)

(** What a consumer inside [wait_for] comes to by itself: the task it
    started runs [Queue.get()], and [wait_for] resumes with the item when
    there was one; a task cancelled before its start ends, and [wait_for]
    raises [TimeoutError]. *)
Definition settle (pc : hard * consumer) : hard * consumer :=
  match pc with
  | (p, Starting) =>
      match queue_get 0 p with
      | (p', Taken c) => hand_out c p'
      | pc' => pc'
      end
  | (p, Cancelling _) => (p, Raised TimeoutError)
  | _ => pc
  end.

(** One acquisition run with nobody else touching the pool: [r] answers the
    creation attempt if one is made, and [ds] are the stretches of time that
    go by, in turn, while the acquisition waits. *)
Fixpoint keep_waiting (ds : list Z) (pc : hard * consumer) : hard * consumer :=
  match ds, pc with
  | d :: ds', (p, Waiting w) => keep_waiting ds' (get_elapsed w d p)
  | _, _ => pc
  end.

(** The creation attempt, if [get()] made one, answered by [r]. *)
Definition answered (r : open_result) (pc : hard * consumer) : hard * consumer :=
  if bool_decide (pc.2 = Opening) then get_opened r pc.1 else pc.

Definition acquire_alone (r : open_result) (ds : list Z) (p : hard) : hard * consumer :=
  keep_waiting ds (settle (answered r (get_start p))).

(** Scopes left normally one after the other, and [n] acquisitions one
    after the other, each run alone up to its [yield] or its exception. *)
Definition release_many (cs : list channel) (p : hard) : hard :=
  foldl (λ p' c, release c p') p cs.

Fixpoint get_many (r : open_result) (ds : list Z) (n : nat) (p : hard)
  : hard * list consumer :=
  match n with
  | O => (p, [])
  | S n' =>
      let pc := acquire_alone r ds p in
      let rest := get_many r ds n' pc.1 in
      (rest.1, pc.2 :: rest.2)
  end.

(** [async with pool.get(): pass], alone. *)
Definition pass_through (r : open_result) (ds : list Z) (p : hard) : hard :=
  match acquire_alone r ds p with
  | (p', Holding c) => (get_exit Normal c p').1
  | (p', _) => p'
  end.

(** *** The pool shared by concurrent consumers *)

(** [client] counts the SFTP clients the connection has started so far: the
    next one is a new object, [client] itself.  [getters] is
    [self._queue._getters]: the consumers whose [Queue.get()] appended a
    getter that has not been taken out since, oldest first. *)
Record sys : Type := Sys {
  the_pool : hard;
  client : nat;
  consumers : list consumer;
  getters : list nat
}.

Inductive open_outcome : Type :=
| OpenOk
| OpenFail (e : exn).

Definition to_result (n : nat) (o : open_outcome) : open_result :=
  match o with
  | OpenOk => Opened n
  | OpenFail e => OpenRaised e
  end.

Definition next_client (n : nat) (o : open_outcome) : nat :=
  match o with
  | OpenOk => S n
  | OpenFail _ => n
  end.

(** The pieces that run without interruption.  The timer of a [wait_for]
    cannot fire before the task it started has run once: the first run of
    the task is scheduled before the timer is set. *)
Inductive event : Type :=
| Begin                                  (* a new consumer calls [get()] *)
| OpenDone (i : nat) (o : open_outcome)  (* the pending open of [i] ends *)
| Run (i : nat)                          (* [Queue.get()] of [i] starts or resumes *)
| Ready (i : nat)                        (* [wait_for] of [i] resumes, its task ended *)
| Elapsed (i : nat) (d : Z)              (* [d] seconds pass for the timer of [i] *)
| Exit (i : nat) (how : exit_kind).      (* [i] leaves its [async with] *)

(** [self._getters.append(getter)] when [Queue.get()] suspends. *)
Definition park (i : nat) (k : consumer) (gs : list nat) : list nat :=
  match k with
  | Waiting _ => gs ++ [i]
  | _ => gs
  end.

(** [Queue._wakeup_next(self._getters)]: getters are popped from the left
    until one is found that is not done, which gets its result; a getter
    found done there is a cancelled one. *)
Fixpoint _wakeup_next (ks : list consumer) (gs : list nat) : list consumer * list nat :=
  match gs with
  | [] => (ks, [])
  | i :: gs' =>
      match ks !! i with
      | Some (Waiting w) => (<[i := Woken w]> ks, gs')
      | _ => _wakeup_next ks gs'
      end
  end.

(** [self._getters.remove(getter)], where a missing getter is ignored. *)
Fixpoint remove_getter (i : nat) (gs : list nat) : list nat :=
  match gs with
  | [] => []
  | j :: gs' => if bool_decide (j = i) then gs' else j :: remove_getter i gs'
  end.

Definition update (s : sys) (i : nat) (pc : hard * consumer) : sys :=
  Sys pc.1 (client s) (<[i := pc.2]> (consumers s)) (park i pc.2 (getters s)).

(** The task of [i] runs with its cancellation pending: [Queue.get()] gets
    [CancelledError] where it stands.  At its getter: [getter.cancel()],
    [self._getters.remove(getter)], and nobody is woken because the getter
    is cancelled.  After its wake-up: the getter is out of the queue
    already, and [if not self.empty() and not getter.cancelled()] passes
    the wake-up on. *)
Definition cancel_get (s : sys) (i : nat) (at_ : cancelled) : sys :=
  let ks := <[i := TimedOut]> (consumers s) in
  match at_ with
  | BeforeStart => Sys (the_pool s) (client s) ks (getters s)
  | AtGetter => Sys (the_pool s) (client s) ks (remove_getter i (getters s))
  | AfterWakeup =>
      if bool_decide (_queue (the_pool s) = []) then
        Sys (the_pool s) (client s) ks (getters s)
      else
        let woken := _wakeup_next ks (getters s) in
        Sys (the_pool s) (client s) woken.1 woken.2
  end.

(** One atomic piece of one consumer; [None] when the event does not fit
    the state that consumer is in. *)
Definition step (s : sys) (ev : event) : option sys :=
  match ev with
  | Begin =>
      let pc := get_start (the_pool s) in
      Some (Sys pc.1 (client s) (consumers s ++ [pc.2])
                (park (length (consumers s)) pc.2 (getters s)))
  | OpenDone i o =>
      match consumers s !! i with
      | Some Opening =>
          let pc := get_opened (to_result (client s) o) (the_pool s) in
          Some (Sys pc.1 (next_client (client s) o) (<[i := pc.2]> (consumers s))
                    (park i pc.2 (getters s)))
      | _ => None
      end
  | Run i =>
      match consumers s !! i with
      | Some Starting => Some (update s i (queue_get 0 (the_pool s)))
      | Some (Woken w) => Some (update s i (queue_get w (the_pool s)))
      | Some (Cancelling at_) => Some (cancel_get s i at_)
      | _ => None
      end
  | Ready i =>
      match consumers s !! i with
      | Some (Taken c) => Some (update s i (hand_out c (the_pool s)))
      | Some TimedOut => Some (update s i (the_pool s, Raised TimeoutError))
      | _ => None
      end
  | Elapsed i d =>
      match consumers s !! i with
      | Some (Waiting w) =>
          Some (Sys (the_pool s) (client s)
                    (<[i := if expired w d (the_pool s) then Cancelling AtGetter
                            else Waiting (w + d)]> (consumers s))
                    (getters s))
      | Some (Woken w) =>
          Some (Sys (the_pool s) (client s)
                    (<[i := if expired w d (the_pool s) then Cancelling AfterWakeup
                            else Woken (w + d)]> (consumers s))
                    (getters s))
      | _ => None
      end
  | Exit i how =>
      match consumers s !! i with
      | Some (Holding c) =>
          let pc := get_exit how c (the_pool s) in
          let ks := <[i := pc.2]> (consumers s) in
          match how with
          | Normal =>
              (* [put_nowait] ends with [self._wakeup_next(self._getters)] *)
              let woken := _wakeup_next ks (getters s) in
              Some (Sys pc.1 (client s) woken.1 woken.2)
          | Raising _ => Some (Sys pc.1 (client s) ks (getters s))
          end
      | _ => None
      end
  end.

Fixpoint run (s : sys) (tr : list event) : option sys :=
  match tr with
  | [] => Some s
  | ev :: tr' =>
      match step s ev with
      | Some s' => run s' tr'
      | None => None
      end
  end.

Definition start (kwargs : list (string * option Z)) (unsafe : option bool) : sys :=
  Sys (init kwargs unsafe) 0%nat [] [].

(** The events by which one acquisition proceeds when it is alone; [o]
    answers the creation attempt and [ds] are the stretches of time. *)
Fixpoint waiting_alone (ds : list Z) (w : Z) (p : hard) : list event :=
  match ds with
  | [] => []
  | d :: ds' =>
      Elapsed 0 d
      :: (if expired w d p then [Run 0; Ready 0] else waiting_alone ds' (w + d) p)
  end.

Definition settling_alone (ds : list Z) (pc : hard * consumer) : list event :=
  match pc with
  | (p, Starting) =>
      Run 0 :: match _queue p with
               | _ :: _ => [Ready 0]
               | [] => waiting_alone ds 0 p
               end
  | (p, Cancelling _) => [Run 0; Ready 0]
  | (p, Waiting w) => waiting_alone ds w p
  | _ => []
  end.

Definition alone (o : open_outcome) (ds : list Z) (s : sys) : list event :=
  Begin
  :: (if bool_decide ((get_start (the_pool s)).2 = Opening) then
        OpenDone 0 o
        :: settling_alone ds (get_opened (to_result (client s) o)
                                         (get_start (the_pool s)).1)
      else settling_alone ds (get_start (the_pool s))).

(** The channel a consumer is suspended with at its [yield], the channel a
    finished task holds for a [wait_for] that has not resumed, and the
    same for a list of consumers. *)
Definition held_by (k : consumer) : option channel :=
  match k with
  | Holding c => Some c
  | _ => None
  end.

Definition taken_by (k : consumer) : option channel :=
  match k with
  | Taken c => Some c
  | _ => None
  end.

Definition held (ks : list consumer) : list channel := omap held_by ks.

Definition taken (ks : list consumer) : list channel := omap taken_by ks.

(** The channel a consumer has in hand either way. *)
Definition in_hand (k : consumer) : option channel :=
  match k with
  | Taken c | Holding c => Some c
  | _ => None
  end.

Definition in_hands (ks : list consumer) : list channel := omap in_hand ks.

(** The scopes left by an exception along a run. *)
Definition is_failed_exit (ev : event) : bool :=
  match ev with
  | Exit _ (Raising _) => true
  | _ => false
  end.

Definition failed_exits (tr : list event) : Z :=
  Z.of_nat (length (filter (λ ev, is_failed_exit ev = true) tr)).

(** The consumer an event belongs to; a [Begin] belongs to the consumer it
    adds. *)
Definition actor (s : sys) (ev : event) : nat :=
  match ev with
  | Begin => length (consumers s)
  | OpenDone i _ | Run i | Ready i | Elapsed i _ | Exit i _ => i
  end.

(** A consumer that has had no channel so far: still before the return of
    [wait_for] or of [_maybe_new_channel], or timed out. *)
Definition empty_handed (k : consumer) : bool :=
  match k with
  | Opening | Starting | Waiting _ | Woken _ | Cancelling _ | TimedOut => true
  | _ => false
  end.

(** A getter in the queue belongs to a [Queue.get()] that awaits it, or
    that was cancelled there and has not taken it out yet; and every
    [Queue.get()] that awaits its getter has it in the queue. *)
Definition at_getter (k : consumer) : bool :=
  match k with
  | Waiting _ | Cancelling AtGetter => true
  | _ => false
  end.

Definition registered (ks : list consumer) (gs : list nat) : Prop :=
  NoDup gs
  ∧ (∀ i, i ∈ gs → ∃ k, ks !! i = Some k ∧ at_getter k = true)
  ∧ (∀ i w, ks !! i = Some (Waiting w) → i ∈ gs).

(** Did every step of consumer [i] along [tr] leave the active count and
    the free queue as they were? *)
Fixpoint untouched_by (i : nat) (s : sys) (tr : list event) : Prop :=
  match tr with
  | [] => True
  | ev :: tr' =>
      match step s ev with
      | Some s' =>
          (actor s ev = i →
           active_channels (the_pool s') = active_channels (the_pool s)
           ∧ _queue (the_pool s') = _queue (the_pool s))
          ∧ untouched_by i s' tr'
      | None => True
      end
  end.

End SFTPHardChannelPool.

(** ** [SFTPSoftChannelPool] *)

Module SFTPSoftChannelPool.

(** [self._channels = Counter()]: channel to number of current users, in
    insertion order. *)
Abbreviation soft := (pool (list (channel * Z))).

Definition _channels (p : soft) : list (channel * Z) := sub p.

Definition init (kwargs : list (string * option Z)) (unsafe : option bool) : soft :=
  SFTPChannelPool.init [] kwargs unsafe.

(** [Counter.__getitem__]: a missing key counts as zero. *)
Fixpoint counter_get (c : channel) (cs : list (channel * Z)) : Z :=
  match cs with
  | [] => 0
  | (c', n) :: cs' => if bool_decide (c' = c) then n else counter_get c cs'
  end.

(** [dict.__setitem__]: an existing key keeps its place, a new one goes last. *)
Fixpoint counter_set (c : channel) (v : Z) (cs : list (channel * Z)) : list (channel * Z) :=
  match cs with
  | [] => [(c, v)]
  | (c', n) :: cs' =>
      if bool_decide (c' = c) then (c', v) :: cs' else (c', n) :: counter_set c v cs'
  end.

(** [self._channels[c] += d]. *)
Definition counter_add (c : channel) (d : Z) (cs : list (channel * Z)) : list (channel * Z) :=
  counter_set c (counter_get c cs + d) cs.

(** [min(it, key=lambda kv: kv[1])] seeded with [best]: the first of the
    smallest stays. *)
Fixpoint py_min (best : channel * Z) (rest : list (channel * Z)) : channel * Z :=
  match rest with
  | [] => best
  | kv :: rest' => py_min (if bool_decide (kv.2 < best.2) then kv else best) rest'
  end.

(** [heapq.nsmallest(1, items, key)]. *)
Definition nsmallest_1 (items : list (channel * Z)) : list (channel * Z) :=
  match items with
  | [] => []
  | kv :: rest => [py_min kv rest]
  end.

Definition _NO_CHANNELS : option channel * Z := (None, 1).

(** [[(least_used_channel, num_connections)] = nsmallest(...) or _NO_CHANNELS]. *)
Definition least_used (cs : list (channel * Z)) : option channel * Z :=
  match nsmallest_1 cs with
  | kv :: _ => (Some kv.1, kv.2)
  | [] => _NO_CHANNELS
  end.

Inductive consumer : Type :=
| Opening (least_used_channel : option channel) (num_connections : Z)
      (* awaiting [self._maybe_new_channel()], with its locals *)
| Holding (c : channel)
| Returned
| Raised (e : exn).

(** [get()] from [if least_used_channel is None] to the [yield]. *)
Definition get_finish (least_used_channel : option channel) (p : soft) : soft * consumer :=
  match least_used_channel with
  | None => (p, Raised (ValueError "Can't create any SFTP connections!"))
  | Some c =>
      (set_active_channels (active_channels p + 1)
         (set_sub (counter_add c 1 (_channels p)) p),
       Holding c)
  end.

(** [get()] from its first line to its first suspension. *)
Definition get_start (p : soft) : soft * consumer :=
  let '(least_used_channel, num_connections) := least_used (_channels p) in
  if bool_decide (num_connections > 0) then
    if may_open p then (p, Opening least_used_channel num_connections)
    else get_finish least_used_channel p
  else get_finish least_used_channel p.

(** [get()] from the return of [await self._maybe_new_channel()]; the locals
    were bound before the suspension. *)
Definition get_opened (least_used_channel : option channel) (r : open_result) (p : soft)
  : soft * consumer :=
  match _maybe_new_channel_resume r p with
  | (p', inl e) => (p', Raised e)
  | (p', inr (Some c)) => get_finish (Some c) p'
  | (p', inr None) => get_finish least_used_channel p'
  end.

(** The lines after [yield least_used_channel]. *)
Definition release (c : channel) (p : soft) : soft :=
  set_active_channels (active_channels p - 1)
    (set_sub (counter_add c (-1) (_channels p)) p).

Definition get_exit (how : exit_kind) (c : channel) (p : soft) : soft * consumer :=
  match aexit (release c) how p with
  | (p', None) => (p', Returned)
  | (p', Some e) => (p', Raised e)
  end.

(** [_cleanup]: [self._channels.clear()]. *)
#[global] Instance soft_pool : ChannelPool (list (channel * Z)) := {|
  class_name := "SFTPSoftChannelPool";
  _cleanup _ := ([], None)
|}.

(** *** The pool shared by concurrent consumers *)

Record sys : Type := Sys {
  the_pool : soft;
  client : nat;
  consumers : list consumer
}.

Inductive event : Type :=
| Begin
| OpenDone (i : nat) (o : SFTPHardChannelPool.open_outcome)
| Exit (i : nat) (how : exit_kind).

Definition step (s : sys) (ev : event) : option sys :=
  match ev with
  | Begin =>
      let pc := get_start (the_pool s) in
      Some (Sys pc.1 (client s) (consumers s ++ [pc.2]))
  | OpenDone i o =>
      match consumers s !! i with
      | Some (Opening least_used_channel _) =>
          let pc := get_opened least_used_channel
                      (SFTPHardChannelPool.to_result (client s) o) (the_pool s) in
          Some (Sys pc.1 (SFTPHardChannelPool.next_client (client s) o)
                    (<[i := pc.2]> (consumers s)))
      | _ => None
      end
  | Exit i how =>
      match consumers s !! i with
      | Some (Holding c) =>
          let pc := get_exit how c (the_pool s) in
          Some (Sys pc.1 (client s) (<[i := pc.2]> (consumers s)))
      | _ => None
      end
  end.

Fixpoint run (s : sys) (tr : list event) : option sys :=
  match tr with
  | [] => Some s
  | ev :: tr' =>
      match step s ev with
      | Some s' => run s' tr'
      | None => None
      end
  end.

Definition start (kwargs : list (string * option Z)) (unsafe : option bool) : sys :=
  Sys (init kwargs unsafe) 0%nat [].

(** Does a [get()] begun now take the branch [if num_connections > 0] and
    call [_maybe_new_channel]?  Does it go on to call [start_sftp_client]? *)
Definition enters_creation (p : soft) : bool :=
  bool_decide ((least_used (_channels p)).2 > 0).

Definition begin_attempts (p : soft) : bool :=
  enters_creation p && may_open p.

Definition usage_sum (cs : list (channel * Z)) : Z :=
  foldr (λ kv acc, kv.2 + acc) 0 cs.

(** How many consumers are suspended at their [yield] with channel [c]. *)
Definition holds (c : channel) (k : consumer) : bool :=
  match k with
  | Holding c' => bool_decide (c' = c)
  | _ => false
  end.

Definition holders (c : channel) (ks : list consumer) : Z :=
  Z.of_nat (length (filter (λ k, holds c k = true) ks)).

(** What every run of the system keeps true. *)
Definition known (bound : nat) (k : consumer) : Prop :=
  match k with
  | Holding c => (c < bound)%nat
  | Opening (Some c) _ => (c < bound)%nat
  | _ => True
  end.

Record sound_at (cs : list (channel * Z)) (active : Z) (bound : nat)
    (ks : list consumer) : Prop := Sound {
  sound_sum : usage_sum cs = active;
  sound_nonneg : Forall (λ kv, 0 ≤ kv.2) cs;
  sound_holders : ∀ c, holders c ks ≤ counter_get c cs;
  sound_keys : Forall (λ kv, (kv.1 < bound)%nat) cs;
  sound_held : Forall (known bound) ks;
  sound_nodup : NoDup cs.*1
}.

Definition sound (s : sys) : Prop :=
  sound_at (_channels (the_pool s)) (active_channels (the_pool s)) (client s)
           (consumers s).

(** The consumers suspended at their [yield], and the scopes left by an
    exception along a run. *)
Definition is_holding (k : consumer) : bool :=
  match k with
  | Holding _ => true
  | _ => false
  end.

Definition holding (ks : list consumer) : Z :=
  Z.of_nat (length (filter (λ k, is_holding k = true) ks)).

Definition is_failed_exit (ev : event) : bool :=
  match ev with
  | Exit _ (Raising _) => true
  | _ => false
  end.

Definition failed_exits (tr : list event) : Z :=
  Z.of_nat (length (filter (λ ev, is_failed_exit ev = true) tr)).

(** [get()] run with nobody else touching the pool, up to its [yield] or
    its exception: [r] answers the creation attempt if one is made. *)
Definition acquire_alone (r : open_result) (p : soft) : soft * consumer :=
  match get_start p with
  | (p', Opening least_used_channel _) => get_opened least_used_channel r p'
  | pc => pc
  end.

(** One consumer alone: [async with pool.get(): pass] when [get()] yields
    without suspending. *)
Definition pass_through (p : soft) : soft :=
  match get_start p with
  | (p', Holding c) => (get_exit Normal c p').1
  | (p', _) => p'
  end.

End SFTPSoftChannelPool.

(** ** [SSHFileSystem]: how the pool is built *)

Module SSHFileSystem.

Inductive any_pool : Type :=
| HardPool (p : SFTPHardChannelPool.hard)
| SoftPool (p : SFTPSoftChannelPool.soft).

(** [self._pool_args = _drop_unset({...})]. *)
Definition _pool_args (max_sftp_channels max_sftp_channel_wait_timeout : arg)
  : list (string * option Z) :=
  _drop_unset [("max_channels", max_sftp_channels);
               ("timeout", max_sftp_channel_wait_timeout)].

(** The choice of [self._pool_type] in [__init__] followed by
    [pool = self._pool_type(client, **self._pool_args)] in [_connect];
    [repr] is Python's [repr] on strings. *)
Definition connect_pool (repr : string → string) (sftp_channel_pool : string)
    (max_sftp_channels max_sftp_channel_wait_timeout : arg) : exn + any_pool :=
  let kwargs := _pool_args max_sftp_channels max_sftp_channel_wait_timeout in
  if bool_decide (sftp_channel_pool = "soft") then
    inr (SoftPool (SFTPSoftChannelPool.init kwargs None))
  else if bool_decide (sftp_channel_pool = "hard") then
    inr (HardPool (SFTPHardChannelPool.init kwargs None))
  else inl (ValueError ("Unknown pool type: " +:+ repr sftp_channel_pool)).

End SSHFileSystem.

(** ** [SSHFile] *)

Module SSHFile.

(** The remote operations a file object can cause. *)
Inductive op : Type :=
| PoolGet                               (* [self.fs._pool.get()] entered *)
| ChannelOpen (location mode : string). (* [channel.open(location, mode)] entered *)

(** The attributes of [AbstractBufferedFile] this class reads. *)
Record base : Type := Base {
  path : string;
  mode : string
}.

Record file : Type := File {
  inherited : base;
  _file : option (string * string);  (* the open remote file, if any *)
  _location : string;
  _stack : list op                   (* contexts entered into [self._stack] *)
}.

(** [posixpath.join(a, b)]. *)
Definition ends_with_sep (a : string) : bool :=
  bool_decide (String.substring (String.length a - 1)%nat 1 a = "/").

Definition posixpath_join (a b : string) : string :=
  if String.prefix "/" b then b
  else if bool_decide (a = "") || ends_with_sep a then a +:+ b
  else a +:+ "/" +:+ b.

(** [_get_tmp_file(path)], with the value [secrets.token_hex(16)] returned. *)
Definition _get_tmp_file (token_hex : string) (path : string) : string :=
  posixpath_join path (".tmp." +:+ token_hex).

(** [needle in s] for strings. *)
Definition contains (needle s : string) : bool :=
  match String.index 0 needle s with
  | Some _ => true
  | None => false
  end.

Section Init.

(** Python's [repr] on strings, [fs._parent], the random token, and
    [AbstractBufferedFile.__init__], which either raises or leaves the
    attributes of the base class; the list is what it did remotely. *)
Variable repr : string → string.
Variable _parent : string → string.
Variable token_hex : string.
Variable super_init : string → string → list op * (exn + base).

(** [SSHFile.__init__(fs, path, mode)]: the remote operations performed and
    the exception raised or the object built. *)
Definition init (path_arg mode_arg : string) : list op * (exn + file) :=
  match super_init path_arg mode_arg with
  | (ops, inl e) => (ops, inl e)
  | (ops, inr b) =>
      if bool_decide (mode b = "rb") || bool_decide (mode b = "wb") then
        let location :=
          if contains "w" (mode b) then _get_tmp_file token_hex (_parent (path b))
          else path b in
        (ops, inr (File b None location []))
      else (ops, inl (ValueError ("Unsupported file open mode: " +:+ repr (mode b))))
  end.

(** [_async_open_file]: the channel is acquired and the remote file opened
    only here, on the first read or write. *)
Definition _async_open_file (f : file) : list op * file :=
  let entered := [PoolGet; ChannelOpen (_location f) (mode (inherited f))] in
  (entered,
   File (inherited f) (Some (_location f, mode (inherited f))) (_location f)
        (_stack f ++ entered)).

End Init.

(** What [AbstractBufferedFile.__init__] of fsspec, which line 411 calls
    before the mode is looked at, does as far as this class depends on it:
    it stores [path] and [mode], then raises [NotImplementedError] for every
    mode but "ab", "rb" and "wb"; for "rb" alone it goes on to ask the file
    system for the size of the file ([self.details]), which is remote work
    of its own and may fail: [size] is what that did and how it ended. *)
Definition AbstractBufferedFile_init (size : list op * option exn)
    (path_arg mode_arg : string) : list op * (exn + base) :=
  if bool_decide (mode_arg ∈ ["ab"; "rb"; "wb"]) then
    if bool_decide (mode_arg = "rb") then
      match size with
      | (ops, Some e) => (ops, inl e)
      | (ops, None) => (ops, inr (Base path_arg mode_arg))
      end
    else ([], inr (Base path_arg mode_arg))
  else ([], inl NotImplementedError).

End SSHFile.

(** ** [wrap_exceptions] and the methods of [SSHFileSystem] *)

Module SSHFileSystemOps.

(** The exceptions this layer tells apart; [Other] is any exception it
    does not look at, those of the pool included. *)
Inductive error : Type :=
| PermissionDenied (reason : string)     (* asyncssh.misc.PermissionDenied *)
| SFTPNoSuchFile (reason : string)
| SFTPFailure (reason : string)
| SFTPOpUnsupported (reason : string)
| ProcessError (stderr : string)
| PermissionError (msg : string)         (* the builtins the wrapper raises *)
| FileNotFoundError (errno : Z) (strerror : string)
| FileExistsError (errno : Z) (strerror : string)
| AssertionError
| Other (e : exn).

(** How a coroutine ends; [Hang]: it is still suspended in [get()], waiting
    for a channel. *)
Inductive outcome (A : Type) : Type :=
| Return (a : A)
| Raise (e : error)
| Hang.

Arguments Return {A}.
Arguments Raise {A}.
Arguments Hang {A}.

Definition ENOENT : Z := 2.
Definition EEXIST : Z := 17.

(** [s.endswith(suffix)]. *)
Definition ends_with (suffix s : string) : bool :=
  (String.length suffix <=? String.length s)%nat
  && bool_decide
       (String.substring (String.length s - String.length suffix)
                         (String.length suffix) s = suffix).

(** The exception as the pool's context manager receives it: the pool only
    passes it on. *)
Definition as_exn (e : error) : exn :=
  match e with
  | PermissionDenied _ => OtherException "PermissionDenied"
  | SFTPNoSuchFile _ => OtherException "SFTPNoSuchFile"
  | SFTPFailure _ => OtherException "SFTPFailure"
  | SFTPOpUnsupported _ => OtherException "SFTPOpUnsupported"
  | ProcessError _ => OtherException "ProcessError"
  | PermissionError _ => OtherException "PermissionError"
  | FileNotFoundError _ _ => OtherException "FileNotFoundError"
  | FileExistsError _ _ => OtherException "FileExistsError"
  | AssertionError => OtherException "AssertionError"
  | Other e => e
  end.

(** What [pool.get()] comes to when nobody else touches the pool. *)
Inductive entered : Type :=
| Got (c : channel)
| Failed (e : exn)
| Pending.

(** A pool as the methods use it: [answers] is what the outside says during
    one [get()]. *)
Class Pooled (P : Type) : Type := {
  answers : Type;
  enter : answers → P → P * entered;
  leave : exit_kind → channel → P → P
}.

#[global] Instance soft_pooled : Pooled SFTPSoftChannelPool.soft := {|
  answers := open_result;
  enter r p :=
    match SFTPSoftChannelPool.acquire_alone r p with
    | (p', SFTPSoftChannelPool.Holding c) => (p', Got c)
    | (p', SFTPSoftChannelPool.Raised e) => (p', Failed e)
    | (p', _) => (p', Pending)
    end;
  leave how c p := (SFTPSoftChannelPool.get_exit how c p).1
|}.

#[global] Instance hard_pooled : Pooled SFTPHardChannelPool.hard := {|
  answers := (open_result * list Z)%type;
  enter a p :=
    match SFTPHardChannelPool.acquire_alone a.1 a.2 p with
    | (p', SFTPHardChannelPool.Holding c) => (p', Got c)
    | (p', SFTPHardChannelPool.Raised e) => (p', Failed e)
    | (p', _) => (p', Pending)
    end;
  leave how c p := (SFTPHardChannelPool.get_exit how c p).1
|}.

(** The requests sent to the remote side. *)
Inductive op : Type :=
| Stat (c : channel) (path : string)
| PosixRename (c : channel) (lpath rpath : string)
| Readdir (c : channel) (path : string)
| Mkdir (c : channel) (path : string)
| Makedirs (c : channel) (path : string) (exist_ok : bool) (permissions : Z)
| Unlink (c : channel) (path : string)
| Rmdir (c : channel) (path : string)
| Run (cmd : string)
| Open (c : channel) (location mode : string)
| Seek (c : channel) (location : string) (offset : Z)
| Read (c : channel) (location : string) (size : Z)
| Write (c : channel) (location : string) (data : string)
| CloseFile (c : channel) (location : string).

(** [asyncssh.SFTPAttrs] as the server filled it, and an entry of a
    directory listing.  A field the server did not send is [None]. *)
Record attributes : Type := Attributes {
  attr_size : option Z;
  attr_permissions : option Z;
  attr_gid : option Z;
  attr_uid : option Z;
  attr_atime : option Z;
  attr_mtime : option Z
}.

Record file_attr : Type := FileAttr {
  filename : string;
  attrs : attributes
}.

(** [stat.S_IFMT(mode)] and the file types tested by [_decode_attributes]. *)
Definition S_IFMT (mode : Z) : Z := Z.land mode 61440.   (* 0o170000 *)
Definition S_IFDIR : Z := 16384.                          (* 0o040000 *)
Definition S_IFREG : Z := 32768.                          (* 0o100000 *)
Definition S_IFLNK : Z := 40960.                          (* 0o120000 *)

(** The argument of [stat.S_ISDIR] and its like as they convert it: an
    integer that fits [mode_t], 32 bits without sign; [None] raises
    [TypeError] and an integer outside that range [OverflowError]. *)
Definition as_mode (permissions : option Z) : exn + Z :=
  match permissions with
  | None => inl (OtherException "TypeError")
  | Some mode =>
      if bool_decide (0 ≤ mode < 2 ^ 32) then inr mode
      else inl (OtherException "OverflowError")
  end.

(** The [if stat.S_ISDIR(...) ... elif ... else] of [_decode_attributes];
    the first test raises what any of them would. *)
Definition kind_of (permissions : option Z) : exn + string :=
  match as_mode permissions with
  | inl e => inl e
  | inr mode =>
      inr (if bool_decide (S_IFMT mode = S_IFDIR) then "directory"
           else if bool_decide (S_IFMT mode = S_IFREG) then "file"
           else if bool_decide (S_IFMT mode = S_IFLNK) then "link"
           else "unknown")
  end.

Section Methods.

(** Outside [sshfs.py]: [datetime.utcfromtimestamp], which raises on [None]
    and on a timestamp out of its range, and its result type;
    [os.strerror] of the two error numbers, [str.strip], [str.split] without
    arguments, [shlex.quote], and [repr] on strings. *)
Context {D : Type}.
Variable utcfromtimestamp : option Z → exn + D.
Variables _NOT_FOUND _FILE_EXISTS : string.
Variable strip : string → string.
Variable split : string → list string.
Variable quote : string → string.
Variable repr : string → string.

(** The dictionary [_decode_attributes] returns, with ["name"] once set. *)
Record info : Type := Info {
  info_name : option string;
  info_size : option Z;
  info_type : string;
  info_gid : option Z;
  info_uid : option Z;
  info_time : D;
  info_mtime : D;
  info_permissions : option Z
}.

(** [_decode_attributes]: the file type is worked out first, then the
    dictionary is built, its values in the order written; the first of
    these to raise ends the call. *)
Definition _decode_attributes (a : attributes) : exn + info :=
  match kind_of (attr_permissions a) with
  | inl e => inl e
  | inr kind =>
      match utcfromtimestamp (attr_atime a) with
      | inl e => inl e
      | inr time =>
          match utcfromtimestamp (attr_mtime a) with
          | inl e => inl e
          | inr mtime =>
              inr {| info_name := None;
                     info_size := attr_size a;
                     info_type := kind;
                     info_gid := attr_gid a;
                     info_uid := attr_uid a;
                     info_time := time;
                     info_mtime := mtime;
                     info_permissions := attr_permissions a |}
          end
      end
  end.

(** [info["name"] = ...]. *)
Definition set_name (name : string) (i : info) : info :=
  Info (Some name) (info_size i) (info_type i) (info_gid i) (info_uid i)
       (info_time i) (info_mtime i) (info_permissions i).

(** [wrap_exceptions]: what the wrapper makes of the way [func] ended. *)
Definition wrap_exceptions {A : Type} (o : outcome A) : outcome A :=
  match o with
  | Raise (PermissionDenied reason) => Raise (PermissionError reason)
  | Raise (SFTPNoSuchFile _) => Raise (FileNotFoundError ENOENT _NOT_FOUND)
  | Raise (ProcessError stderr) =>
      if ends_with _NOT_FOUND (strip stderr)
      then Raise (FileNotFoundError ENOENT _NOT_FOUND)
      else o
  | Raise (SFTPFailure reason) =>
      if ends_with "already exists" reason
      then Raise (FileExistsError EEXIST _FILE_EXISTS)
      else o
  | _ => o
  end.

Context {P : Type} `{Pooled P}.

(** The pool and the requests sent so far. *)
Record world : Type := World {
  pool : P;
  log : list op
}.

(** [async with self._pool.get() as channel: body], run with nobody else
    touching the pool.  [body] gives the requests it sends and how it ends. *)
Definition with_channel {A : Type} (a : answers)
    (body : channel → list op * (error + A)) (w : world) : world * outcome A :=
  match enter a (pool w) with
  | (p1, Got c) =>
      match body c with
      | (ops, inr v) => (World (leave Normal c p1) (log w ++ ops), Return v)
      | (ops, inl e) => (World (leave (Raising (as_exn e)) c p1) (log w ++ ops), Raise e)
      end
  | (p1, Failed e) => (World p1 (log w), Raise (Other e))
  | (p1, Pending) => (World p1 (log w), Hang)
  end.

(** [_info]. *)
Definition _info (a : answers) (stat : error + attributes) (path : string) (w : world)
  : world * outcome info :=
  let '(w1, o) := with_channel a (λ c, ([Stat c path], stat)) w in
  (w1, wrap_exceptions
         match o with
         | Return attributes =>
             match _decode_attributes attributes with
             | inr info => Return (set_name path info)
             | inl e => Raise (Other e)
             end
         | Raise e => Raise e
         | Hang => Hang
         end).

(** [_rm_file] and [_rmdir]. *)
Definition _rm_file (a : answers) (unlink : error + unit) (path : string) (w : world)
  : world * outcome unit :=
  let '(w1, o) := with_channel a (λ c, ([Unlink c path], unlink)) w in
  (w1, wrap_exceptions o).

Definition _rmdir (a : answers) (rmdir : error + unit) (path : string) (w : world)
  : world * outcome unit :=
  let '(w1, o) := with_channel a (λ c, ([Rmdir c path], rmdir)) w in
  (w1, wrap_exceptions o).

(** [_makedirs(path, exist_ok=False, permissions=511)]. *)
Definition _makedirs (a : answers) (makedirs : error + unit) (path : string)
    (exist_ok : bool) (permissions : Z) (w : world) : world * outcome unit :=
  let '(w1, o) :=
    with_channel a (λ c, ([Makedirs c path exist_ok permissions], makedirs)) w in
  (w1, wrap_exceptions o).

(** [_mkdir(path, create_parents=True, permissions=511)]: the [attrs] built
    from [permissions] are not passed on to [channel.mkdir]. *)
Definition _mkdir (a : answers) (made : error + unit) (path : string)
    (create_parents : bool) (permissions : Z) (w : world) : world * outcome unit :=
  if create_parents then
    let '(w1, o) := _makedirs a made path true 511 w in
    (w1, wrap_exceptions o)
  else
    let '(w1, o) := with_channel a (λ c, ([Mkdir c path], made)) w in
    (w1, wrap_exceptions o).

(** [_cp_file]: [client.run] goes over the connection, not over a channel
    of the pool. *)
Definition cp_command (lpath rpath : string) : string :=
  "cp " +:+ quote lpath +:+ " " +:+ quote rpath.

Definition _cp_file (run : error + string) (lpath rpath : string) (w : world)
  : world * outcome unit :=
  (World (pool w) (log w ++ [Run (cp_command lpath rpath)]),
   wrap_exceptions
     match run with
     | inr _ => Return ()
     | inl e => Raise e
     end).

(** [_mv]: [posix_rename] under [suppress(SFTPOpUnsupported)], and when
    that extension is missing, [try: _cp_file(...) finally: _rm_file(...)]. *)
Definition _mv (a1 : answers) (rename : error + unit) (cp : error + string)
    (a2 : answers) (unlink : error + unit) (lpath rpath : string) (w : world)
  : world * outcome unit :=
  let '(w1, o) :=
    with_channel a1
      (λ c, ([PosixRename c lpath rpath],
             match rename with
             | inr v => inr (Some v)                      (* [return await ...] *)
             | inl (SFTPOpUnsupported _) => inr None      (* suppressed *)
             | inl e => inl e
             end)) w in
  match o with
  | Return (Some v) => (w1, wrap_exceptions (Return v))
  | Raise e => (w1, wrap_exceptions (Raise e))
  | Hang => (w1, Hang)
  | Return None =>
      let '(w2, copied) := _cp_file cp lpath rpath w1 in
      let '(w3, removed) := _rm_file a2 unlink lpath w2 in
      (w3, wrap_exceptions
             match removed with
             | Return _ => copied        (* what the [try] block ended with *)
             | other => other            (* raised in [finally], or still there *)
             end)
  end.

(** [_ls]: the loop over [file_attrs], and the two shapes of the result. *)
Inductive listing : Type :=
| Detailed (infos : list info)
| Names (names : list string).

Definition skipped (name : string) : bool :=
  bool_decide (name = "") || bool_decide (name = ".") || bool_decide (name = "..").

Fixpoint ls_loop (path : string) (file_attrs : list file_attr) (infos : list info)
  : exn + list info :=
  match file_attrs with
  | [] => inr infos
  | fa :: rest =>
      if skipped (filename fa) then ls_loop path rest infos
      else
        match _decode_attributes (attrs fa) with
        | inl e => inl e
        | inr info =>
            ls_loop path rest
              (infos ++ [set_name (SSHFile.posixpath_join path (filename fa)) info])
        end
  end.

Definition name_of (i : info) : string := default "" (info_name i).

Definition _ls (a : answers) (readdir : error + list file_attr) (path : string)
    (detail : bool) (w : world) : world * outcome listing :=
  let '(w1, o) := with_channel a (λ c, ([Readdir c path], readdir)) w in
  (w1, wrap_exceptions
         match o with
         | Return file_attrs =>
             match ls_loop path file_attrs [] with
             | inr infos =>
                 Return (if detail then Detailed infos else Names (name_of <$> infos))
             | inl e => Raise (Other e)
             end
         | Raise e => Raise e
         | Hang => Hang
         end).

(** [_get_system] and [_checksum]. *)
Definition _get_system (uname : error + string) (w : world) : world * outcome string :=
  (World (pool w) (log w ++ [Run "uname"]),
   wrap_exceptions
     match uname with
     | inr stdout => Return (strip stdout)
     | inl e => Raise e
     end).

(** [parts[part]] for [part = 0] and [part = -1] on a non-empty list. *)
Definition part_of (from_end : bool) (parts : list string) : string :=
  if from_end then default "" (last parts) else default "" (head parts).

Definition _checksum (uname md5 : error + string) (path : string) (w : world)
  : world * outcome string :=
  let '(w1, sys) := _get_system uname w in
  match sys with
  | Return system =>
      let choice :=
        if bool_decide (system = "Linux") then inr ("md5sum", false)
        else if bool_decide (system = "Darwin") then inr ("md5", true)
        else inl (Other (ValueError (repr system +:+ " doesn't support checksum operation")))
      in
      match choice with
      | inl e => (w1, wrap_exceptions (Raise e))
      | inr (command, from_end) =>
          let w2 := World (pool w1) (log w1 ++ [Run (command +:+ " " +:+ quote path)]) in
          (w2, wrap_exceptions
                 match md5 with
                 | inl e => Raise e
                 | inr stdout =>
                     let parts := split (strip stdout) in
                     if bool_decide (1 ≤ length parts)%nat then
                       let checksum := part_of from_end parts in
                       if bool_decide (String.length checksum = 32%nat)
                       then Return checksum
                       else Raise AssertionError
                     else Raise AssertionError
                 end)
      end
  | Raise e => (w1, wrap_exceptions (Raise e))
  | Hang => (w1, Hang)
  end.

End Methods.

(** [_finalize(pool, stack)], registered by [__init__] with the pool and
    the exit stack that holds the SSH connection.  [stack_aclose] is what
    closing that stack raises, if anything; the boolean tells whether
    [stack.aclose()] was reached.  [await pool.close()] stands outside the
    [suppress(BrokenPipeError)] block. *)
Definition _finalize {S} `{ChannelPool S} (teardown : channel → option exn)
    (stack_aclose : option exn) (p : SFTPChannelPool.pool S)
  : SFTPChannelPool.pool S * list channel * bool * option exn :=
  match close teardown p with
  | (p', closed, Some e) => (p', closed, false, Some e)
  | (p', closed, None) =>
      (p', closed, true,
       match stack_aclose with
       | Some BrokenPipeError => None
       | other => other
       end)
  end.

End SSHFileSystemOps.

(** ** [SSHFile]: reading, writing and closing over the pool *)

Module SSHFileIO.

Import SSHFileSystemOps.

(** What [self._stack] of a file object holds, oldest first: the scope of
    [self.fs._pool.get()] and the remote file of [channel.open(...)]. *)
Inductive context : Type :=
| PoolScope (c : channel)
| OpenedFile (c : channel) (location : string).

(** The remote file object: the channel it lives on and its location. *)
Definition handle : Type := (channel * string)%type.

(** [path], [mode] and [autocommit] are the attributes of
    [AbstractBufferedFile] the class reads. *)
Record file : Type := File {
  path : string;
  mode : string;
  autocommit : bool;
  _location : string;
  _file : option handle;
  _stack : list context
}.

Definition set_file (h : option handle) (f : file) : file :=
  File (path f) (mode f) (autocommit f) (_location f) h (_stack f).

Definition set_stack (ctxs : list context) (f : file) : file :=
  File (path f) (mode f) (autocommit f) (_location f) (_file f) ctxs.

Section Methods.

Variables _NOT_FOUND _FILE_EXISTS : string.
Variable strip : string → string.
Variable quote : string → string.
Context {P : Type} `{Pooled P}.

(** [_async_open_file], under [wrap_exceptions]:
    [enter_async_context] pushes a context once its [__aenter__] returned,
    so that a failing [channel.open] leaves the scope of the pool on the
    stack. *)
Definition _async_open_file (a : answers) (opened : error + unit) (f : file) (w : world)
  : file * world * outcome handle :=
  match enter a (pool w) with
  | (p1, Got c) =>
      let f1 := set_stack (_stack f ++ [PoolScope c]) f in
      let w1 := World p1 (log w ++ [Open c (_location f) (mode f)]) in
      match opened with
      | inr _ =>
          (set_stack (_stack f1 ++ [OpenedFile c (_location f)]) f1, w1,
           Return (c, _location f))
      | inl e => (f1, w1, wrap_exceptions _NOT_FOUND _FILE_EXISTS strip (Raise e))
      end
  | (p1, Failed e) =>
      (f, World p1 (log w), wrap_exceptions _NOT_FOUND _FILE_EXISTS strip (Raise (Other e)))
  | (p1, Pending) => (f, World p1 (log w), Hang)
  end.

(** [self._stack.aclose()]: the contexts are left last entered first; each
    one is handed the exception pending at that point, and an exception
    raised by one becomes the pending one.  [closing] is what closing the
    remote file raises, if anything. *)
Fixpoint unwind (closing : option error) (ctxs : list context) (pending : option error)
    (w : world) : world * option error :=
  match ctxs with
  | [] => (w, pending)
  | OpenedFile c location :: rest =>
      unwind closing rest
        match closing with Some e => Some e | None => pending end
        (World (pool w) (log w ++ [CloseFile c location]))
  | PoolScope c :: rest =>
      unwind closing rest pending
        (World (leave match pending with
                      | Some e => Raising (as_exn e)
                      | None => Normal
                      end c (pool w))
               (log w))
  end.

(** [_async_close_file]: [self._file = None] comes after the [await]. *)
Definition _async_close_file (closing : option error) (f : file) (w : world)
  : file * world * outcome unit :=
  match unwind closing (rev (_stack f)) None w with
  | (w1, Some e) => (set_stack [] f, w1, Raise e)
  | (w1, None) => (set_file None (set_stack [] f), w1, Return ())
  end.

(** [if self._file is None: self._file = await self._async_open_file()]. *)
Definition ensure_file (a : answers) (opened : error + unit) (f : file) (w : world)
  : file * world * outcome handle :=
  match _file f with
  | Some h => (f, w, Return h)
  | None =>
      match _async_open_file a opened f w with
      | (f1, w1, Return h) => (set_file (Some h) f1, w1, Return h)
      | other => other
      end
  end.

(** [_async_fetch_range(start, end)]; [seek] and [read] are the answers of
    the remote file. *)
Definition _async_fetch_range (a : answers) (opened seek : error + unit)
    (read : error + string) (start end_ : Z) (f : file) (w : world)
  : file * world * outcome string :=
  match ensure_file a opened f w with
  | (f1, w1, Return h) =>
      match seek with
      | inl e => (f1, World (pool w1) (log w1 ++ [Seek h.1 h.2 start]), Raise e)
      | inr _ =>
          (f1,
           World (pool w1) (log w1 ++ [Seek h.1 h.2 start; Read h.1 h.2 (end_ - start)]),
           match read with inl e => Raise e | inr data => Return data end)
      end
  | (f1, w1, Raise e) => (f1, w1, Raise e)
  | (f1, w1, Hang) => (f1, w1, Hang)
  end.

(** [_commit]: nothing unless the mode has a ["w"]. *)
Definition _commit (a1 : answers) (rename : error + unit) (cp : error + string)
    (a2 : answers) (unlink : error + unit) (f : file) (w : world) : world * outcome unit :=
  if SSHFile.contains "w" (mode f) then
    _mv _NOT_FOUND _FILE_EXISTS strip quote a1 rename cp a2 unlink (_location f) (path f) w
  else (w, Return ()).

(** [_async_upload_chunk(final)], with [buffer] the value of
    [self.buffer.getvalue()].  It returns [True] or, falling off its end,
    [None], which is [false] here. *)
Definition _async_upload_chunk (a : answers) (opened written : error + unit)
    (buffer : string) (a1 : answers) (rename : error + unit) (cp : error + string)
    (a2 : answers) (unlink : error + unit) (closing : option error) (final : bool)
    (f : file) (w : world) : file * world * outcome bool :=
  match ensure_file a opened f w with
  | (f1, w1, Return h) =>
      let w2 := World (pool w1) (log w1 ++ [Write h.1 h.2 buffer]) in
      match written with
      | inl e => (f1, w2, Raise e)
      | inr _ =>
          if autocommit f1 && final then
            match _commit a1 rename cp a2 unlink f1 w2 with
            | (w3, Return _) =>
                match _async_close_file closing f1 w3 with
                | (f2, w4, Return _) => (f2, w4, Return true)
                | (f2, w4, Raise e) => (f2, w4, Raise e)
                | (f2, w4, Hang) => (f2, w4, Hang)
                end
            | (w3, Raise e) => (f1, w3, Raise e)
            | (w3, Hang) => (f1, w3, Hang)
            end
          else (f1, w2, Return false)
      end
  | (f1, w1, Raise e) => (f1, w1, Raise e)
  | (f1, w1, Hang) => (f1, w1, Hang)
  end.

End Methods.

End SSHFileIO.

(** * Properties *)

Module Hard := SFTPHardChannelPool.
Module Soft := SFTPSoftChannelPool.

(** ** Channel creation *)

Section MaybeNewChannel.

Context {S : Type}.
Implicit Types p : pool S.

Lemma may_open_iff p :
  may_open p = true ↔
  max_channels p = None ∨ ∃ m, max_channels p = Some m ∧ active_channels p < m.
Proof.
  unfold may_open. destruct (max_channels p) as [m|].
  - rewrite bool_decide_eq_true. split.
    + intros Hlt. right. by exists m.
    + intros [Hn | (m' & Hm & Hlt)]; [discriminate | by inversion Hm].
  - split; [by left | done].
Qed.

Lemma may_open_false p :
  may_open p = false ↔ ∃ m, max_channels p = Some m ∧ m ≤ active_channels p.
Proof.
  unfold may_open. destruct (max_channels p) as [m|].
  - rewrite bool_decide_eq_false. split.
    + intros Hge. exists m. split; [done | lia].
    + intros (m' & Hm & Hle). inversion Hm. lia.
  - split; [done | by intros (m & Hm & _)].
Qed.

Lemma resume_refused p :
  _maybe_new_channel_resume (OpenRaised ChannelOpenError) p
  = (set_max_channels (Some (active_channels p)) p, inr None).
Proof. reflexivity. Qed.

Lemma resume_opened p c :
  _maybe_new_channel_resume (Opened c) p = (set_stack (c :: _stack p) p, inr (Some c)).
Proof. reflexivity. Qed.

Lemma resume_other_error p e :
  e ≠ ChannelOpenError → _maybe_new_channel_resume (OpenRaised e) p = (p, inl e).
Proof. by destruct e. Qed.

End MaybeNewChannel.

(** C7.  [_maybe_new_channel]: when the capacity is unset or the active
    count is below it, [start_sftp_client] is called, and an open that
    fails with [ChannelOpenError] leaves a pool whose capacity is the
    active count, with every other attribute as it was, and returns [None]
    without raising; the consumer that triggered it never sees that error
    in either pool: it goes on to [wait_for] (hard pool) or to the least
    used channel (soft pool).  Any other failure of the open propagates and
    changes nothing.  When the capacity is set and the active count has
    reached it, [start_sftp_client] is not called and the pool is left as
    it was. *)
Theorem maybe_new_channel_refusal_is_absorbed :
  (∀ (S : Type) (p : pool S),
     (max_channels p = None ∨ ∃ m, max_channels p = Some m ∧ active_channels p < m) →
     (∀ p' result called,
        _maybe_new_channel (OpenRaised ChannelOpenError) p = (p', result, called) →
        max_channels p' = Some (active_channels p)
        ∧ active_channels p' = active_channels p
        ∧ timeout p' = timeout p
        ∧ unsafe_terminate p' = unsafe_terminate p
        ∧ _stack p' = _stack p
        ∧ sub p' = sub p
        ∧ result = inr None
        ∧ called = true)
     ∧ ∀ e, e ≠ ChannelOpenError →
            _maybe_new_channel (OpenRaised e) p = (p, inl e, true))
  ∧ (∀ (S : Type) (p : pool S) (m : Z) (r : open_result),
       max_channels p = Some m → m ≤ active_channels p →
       _maybe_new_channel r p = (p, inr None, false))
  ∧ (∀ (p : Hard.hard) (p' : Hard.hard) (k : Hard.consumer),
       Hard.get_opened (OpenRaised ChannelOpenError) p = (p', k) →
       max_channels p' = Some (active_channels p)
       ∧ (∀ e, k ≠ Hard.Raised e)
       ∧ (p', k) = Hard.wait_for_get (set_max_channels (Some (active_channels p)) p))
  ∧ (∀ (p : Soft.soft) (least : option channel) (p' : Soft.soft) (k : Soft.consumer),
       Soft.get_opened least (OpenRaised ChannelOpenError) p = (p', k) →
       max_channels p' = Some (active_channels p)
       ∧ k ≠ Soft.Raised ChannelOpenError
       ∧ (p', k) = Soft.get_finish least (set_max_channels (Some (active_channels p)) p)).
Proof.
  split; [|split; [|split]].
  - intros S p Hcap. apply may_open_iff in Hcap.
    unfold _maybe_new_channel. rewrite Hcap. split.
    + intros p' result called. rewrite resume_refused. by intros [= <- <- <-].
    + intros e He. by rewrite resume_other_error.
  - intros S p m r Hm Hle.
    assert (may_open p = false) as Hno by (apply may_open_false; eauto).
    unfold _maybe_new_channel. by rewrite Hno.
  - intros p p' k. unfold Hard.get_opened. rewrite resume_refused. intros Hk.
    split; [|split; [|done]].
    + unfold Hard.wait_for_get, Hard.queue_get, Hard.hand_out in Hk.
      destruct (timeout _) as [t|]; [case_bool_decide|];
        try destruct (Hard._queue _); by inversion Hk.
    + intros e. unfold Hard.wait_for_get, Hard.queue_get, Hard.hand_out in Hk.
      destruct (timeout _) as [t|]; [case_bool_decide|];
        try destruct (Hard._queue _); by inversion Hk.
  - intros p least p' k. unfold Soft.get_opened. rewrite resume_refused. intros Hk.
    split; [|split; [|done]]; destruct least; by inversion Hk.
Qed.

Lemma maybe_new_channel_refusal_is_absorbed_witness :
  let p : pool unit := Pool (Some 2) 1 None true [] () in
  max_channels (_maybe_new_channel (OpenRaised ChannelOpenError) p).1.1 = Some 1
  ∧ _maybe_new_channel (OpenRaised BrokenPipeError) p = (p, inl BrokenPipeError, true)
  ∧ _maybe_new_channel (Opened 7%nat) (set_active_channels 2 p)
    = (set_active_channels 2 p, inr None, false).
Proof.
  intros p.
  destruct maybe_new_channel_refusal_is_absorbed as (Hopen & Hfull & _).
  destruct (Hopen unit p) as [Hrefused Hother].
  { right. exists 2. split; [reflexivity | simpl; lia]. }
  split; [|split].
  - apply (Hrefused _ (inr None) true eq_refl).
  - apply Hother. discriminate.
  - apply (Hfull unit (set_active_channels 2 p) 2 (Opened 7%nat)).
    + reflexivity.
    + simpl. lia.
Defined.

(** ** Leaving the scope of a consumer *)

Lemma hard_exit_normal (p : Hard.hard) c :
  Hard.get_exit Normal c p = (Hard.release c p, Hard.Returned).
Proof. reflexivity. Qed.

Lemma hard_exit_raising (p : Hard.hard) c e :
  Hard.get_exit (Raising e) c p = (p, Hard.Raised e).
Proof. reflexivity. Qed.

Lemma soft_exit_normal (p : Soft.soft) c :
  Soft.get_exit Normal c p = (Soft.release c p, Soft.Returned).
Proof. reflexivity. Qed.

Lemma soft_exit_raising (p : Soft.soft) c e :
  Soft.get_exit (Raising e) c p = (p, Soft.Raised e).
Proof. reflexivity. Qed.

Lemma counter_get_set c v cs : Soft.counter_get c (Soft.counter_set c v cs) = v.
Proof.
  induction cs as [|[c' n] cs IH]; simpl.
  - by rewrite bool_decide_eq_true_2.
  - case_bool_decide; simpl.
    + by rewrite bool_decide_eq_true_2.
    + by rewrite bool_decide_eq_false_2.
Qed.

Lemma counter_get_set_ne c c' v cs :
  c ≠ c' → Soft.counter_get c' (Soft.counter_set c v cs) = Soft.counter_get c' cs.
Proof.
  intros Hne. induction cs as [|[c0 n] cs IH]; simpl.
  - by rewrite bool_decide_eq_false_2.
  - case_bool_decide as Hc0; simpl.
    + subst c0. by rewrite !bool_decide_eq_false_2.
    + by rewrite IH.
Qed.

(** C1, as the code has it.  A scope left normally gives the channel back:
    the active count goes down by one and the channel joins the tail of the
    free queue (hard pool) or loses one user (soft pool).  A scope left by
    an exception does neither: [get()] has no [try]/[finally] around its
    [yield], the pool is left exactly as it was while the channel was checked
    out, and so it differs from the pool after a normal exit. *)
Theorem exception_in_scope_skips_release :
  (∀ (p : Hard.hard) (c : channel) (e : exn),
     let normal := (Hard.get_exit Normal c p).1 in
     let failed := (Hard.get_exit (Raising e) c p).1 in
     active_channels normal = active_channels p - 1
     ∧ Hard._queue normal = Hard._queue p ++ [c]
     ∧ failed = p
     ∧ failed ≠ normal)
  ∧ (∀ (p : Soft.soft) (c : channel) (e : exn),
       let normal := (Soft.get_exit Normal c p).1 in
       let failed := (Soft.get_exit (Raising e) c p).1 in
       active_channels normal = active_channels p - 1
       ∧ Soft.counter_get c (Soft._channels normal)
         = Soft.counter_get c (Soft._channels p) - 1
       ∧ failed = p
       ∧ failed ≠ normal).
Proof.
  split.
  - intros p c e. simpl. repeat split.
    intros Heq. apply (f_equal active_channels) in Heq. simpl in Heq. lia.
  - intros p c e. simpl. repeat split.
    + unfold Soft.counter_add. rewrite counter_get_set. lia.
    + intros Heq. apply (f_equal active_channels) in Heq. simpl in Heq. lia.
Qed.

(** The same on a run: one consumer of a fresh hard pool gets channel 0 and
    its scope raises; the count stays at one and the free queue stays empty,
    where a normal exit leaves zero and the channel queued. *)
Example hard_scope_failure_leaks :
  Hard.run (Hard.start [] None)
    [Hard.Begin; Hard.OpenDone 0 Hard.OpenOk; Hard.Exit 0 (Raising BrokenPipeError)]
  = Some (Hard.Sys (Pool None 1 (Some 10800) true [0%nat] []) 1
            [Hard.Raised BrokenPipeError] [])
  ∧ Hard.run (Hard.start [] None)
      [Hard.Begin; Hard.OpenDone 0 Hard.OpenOk; Hard.Exit 0 Normal]
    = Some (Hard.Sys (Pool None 0 (Some 10800) true [0%nat] [0%nat]) 1
              [Hard.Returned] []).
Proof. split; reflexivity. Qed.

(** ** Closing a pool *)

Section Close.

Context {S : Type} {HP : ChannelPool S}.
Implicit Types p : pool S.

Lemma close_strict_leak teardown p :
  active_channels p ≠ 0 → unsafe_terminate p = false →
  close teardown p = (p, [], Some (RuntimeError (leak_message class_name))).
Proof.
  intros Hactive Hstrict. unfold close.
  by rewrite bool_decide_eq_true_2, Hstrict.
Qed.

Lemma close_tears_down teardown p :
  active_channels p = 0 ∨ unsafe_terminate p = true →
  close teardown p
  = (set_stack [] (set_sub (_cleanup (sub p)).1 p), _stack p,
     (aclose teardown (_stack p)).2).
Proof.
  intros Hgo. unfold close.
  destruct Hgo as [Hzero | Hforce].
  - rewrite bool_decide_eq_false_2; [done | by intros []].
  - rewrite Hforce. by rewrite andb_false_r.
Qed.

End Close.

(** [suppress(Exception)] at work: closing a pool of the base class itself
    swallows the [NotImplementedError] of its [_cleanup]. *)
Example close_base_class_swallows_cleanup_error :
  close (λ _, None) (Pool None 0 (Some 10800) true [] ())
  = (Pool None 0 (Some 10800) true [] (), [], None).
Proof. reflexivity. Qed.

Lemma aclose_quiet teardown stack :
  (aclose teardown stack).2 = None ↔ Forall (λ c, teardown c = None) stack.
Proof.
  unfold aclose. simpl.
  assert (∀ pending,
            foldl (λ pending c,
                     match teardown c with Some e => Some e | None => pending end)
                  pending stack = None
            ↔ pending = None ∧ Forall (λ c, teardown c = None) stack) as Hgen.
  { induction stack as [|c stack IH]; intros pending; simpl.
    - split; [intros ->; by split | by intros [-> _]].
    - rewrite IH, Forall_cons. destruct (teardown c) as [e|].
      + split; [by intros [? _] | by intros [_ [? _]]].
      + split; [by intros [-> ?] | by intros [-> [_ ?]]]. }
  rewrite Hgen. split; [by intros [_ ?] | by intros ?].
Qed.

Lemma drain_empty q : Hard.drain q = [].
Proof. induction q as [|c q IH]; [done | exact IH]. Qed.

(** C3 as stated fails in its second half: [close()] under the forceful
    policy does not always succeed.  [self._stack.aclose()] stands outside
    the [suppress(Exception)] block, so an exception raised by the teardown
    of a channel leaves [close()].  Here a hard pool built with the defaults
    (forceful) has opened channel 0 and got it back; its teardown raises
    [BrokenPipeError], and so does [close()]. *)
Lemma forceful_close_can_raise :
  ¬ (∀ (teardown : channel → option exn) (p : Hard.hard),
       unsafe_terminate p = true → (close teardown p).2 = None).
Proof.
  intros Hclaim.
  specialize (Hclaim (λ _, Some BrokenPipeError)
                     (Pool None 0 (Some 10800) true [0%nat] [0%nat]) eq_refl).
  vm_compute in Hclaim. discriminate.
Qed.

(** C3, amended.  Under the strict policy a [close()] with channels still
    checked out raises the [RuntimeError] about active channels and leaves
    the pool exactly as it was, tearing nothing down.  Under the forceful
    policy, whatever the active count, the leak error is never the outcome:
    the free queue (hard pool) or the usage map (soft pool) is emptied, the
    exit stack is emptied with the teardown of every channel the pool
    created run, and [close()] returns normally exactly when none of those
    teardowns raises; otherwise it raises what [aclose()] raises. *)
Theorem close_strict_refuses_forceful_clears (teardown : channel → option exn) :
  (∀ p : Hard.hard,
     (active_channels p > 0 → unsafe_terminate p = false →
      close teardown p = (p, [], Some (RuntimeError (leak_message "SFTPHardChannelPool"))))
     ∧ (unsafe_terminate p = true →
        ∃ p', close teardown p = (p', _stack p, (aclose teardown (_stack p)).2)
              ∧ Hard._queue p' = [] ∧ _stack p' = []
              ∧ active_channels p' = active_channels p
              ∧ max_channels p' = max_channels p
              ∧ ((close teardown p).2 = None
                 ↔ Forall (λ c, teardown c = None) (_stack p))))
  ∧ (∀ p : Soft.soft,
       (active_channels p > 0 → unsafe_terminate p = false →
        close teardown p = (p, [], Some (RuntimeError (leak_message "SFTPSoftChannelPool"))))
       ∧ (unsafe_terminate p = true →
          ∃ p', close teardown p = (p', _stack p, (aclose teardown (_stack p)).2)
                ∧ Soft._channels p' = [] ∧ _stack p' = []
                ∧ active_channels p' = active_channels p
                ∧ max_channels p' = max_channels p
                ∧ ((close teardown p).2 = None
                   ↔ Forall (λ c, teardown c = None) (_stack p)))).
Proof.
  split; intros p; split.
  - intros Hactive Hstrict.
    apply (close_strict_leak (HP := Hard.hard_pool)); [lia | done].
  - intros Hforce. eexists. rewrite close_tears_down by (by right).
    split; [reflexivity|]. simpl. rewrite drain_empty.
    repeat split; try done; by apply aclose_quiet.
  - intros Hactive Hstrict.
    apply (close_strict_leak (HP := Soft.soft_pool)); [lia | done].
  - intros Hforce. eexists. rewrite close_tears_down by (by right).
    split; [reflexivity|]. simpl.
    repeat split; try done; by apply aclose_quiet.
Qed.

Lemma close_strict_refuses_forceful_clears_witness :
  close (λ _, None) (Pool None 1 (Some 10800) false [0%nat] ([] : list channel))
  = (Pool None 1 (Some 10800) false [0%nat] [], [],
     Some (RuntimeError (leak_message "SFTPHardChannelPool")))
  ∧ (close (λ _, None) (Pool (Some 2) 1 None true [1%nat; 0%nat] [(0%nat, 1); (1%nat, 0)])).2
    = None.
Proof.
  destruct (close_strict_refuses_forceful_clears (λ _, None)) as [Hhard Hsoft].
  split.
  - apply (Hhard (Pool None 1 (Some 10800) false [0%nat] [])); [simpl; lia | reflexivity].
  - destruct (Hsoft (Pool (Some 2) 1 None true [1%nat; 0%nat] [(0%nat, 1); (1%nat, 0)]))
      as [_ Hforce].
    destruct (Hforce eq_refl) as (p' & _ & _ & _ & _ & _ & Hquiet).
    apply Hquiet. simpl. repeat constructor.
Defined.

(** ** The hard pool: waiting, timing out, first in first out *)

Section HardAcquire.

Implicit Types p : Hard.hard.

Lemma hand_out_active c p :
  active_channels (Hard.hand_out c p).1 = active_channels p + 1.
Proof. reflexivity. Qed.

Lemma wait_for_get_unbounded p :
  timeout p = None → Hard.wait_for_get p = Hard.queue_get 0 p.
Proof. unfold Hard.wait_for_get. by intros ->. Qed.

Lemma wait_for_get_positive p t :
  timeout p = Some t → 0 < t → Hard.wait_for_get p = (p, Hard.Starting).
Proof.
  unfold Hard.wait_for_get. intros -> Ht. by rewrite bool_decide_eq_false_2 by lia.
Qed.

Lemma wait_for_get_nonpositive p t :
  timeout p = Some t → t ≤ 0 →
  Hard.wait_for_get p = (p, Hard.Cancelling Hard.BeforeStart).
Proof.
  unfold Hard.wait_for_get. intros -> Ht. by rewrite bool_decide_eq_true_2.
Qed.

Lemma wait_for_get_not_opening p : (Hard.wait_for_get p).2 ≠ Hard.Opening.
Proof.
  unfold Hard.wait_for_get, Hard.queue_get.
  destruct (timeout p); [by case_bool_decide|]. by destruct (Hard._queue p).
Qed.

Lemma not_opening_id (r : open_result) (pc : Hard.hard * Hard.consumer) :
  pc.2 ≠ Hard.Opening → Hard.answered r pc = pc.
Proof. unfold Hard.answered. intros Hk. by rewrite bool_decide_eq_false_2. Qed.

(** A [wait_for] left to itself: it takes the head of the queue, or waits
    at an empty queue, or, under a bound that is not positive, times out. *)
Lemma settle_wait_for_get p :
  Hard.settle (Hard.wait_for_get p)
  = match timeout p with
    | Some t =>
        if bool_decide (t ≤ 0) then (p, Hard.Raised TimeoutError)
        else match Hard._queue p with
             | c :: q => Hard.hand_out c (set_sub q p)
             | [] => (p, Hard.Waiting 0)
             end
    | None =>
        match Hard._queue p with
        | c :: q => Hard.hand_out c (set_sub q p)
        | [] => (p, Hard.Waiting 0)
        end
    end.
Proof.
  unfold Hard.wait_for_get, Hard.queue_get.
  destruct (timeout p) as [t|] eqn:Ht.
  - case_bool_decide; [done|]. simpl. unfold Hard.queue_get. rewrite Ht.
    by destruct (Hard._queue p).
  - by destruct (Hard._queue p).
Qed.

Lemma settle_wait_nonempty p c q :
  Hard.unbounded_or_positive p → Hard._queue p = c :: q →
  Hard.settle (Hard.wait_for_get p) = Hard.hand_out c (set_sub q p).
Proof.
  intros Hbound Hq. rewrite settle_wait_for_get, Hq.
  destruct Hbound as [-> | (t & -> & Ht)]; [done|].
  by rewrite bool_decide_eq_false_2 by lia.
Qed.

Lemma settle_wait_empty p :
  Hard.unbounded_or_positive p → Hard._queue p = [] →
  Hard.settle (Hard.wait_for_get p) = (p, Hard.Waiting 0).
Proof.
  intros Hbound Hq. rewrite settle_wait_for_get, Hq.
  destruct Hbound as [-> | (t & -> & Ht)]; [done|].
  by rewrite bool_decide_eq_false_2 by lia.
Qed.

Lemma settle_wait_nonpositive p t :
  timeout p = Some t → t ≤ 0 →
  Hard.settle (Hard.wait_for_get p) = (p, Hard.Raised TimeoutError).
Proof.
  intros Ht Hle. rewrite settle_wait_for_get, Ht. by rewrite bool_decide_eq_true_2.
Qed.

(** What a wait that is still pending can turn into. *)
Lemma get_elapsed_cases w d p :
  Hard.get_elapsed w d p = (p, Hard.Raised TimeoutError)
  ∨ Hard.get_elapsed w d p = (p, Hard.Waiting (w + d)).
Proof.
  unfold Hard.get_elapsed. destruct (timeout p) as [t|]; [|by right].
  case_bool_decide; [by left | by right].
Qed.

Lemma get_elapsed_timeout w d p t :
  timeout p = Some t →
  Hard.get_elapsed w d p
  = (p, if bool_decide (t ≤ w + d) then Hard.Raised TimeoutError
        else Hard.Waiting (w + d)).
Proof. unfold Hard.get_elapsed. intros ->. by case_bool_decide. Qed.

Lemma get_elapsed_unbounded w d p :
  timeout p = None → Hard.get_elapsed w d p = (p, Hard.Waiting (w + d)).
Proof. unfold Hard.get_elapsed. by intros ->. Qed.

Lemma keep_waiting_pool ds p k :
  (Hard.keep_waiting ds (p, k)).1 = p.
Proof.
  revert k. induction ds as [|d ds IH]; intros k; [by destruct k|].
  destruct k; try done. simpl.
  destruct (get_elapsed_cases waited d p) as [-> | ->]; apply IH.
Qed.

Lemma keep_waiting_settled ds p k :
  (∀ w, k ≠ Hard.Waiting w) → Hard.keep_waiting ds (p, k) = (p, k).
Proof. intros Hk. destruct ds, k; try done; by destruct (Hk waited). Qed.

(** A wait under a bound [t] ends in [TimeoutError] once the time gone by
    reaches [t]. *)
Lemma keep_waiting_times_out ds p t w :
  timeout p = Some t → ds ≠ [] → t ≤ w + foldr Z.add 0 ds →
  Hard.keep_waiting ds (p, Hard.Waiting w) = (p, Hard.Raised TimeoutError).
Proof.
  intros Ht. revert w. induction ds as [|d ds IH]; intros w Hne Hsum; [done|].
  simpl. rewrite (get_elapsed_timeout _ _ _ t Ht). case_bool_decide as Hnow.
  - by apply keep_waiting_settled.
  - destruct ds as [|d' ds'].
    + simpl in Hsum. lia.
    + apply IH; [done|]. simpl in *. lia.
Qed.

(** A [wait_for] left to itself changes neither the active count nor the
    free queue unless it hands a channel out. *)
Lemma settle_wait_frame ds p p' k :
  Hard.keep_waiting ds (Hard.settle (Hard.wait_for_get p)) = (p', k) →
  (∀ c, k ≠ Hard.Holding c) →
  p' = p.
Proof.
  rewrite settle_wait_for_get. intros Hkw Hk.
  assert (∀ k0, (∀ c, k0 ≠ Hard.Holding c) ∨ True →
                Hard.keep_waiting ds (p, k0) = (p', k) → p' = p) as Hsame.
  { intros k0 _ Hrun. by rewrite <- (keep_waiting_pool ds p k0), Hrun. }
  assert (∀ c q, Hard.keep_waiting ds (Hard.hand_out c (set_sub q p)) = (p', k) → False)
    as Hno.
  { intros c q. unfold Hard.hand_out. rewrite keep_waiting_settled by done.
    intros [= _ <-]. by destruct (Hk c). }
  destruct (timeout p) as [t|]; [case_bool_decide|];
    try destruct (Hard._queue p) as [|c q];
    try (by apply (Hsame _ (or_intror I)) in Hkw);
    by destruct (Hno _ _ Hkw).
Qed.

Lemma acquire_alone_frame r ds p p' k :
  Hard.acquire_alone r ds p = (p', k) →
  (∀ c, k ≠ Hard.Holding c) →
  active_channels p' = active_channels p ∧ Hard._queue p' = Hard._queue p.
Proof.
  unfold Hard.acquire_alone, Hard.get_start. intros Hrun Hk.
  destruct (bool_decide (Hard._queue p = [])) eqn:Hempty;
    [destruct (may_open p) eqn:Hopen|].
  - unfold Hard.answered in Hrun. cbn [fst snd] in Hrun.
    rewrite bool_decide_eq_true_2 in Hrun by done.
    unfold Hard.get_opened in Hrun.
    destruct r as [c|e].
    + rewrite resume_opened in Hrun. unfold Hard.hand_out in Hrun. simpl in Hrun.
      rewrite keep_waiting_settled in Hrun by done.
      inversion Hrun; subst. by destruct (Hk c).
    + destruct (decide (e = ChannelOpenError)) as [-> | Hother].
      * rewrite resume_refused in Hrun. cbv iota beta in Hrun.
        by rewrite (settle_wait_frame _ _ _ _ Hrun Hk).
      * rewrite resume_other_error in Hrun by done. simpl in Hrun.
        rewrite keep_waiting_settled in Hrun by done. by inversion Hrun.
  - rewrite not_opening_id in Hrun by apply wait_for_get_not_opening.
    by rewrite (settle_wait_frame _ _ _ _ Hrun Hk).
  - rewrite not_opening_id in Hrun by apply wait_for_get_not_opening.
    by rewrite (settle_wait_frame _ _ _ _ Hrun Hk).
Qed.

End HardAcquire.

(** ** The hard pool shared by several consumers *)

Section HardShared.

Implicit Types (p : Hard.hard) (s : Hard.sys) (ks : list Hard.consumer) (gs : list nat).

Lemma hard_run_app s tr1 tr2 :
  Hard.run s (tr1 ++ tr2)
  = match Hard.run s tr1 with
    | Some s1 => Hard.run s1 tr2
    | None => None
    end.
Proof.
  revert s. induction tr1 as [|ev tr1 IH]; intros s; simpl; [done|].
  destruct (Hard.step s ev); [apply IH | done].
Qed.

(** *** Waking the next getter *)

Lemma wakeup_length ks gs : length (Hard._wakeup_next ks gs).1 = length ks.
Proof.
  induction gs as [|i gs IH]; simpl; [done|].
  destruct (ks !! i) as [[]|]; simpl; try done. by rewrite length_insert.
Qed.

(** A wake-up changes one consumer at most, from [Waiting] to [Woken]. *)
Lemma wakeup_lookup ks gs j k :
  ks !! j = Some k →
  (Hard._wakeup_next ks gs).1 !! j = Some k
  ∨ ∃ w, k = Hard.Waiting w ∧ (Hard._wakeup_next ks gs).1 !! j = Some (Hard.Woken w).
Proof.
  intros Hj. induction gs as [|i gs IH]; simpl; [by left|].
  destruct (ks !! i) as [k0|] eqn:Hi; [|done].
  destruct k0; try done. simpl.
  destruct (decide (i = j)) as [-> | Hne].
  - right. exists waited. rewrite Hi in Hj. inversion Hj; subst.
    split; [done|]. apply list_lookup_insert_eq. by eapply lookup_lt_Some.
  - left. by rewrite list_lookup_insert_ne.
Qed.

Lemma wakeup_registered ks gs :
  Hard.registered ks gs →
  Hard.registered (Hard._wakeup_next ks gs).1 (Hard._wakeup_next ks gs).2.
Proof.
  induction gs as [|i gs IH]; intros (Hnd & Hin & Hall); simpl; [done|].
  apply NoDup_cons in Hnd as [Hi Hnd].
  destruct (Hin i) as (k & Hk & Hat); [by left|]. rewrite Hk.
  destruct k; try done; simpl.
  - (* the first getter is pending: it gets its result *)
    split; [done|]. split.
    + intros j Hj. destruct (Hin j) as (k & Hkj & Hatj); [by right|].
      exists k. split; [|done]. rewrite list_lookup_insert_ne; [done|].
      intros ->. done.
    + intros j w Hj. destruct (decide (i = j)) as [-> | Hne].
      * rewrite list_lookup_insert_eq in Hj by (by eapply lookup_lt_Some). done.
      * rewrite list_lookup_insert_ne in Hj by done.
        specialize (Hall j w Hj). apply elem_of_cons in Hall as [-> | ?]; done.
  - (* the first getter was cancelled: it is dropped *)
    apply IH. split; [done|]. split.
    + intros j Hj. apply Hin. by right.
    + intros j w Hj. specialize (Hall j w Hj).
      apply elem_of_cons in Hall as [-> | ?]; [|done].
      rewrite Hk in Hj. done.
Qed.

(** *** The getters stay in step with the consumers *)

Lemma registered_lt ks gs i : Hard.registered ks gs → i ∈ gs → (i < length ks)%nat.
Proof.
  intros (_ & Hin & _) Hi. destruct (Hin i Hi) as (k & Hk & _).
  by eapply lookup_lt_Some.
Qed.

Lemma registered_snoc ks gs k :
  Hard.registered ks gs →
  Hard.registered (ks ++ [k]) (Hard.park (length ks) k gs).
Proof.
  intros Hreg. pose proof Hreg as (Hnd & Hin & Hall).
  assert (length ks ∉ gs) as Hnew.
  { intros Hl. apply (registered_lt ks gs) in Hl; [lia | done]. }
  assert (∀ j, j ∈ gs → ∃ k0, (ks ++ [k]) !! j = Some k0 ∧ Hard.at_getter k0 = true)
    as Hin'.
  { intros j Hj. destruct (Hin j Hj) as (k0 & Hk0 & Hat). exists k0.
    split; [|done]. by apply lookup_app_l_Some. }
  assert (∀ j w, (ks ++ [k]) !! j = Some (Hard.Waiting w) →
                 j ∈ gs ∨ (j = length ks ∧ k = Hard.Waiting w)) as Hall'.
  { intros j w Hj. apply lookup_app_Some in Hj as [Hj | [Hge Hj]].
    - left. by apply (Hall j w).
    - right. destruct (j - length ks)%nat as [|n] eqn:Hn; [|done].
      simpl in Hj. inversion Hj. split; [lia | done]. }
  destruct k; simpl;
    try (split; [done|]; split; [done|]; intros j w Hj;
         by destruct (Hall' j w Hj) as [? | [_ ?]]).
  split; [|split].
  - apply NoDup_app. split; [done|]. split; [|apply NoDup_singleton].
    intros j Hj ->%list_elem_of_singleton. done.
  - intros j [Hj | ->%list_elem_of_singleton]%elem_of_app; [by apply Hin'|].
    exists (Hard.Waiting waited). split; [|done].
    by apply list_lookup_middle.
  - intros j w Hj. apply elem_of_app.
    destruct (Hall' j w Hj) as [? | [-> _]]; [by left | right].
    by apply list_elem_of_singleton.
Qed.

(** A consumer whose [Queue.get()] was not at its getter moves on. *)
Lemma registered_insert ks gs i k0 k :
  ks !! i = Some k0 → Hard.at_getter k0 = false →
  Hard.registered ks gs →
  Hard.registered (<[i := k]> ks) (Hard.park i k gs).
Proof.
  intros Hi Hk0 (Hnd & Hin & Hall).
  assert (i < length ks)%nat as Hlen by (by eapply lookup_lt_Some).
  assert (i ∉ gs) as Hnew.
  { intros Hgs. destruct (Hin i Hgs) as (k1 & Hk1 & Hat). rewrite Hi in Hk1.
    inversion Hk1; subst. by rewrite Hk0 in Hat. }
  assert (∀ j, j ∈ gs → ∃ k1, <[i := k]> ks !! j = Some k1 ∧ Hard.at_getter k1 = true)
    as Hin'.
  { intros j Hj. destruct (Hin j Hj) as (k1 & Hk1 & Hat). exists k1.
    split; [|done]. rewrite list_lookup_insert_ne; [done|]. by intros ->. }
  assert (∀ j w, <[i := k]> ks !! j = Some (Hard.Waiting w) →
                 j ∈ gs ∨ (j = i ∧ k = Hard.Waiting w)) as Hall'.
  { intros j w Hj. destruct (decide (i = j)) as [-> | Hne].
    - rewrite list_lookup_insert_eq in Hj by done. inversion Hj. by right.
    - rewrite list_lookup_insert_ne in Hj by done. left. by apply (Hall j w). }
  destruct k; simpl;
    try (split; [done|]; split; [done|]; intros j w Hj;
         by destruct (Hall' j w Hj) as [? | [_ ?]]).
  split; [|split].
  - apply NoDup_app. split; [done|]. split; [|apply NoDup_singleton].
    intros j Hj ->%list_elem_of_singleton. done.
  - intros j [Hj | ->%list_elem_of_singleton]%elem_of_app; [by apply Hin'|].
    exists (Hard.Waiting waited). split; [|done]. by apply list_lookup_insert_eq.
  - intros j w Hj. apply elem_of_app.
    destruct (Hall' j w Hj) as [? | [-> _]]; [by left | right].
    by apply list_elem_of_singleton.
Qed.

(** Time passes for a [Queue.get()] at its getter: the getter stays where
    it is, pending or cancelled. *)
Lemma registered_elapsed ks gs i w k :
  ks !! i = Some (Hard.Waiting w) →
  Hard.at_getter k = true →
  Hard.registered ks gs →
  Hard.registered (<[i := k]> ks) gs.
Proof.
  intros Hi Hk (Hnd & Hin & Hall).
  assert (i < length ks)%nat as Hlen by (by eapply lookup_lt_Some).
  split; [done|]. split.
  - intros j Hj. destruct (decide (i = j)) as [-> | Hne].
    + exists k. by rewrite list_lookup_insert_eq.
    + rewrite list_lookup_insert_ne by done. by apply Hin.
  - intros j w' Hj. destruct (decide (i = j)) as [-> | Hne].
    + by apply (Hall j w).
    + rewrite list_lookup_insert_ne in Hj by done. by apply (Hall j w').
Qed.

Lemma remove_getter_elem i j gs :
  NoDup gs → j ∈ Hard.remove_getter i gs ↔ j ∈ gs ∧ j ≠ i.
Proof.
  induction gs as [|g gs IH]; intros Hnd; simpl.
  - split; [by intros ?%elem_of_nil | by intros [?%elem_of_nil _]].
  - apply NoDup_cons in Hnd as [Hg Hnd]. case_bool_decide as Hgi.
    + subst g. rewrite elem_of_cons. split.
      * intros Hj. split; [by right|]. by intros ->.
      * by intros [[-> | ?] ?].
    + rewrite !elem_of_cons, (IH Hnd). split.
      * intros [-> | [? ?]]; [by split; [left|] | by split; [right|]].
      * intros [[-> | ?] ?]; [by left | by right].
Qed.

Lemma remove_getter_nodup i gs : NoDup gs → NoDup (Hard.remove_getter i gs).
Proof.
  induction gs as [|g gs IH]; intros Hnd; simpl; [done|].
  apply NoDup_cons in Hnd as [Hg Hnd]. case_bool_decide; [done|].
  apply NoDup_cons. split; [|by apply IH].
  rewrite (remove_getter_elem i g gs Hnd). by intros [? _].
Qed.

(** The cancelled [Queue.get()] takes its getter out. *)
Lemma registered_remove ks gs i k :
  ks !! i = Some (Hard.Cancelling Hard.AtGetter) →
  Hard.at_getter k = false →
  Hard.registered ks gs →
  Hard.registered (<[i := k]> ks) (Hard.remove_getter i gs).
Proof.
  intros Hi Hk (Hnd & Hin & Hall).
  split; [by apply remove_getter_nodup|]. split.
  - intros j [Hj Hne]%remove_getter_elem; [|done].
    rewrite list_lookup_insert_ne by done. by apply Hin.
  - intros j w Hj. destruct (decide (i = j)) as [-> | Hne].
    + rewrite list_lookup_insert_eq in Hj by (by eapply lookup_lt_Some).
      inversion Hj; subst. done.
    + rewrite list_lookup_insert_ne in Hj by done.
      apply remove_getter_elem; [done|]. split; [by apply (Hall j w) | done].
Qed.

Lemma hard_step_registered s ev s' :
  Hard.step s ev = Some s' →
  Hard.registered (Hard.consumers s) (Hard.getters s) →
  Hard.registered (Hard.consumers s') (Hard.getters s').
Proof.
  intros Hstep Hreg.
  destruct ev as [|i o|i|i|i d|i how]; simpl in Hstep.
  - inversion Hstep; subst; clear Hstep. simpl. by apply registered_snoc.
  - destruct (Hard.consumers s !! i) as [[]|] eqn:Hi; try done.
    inversion Hstep; subst; clear Hstep. simpl.
    by apply (registered_insert _ _ i Hard.Opening).
  - destruct (Hard.consumers s !! i) as [[| | |w| |at_| | | |]|] eqn:Hi; try done;
      inversion Hstep; subst; clear Hstep; simpl.
    + by apply (registered_insert _ _ i Hard.Starting).
    + by apply (registered_insert _ _ i (Hard.Woken w)).
    + unfold Hard.cancel_get. destruct at_; simpl.
      * by apply (registered_insert _ _ i (Hard.Cancelling Hard.BeforeStart)
                                    Hard.TimedOut).
      * by apply registered_remove.
      * pose proof (registered_insert _ _ i (Hard.Cancelling Hard.AfterWakeup)
                      Hard.TimedOut Hi eq_refl Hreg) as Hreg'.
        case_bool_decide; simpl; [done|]. by apply wakeup_registered.
  - destruct (Hard.consumers s !! i) as [[| | | |c| | | | |]|] eqn:Hi; try done;
      inversion Hstep; subst; clear Hstep; simpl.
    + by apply (registered_insert _ _ i (Hard.Taken c) (Hard.Holding c)).
    + by apply (registered_insert _ _ i Hard.TimedOut (Hard.Raised TimeoutError)).
  - destruct (Hard.consumers s !! i) as [[| |w|w| | | | | |]|] eqn:Hi; try done;
      inversion Hstep; subst; clear Hstep; simpl.
    + apply (registered_elapsed _ _ i w); [done | by case_match | done].
    + pose proof (registered_insert _ _ i (Hard.Woken w)
                    (if Hard.expired w d (Hard.the_pool s)
                     then Hard.Cancelling Hard.AfterWakeup else Hard.Woken (w + d))
                    Hi eq_refl Hreg) as Hreg'.
      by destruct (Hard.expired w d (Hard.the_pool s)).
  - destruct (Hard.consumers s !! i) as [[| | | | | | |c| |]|] eqn:Hi; try done.
    pose proof (registered_insert _ _ i (Hard.Holding c)
                  (Hard.get_exit how c (Hard.the_pool s)).2 Hi eq_refl Hreg) as Hreg'.
    destruct how as [|e]; inversion Hstep; subst; clear Hstep; simpl in *.
    + by apply wakeup_registered.
    + done.
Qed.

Lemma hard_run_registered tr s s' :
  Hard.run s tr = Some s' →
  Hard.registered (Hard.consumers s) (Hard.getters s) →
  Hard.registered (Hard.consumers s') (Hard.getters s').
Proof.
  revert s. induction tr as [|ev tr IH]; intros s; simpl.
  - by intros [= <-].
  - destruct (Hard.step s ev) as [s1|] eqn:Hstep; [|done].
    intros Hrun Hreg. apply (IH s1 Hrun). by apply (hard_step_registered s ev).
Qed.

Lemma hard_start_registered kwargs unsafe :
  Hard.registered (Hard.consumers (Hard.start kwargs unsafe))
                  (Hard.getters (Hard.start kwargs unsafe)).
Proof.
  split; [constructor|]. split; [by intros i ?%elem_of_nil | by intros i w ?].
Qed.

(** *** What a step does to the pool and to the consumers *)

Lemma queue_get_empty_handed w p :
  Hard.empty_handed (Hard.queue_get w p).2 = true → (Hard.queue_get w p).1 = p.
Proof.
  unfold Hard.queue_get. destruct (Hard._queue p); [done|].
  by destruct (timeout p).
Qed.

Lemma wait_for_get_empty_handed p :
  Hard.empty_handed (Hard.wait_for_get p).2 = true → (Hard.wait_for_get p).1 = p.
Proof.
  unfold Hard.wait_for_get. destruct (timeout p) as [t|] eqn:Ht.
  - by case_bool_decide.
  - apply queue_get_empty_handed.
Qed.

Lemma get_start_empty_handed p :
  Hard.empty_handed (Hard.get_start p).2 = true → (Hard.get_start p).1 = p.
Proof.
  unfold Hard.get_start.
  case_bool_decide; [destruct (may_open p)|]; try done;
    apply wait_for_get_empty_handed.
Qed.

Lemma get_opened_empty_handed r p :
  Hard.empty_handed (Hard.get_opened r p).2 = true →
  active_channels (Hard.get_opened r p).1 = active_channels p
  ∧ Hard._queue (Hard.get_opened r p).1 = Hard._queue p.
Proof.
  unfold Hard.get_opened. destruct r as [c|e]; [done|].
  destruct (decide (e = ChannelOpenError)) as [-> | Hother].
  - rewrite resume_refused. cbv iota beta. intros Hk.
    by rewrite (wait_for_get_empty_handed _ Hk).
  - by rewrite resume_other_error.
Qed.

(** One step: the consumer it belongs to ends in some state; any other
    consumer stays as it is, unless it is woken at its getter; a step that
    leaves its consumer empty-handed leaves the active count and the free
    queue alone; and a consumer that has had a channel never stands
    empty-handed again. *)
Lemma hard_step_shape s ev s' :
  Hard.step s ev = Some s' →
  ∃ k',
    Hard.consumers s' !! Hard.actor s ev = Some k'
    ∧ (∀ j k, j ≠ Hard.actor s ev → Hard.consumers s !! j = Some k →
         Hard.consumers s' !! j = Some k
         ∨ ∃ w, k = Hard.Waiting w ∧ Hard.consumers s' !! j = Some (Hard.Woken w))
    ∧ (Hard.empty_handed k' = true →
       active_channels (Hard.the_pool s') = active_channels (Hard.the_pool s)
       ∧ Hard._queue (Hard.the_pool s') = Hard._queue (Hard.the_pool s))
    ∧ (∀ k, Hard.consumers s !! Hard.actor s ev = Some k →
         Hard.empty_handed k = false → Hard.empty_handed k' = false).
Proof.
  assert (∀ ks i k gs, (i < length ks)%nat → (∀ w, k ≠ Hard.Waiting w) →
            (Hard._wakeup_next (<[i := k]> ks) gs).1 !! i = Some k) as Hself.
  { intros ks i k gs Hlen Hk.
    destruct (wakeup_lookup (<[i := k]> ks) gs i k) as [? | (w & -> & _)]; try done.
    - by apply list_lookup_insert_eq.
    - by destruct (Hk w). }
  assert (∀ ks i k gs j k0, j ≠ i → ks !! j = Some k0 →
            (Hard._wakeup_next (<[i := k]> ks) gs).1 !! j = Some k0
            ∨ ∃ w, k0 = Hard.Waiting w
                   ∧ (Hard._wakeup_next (<[i := k]> ks) gs).1 !! j = Some (Hard.Woken w))
    as Hothers.
  { intros ks i k gs j k0 Hne Hj. apply wakeup_lookup.
    by rewrite list_lookup_insert_ne. }
  destruct ev as [|i o|i|i|i d|i how]; simpl; intros Hstep.
  - (* a get() begins *)
    inversion Hstep; subst; clear Hstep. simpl.
    exists (Hard.get_start (Hard.the_pool s)).2. split; [by apply list_lookup_middle|].
    split; [|split].
    + intros j k Hne Hj. left. by apply lookup_app_l_Some.
    + intros Hk. by rewrite (get_start_empty_handed _ Hk).
    + intros k Hk. apply lookup_lt_Some in Hk. lia.
  - (* a pending open ends *)
    destruct (Hard.consumers s !! i) as [[]|] eqn:Hi; try done.
    inversion Hstep; subst; clear Hstep. simpl.
    assert (i < length (Hard.consumers s))%nat as Hlen by (by eapply lookup_lt_Some).
    eexists. split; [by apply list_lookup_insert_eq|]. split; [|split].
    + intros j k Hne Hj. left. by rewrite list_lookup_insert_ne.
    + apply get_opened_empty_handed.
    + by intros k [= <-].
  - (* Queue.get() runs *)
    destruct (Hard.consumers s !! i) as [[| | |w| |at_| | | |]|] eqn:Hi; try done;
      inversion Hstep; subst; clear Hstep; simpl;
      assert (i < length (Hard.consumers s))%nat as Hlen by (by eapply lookup_lt_Some).
    + eexists. split; [by apply list_lookup_insert_eq|]. split; [|split].
      * intros j k Hne Hj. left. by rewrite list_lookup_insert_ne.
      * intros Hk. by rewrite (queue_get_empty_handed _ _ Hk).
      * by intros k [= <-].
    + eexists. split; [by apply list_lookup_insert_eq|]. split; [|split].
      * intros j k Hne Hj. left. by rewrite list_lookup_insert_ne.
      * intros Hk. by rewrite (queue_get_empty_handed _ _ Hk).
      * by intros k [= <-].
    + exists Hard.TimedOut. unfold Hard.cancel_get.
      destruct at_; [| |case_bool_decide]; simpl;
        (split; [first [by apply list_lookup_insert_eq | by apply Hself]|]);
        (split; [|split; [done | by intros k [= <-]]]);
        intros j k Hne Hj;
        first [by apply Hothers | left; by rewrite list_lookup_insert_ne].
  - (* wait_for resumes *)
    destruct (Hard.consumers s !! i) as [[| | | |c| | | | |]|] eqn:Hi; try done;
      inversion Hstep; subst; clear Hstep; simpl;
      assert (i < length (Hard.consumers s))%nat as Hlen by (by eapply lookup_lt_Some).
    + exists (Hard.Holding c). split; [by apply list_lookup_insert_eq|].
      split; [|split; [done | by intros k [= <-]]].
      intros j k Hne Hj. left. by rewrite list_lookup_insert_ne.
    + exists (Hard.Raised TimeoutError). split; [by apply list_lookup_insert_eq|].
      split; [|split; [done | by intros k [= <-]]].
      intros j k Hne Hj. left. by rewrite list_lookup_insert_ne.
  - (* time passes *)
    destruct (Hard.consumers s !! i) as [[| |w|w| | | | | |]|] eqn:Hi; try done;
      inversion Hstep; subst; clear Hstep; simpl;
      assert (i < length (Hard.consumers s))%nat as Hlen by (by eapply lookup_lt_Some);
      (eexists; split; [by apply list_lookup_insert_eq|]);
      (split; [|split; [done | by intros k [= <-]]]);
      intros j k Hne Hj; left; by rewrite list_lookup_insert_ne.
  - (* a scope is left *)
    destruct (Hard.consumers s !! i) as [[| | | | | | |c| |]|] eqn:Hi; try done.
    assert (i < length (Hard.consumers s))%nat as Hlen by (by eapply lookup_lt_Some).
    destruct how as [|e]; inversion Hstep; subst; clear Hstep; simpl.
    + exists Hard.Returned. split; [by apply Hself|].
      split; [|split; [done | by intros k [= <-]]].
      intros j k Hne Hj. by apply Hothers.
    + exists (Hard.Raised e). split; [by apply list_lookup_insert_eq|].
      split; [|split; [done | by intros k [= <-]]].
      intros j k Hne Hj. left. by rewrite list_lookup_insert_ne.
Qed.

Lemma handed_stays tr s s' i k :
  Hard.run s tr = Some s' →
  Hard.consumers s !! i = Some k → Hard.empty_handed k = false →
  ∃ k', Hard.consumers s' !! i = Some k' ∧ Hard.empty_handed k' = false.
Proof.
  revert s k. induction tr as [|ev tr IH]; intros s k; simpl.
  - intros [= <-] Hi Hk. by exists k.
  - destruct (Hard.step s ev) as [s1|] eqn:Hstep; [|done].
    intros Hrun Hi Hk.
    destruct (hard_step_shape s ev s1 Hstep) as (k1 & Hactor & Hothers & _ & Hkeeps).
    destruct (decide (i = Hard.actor s ev)) as [-> | Hne].
    + apply (IH s1 k1 Hrun Hactor). by apply (Hkeeps k).
    + destruct (Hothers i k Hne Hi) as [Hsame | (w & -> & _)]; [|done].
      by apply (IH s1 k Hrun Hsame).
Qed.

(** A consumer that stands empty-handed has changed neither the active
    count nor the free queue by any of its steps. *)
Lemma hard_untouched_run tr s s' i k :
  Hard.run s tr = Some s' →
  Hard.consumers s' !! i = Some k → Hard.empty_handed k = true →
  Hard.untouched_by i s tr.
Proof.
  revert s. induction tr as [|ev tr IH]; intros s; simpl; [done|].
  destruct (Hard.step s ev) as [s1|] eqn:Hstep; [|done].
  intros Hrun Hi Hk. split; [|by apply IH].
  intros Hactor.
  destruct (hard_step_shape s ev s1 Hstep) as (k1 & Hk1 & _ & Hframe & _).
  apply Hframe. rewrite Hactor in Hk1.
  destruct (Hard.empty_handed k1) eqn:Hhanded; [done|].
  destruct (handed_stays tr s1 s' i k1 Hrun Hk1 Hhanded) as (k' & Hk' & Hno).
  rewrite Hi in Hk'. inversion Hk'; subst. by rewrite Hk in Hno.
Qed.

Lemma untouched_by_app i s tr1 tr2 s1 :
  Hard.run s tr1 = Some s1 →
  Hard.untouched_by i s tr1 → Hard.untouched_by i s1 tr2 →
  Hard.untouched_by i s (tr1 ++ tr2).
Proof.
  revert s. induction tr1 as [|ev tr1 IH]; intros s; simpl.
  - by intros [= <-].
  - destruct (Hard.step s ev) as [s0|] eqn:Hstep; [|done].
    intros Hrun [Hfirst Hrest] Hlast. split; [done|]. by apply IH.
Qed.

(** *** An acquisition alone is a run of the shared pool *)

Lemma get_elapsed_expired w d p :
  Hard.get_elapsed w d p
  = (p, if Hard.expired w d p then Hard.Raised TimeoutError else Hard.Waiting (w + d)).
Proof.
  unfold Hard.get_elapsed, Hard.expired. destruct (timeout p); [|done].
  by case_bool_decide.
Qed.

Lemma hard_waiting_alone_run ds w p n :
  ∃ gs,
    Hard.run (Hard.Sys p n [Hard.Waiting w] [0%nat]) (Hard.waiting_alone ds w p)
    = Some (Hard.Sys p n [(Hard.keep_waiting ds (p, Hard.Waiting w)).2] gs)
    ∧ (Hard.keep_waiting ds (p, Hard.Waiting w)).1 = p.
Proof.
  revert w. induction ds as [|d ds IH]; intros w; simpl; [by exists [0%nat]|].
  rewrite get_elapsed_expired. destruct (Hard.expired w d p) eqn:Hexp; simpl.
  - exists []. by rewrite keep_waiting_settled.
  - apply IH.
Qed.

Lemma hard_settling_alone_run ds pc n :
  pc.2 ≠ Hard.Opening →
  (∀ c, pc.2 ≠ Hard.Taken c) → (∀ w, pc.2 ≠ Hard.Woken w) → pc.2 ≠ Hard.TimedOut →
  (∀ w, pc.2 = Hard.Waiting w → w = 0) →
  (pc.2 = Hard.Starting → ∃ t, timeout pc.1 = Some t) →
  ∃ gs,
    Hard.run (Hard.Sys pc.1 n [pc.2] (Hard.park 0 pc.2 []))
             (Hard.settling_alone ds pc)
    = Some (Hard.Sys (Hard.keep_waiting ds (Hard.settle pc)).1 n
                     [(Hard.keep_waiting ds (Hard.settle pc)).2] gs).
Proof.
  destruct pc as [p k]. cbn [fst snd].
  intros Hopening Htaken Hwoken Htimed Hzero Hbound.
  destruct k as [| |waited|waited|c|at_| |c| |e]; try done;
    [| |by destruct (Hwoken waited)|by destruct (Htaken c)| | | |].
  - (* the task has not run *)
    destruct (Hbound eq_refl) as (t & Ht).
    unfold Hard.settling_alone, Hard.settle, Hard.queue_get. rewrite Ht.
    destruct (Hard._queue p) as [|c q] eqn:Hq.
    + destruct (hard_waiting_alone_run ds 0 p n) as (gs & Hrun & Hpool).
      exists gs. rewrite Hpool.
      cbn [Hard.run Hard.step Hard.consumers lookup list_lookup].
      unfold Hard.update, Hard.queue_get. cbn [Hard.the_pool]. rewrite Hq.
      exact Hrun.
    + exists []. unfold Hard.hand_out. rewrite keep_waiting_settled by done.
      cbn [Hard.run Hard.step Hard.consumers lookup list_lookup].
      unfold Hard.update, Hard.queue_get. cbn [Hard.the_pool]. rewrite Hq, Ht.
      reflexivity.
  - (* Queue.get() waits *)
    rewrite (Hzero waited eq_refl).
    destruct (hard_waiting_alone_run ds 0 p n) as (gs & Hrun & Hpool).
    exists gs. unfold Hard.settling_alone, Hard.settle. cbn [Hard.park app].
    by rewrite Hrun, Hpool.
  - (* cancelled before its start, or later *)
    unfold Hard.settle. rewrite keep_waiting_settled by done.
    unfold Hard.settling_alone.
    cbn [Hard.run Hard.step Hard.consumers lookup list_lookup Hard.park].
    unfold Hard.cancel_get.
    destruct at_; cbn; try (by exists []).
    case_bool_decide; by exists [].
  - exists []. unfold Hard.settle. by rewrite keep_waiting_settled.
  - exists []. unfold Hard.settle. by rewrite keep_waiting_settled.
  - exists []. unfold Hard.settle. by rewrite keep_waiting_settled.
Qed.

Lemma wait_for_get_fresh p :
  (Hard.wait_for_get p).2 ≠ Hard.Opening
  ∧ (∀ c, (Hard.wait_for_get p).2 ≠ Hard.Taken c)
  ∧ (∀ w, (Hard.wait_for_get p).2 ≠ Hard.Woken w)
  ∧ (Hard.wait_for_get p).2 ≠ Hard.TimedOut
  ∧ (∀ w, (Hard.wait_for_get p).2 = Hard.Waiting w → w = 0)
  ∧ ((Hard.wait_for_get p).2 = Hard.Starting → ∃ t, timeout (Hard.wait_for_get p).1 = Some t).
Proof.
  unfold Hard.wait_for_get, Hard.queue_get.
  destruct (timeout p) as [t|] eqn:Ht; [case_bool_decide; repeat split; try done|].
  - intros _. by exists t.
  - destruct (Hard._queue p); repeat split; try done. by intros w [= <-].
Qed.

(** [acquire_alone] is what the shared pool does when one consumer is
    alone with it: the events of [alone], run from a pool that nobody
    uses, lead to the pool and to the state of the consumer that
    [acquire_alone] gives. *)
Lemma hard_alone_is_a_run (p : Hard.hard) (n : nat) (o : Hard.open_outcome) (ds : list Z) :
  ∃ n' gs,
    Hard.run (Hard.Sys p n [] []) (Hard.alone o ds (Hard.Sys p n [] []))
    = Some (Hard.Sys (Hard.acquire_alone (Hard.to_result n o) ds p).1 n'
                     [(Hard.acquire_alone (Hard.to_result n o) ds p).2] gs).
Proof.
  unfold Hard.alone, Hard.acquire_alone, Hard.answered.
  cbn [Hard.the_pool Hard.client Hard.run Hard.step Hard.consumers Hard.getters app length].
  case_bool_decide as Hk1.
  - (* a creation attempt *)
    assert ((Hard.get_start p).1 = p) as Hp1.
    { apply get_start_empty_handed. by rewrite Hk1. }
    rewrite Hk1, Hp1.
    cbn [Hard.park Hard.run Hard.step Hard.consumers lookup list_lookup Hard.the_pool
         Hard.client Hard.getters].
    unfold Hard.get_opened.
    destruct o as [|e]; cbn [Hard.to_result Hard.next_client].
    + rewrite resume_opened. cbv iota beta. unfold Hard.hand_out.
      cbn [fst snd Hard.settle Hard.settling_alone Hard.run Hard.park list_insert insert].
      exists (S n), []. by rewrite keep_waiting_settled.
    + destruct (decide (e = ChannelOpenError)) as [-> | Hother].
      * rewrite resume_refused. cbv iota beta.
        set (p2 := set_max_channels (Some (active_channels p)) p).
        destruct (wait_for_get_fresh p2) as (H1 & H2 & H3 & H4 & H5 & H6).
        destruct (hard_settling_alone_run ds (Hard.wait_for_get p2) n H1 H2 H3 H4 H5 H6)
          as (gs & Hrun).
        exists n, gs. rewrite <- Hrun. reflexivity.
      * rewrite resume_other_error by done.
        cbn [fst snd Hard.settle Hard.settling_alone Hard.run Hard.park list_insert insert].
        exists n, []. by rewrite keep_waiting_settled.
  - (* no creation attempt *)
    assert (Hard.get_start p = Hard.wait_for_get p) as Hwait.
    { unfold Hard.get_start in *.
      destruct (bool_decide (Hard._queue p = []));
        [destruct (may_open p)|]; done. }
    rewrite Hwait.
    destruct (wait_for_get_fresh p) as (H1 & H2 & H3 & H4 & H5 & H6).
    destruct (hard_settling_alone_run ds (Hard.wait_for_get p) n H1 H2 H3 H4 H5 H6)
      as (gs & Hrun).
    exists n, gs. rewrite <- Hrun. by destruct (Hard.wait_for_get p).
Qed.

End HardShared.

(** C6.  An acquisition of the hard pool that gets no channel within the
    bound ends in [TimeoutError], an exception of its own kind.  Alone with
    the pool: with the free queue empty, creation ruled out by the capacity
    or refused by the remote side, and a bound [t] configured, the wait
    raises [TimeoutError] once [t] seconds have gone by, and under a bound
    that is not positive it does so at once; whenever an acquisition ends
    in that error, the active count and the free queue are what they were
    when it began.  In the pool shared by any number of consumers: when the
    cancelled task of consumer [i] has ended, [wait_for] resumes with
    [TimeoutError]; by then no step of [i], from its [get()] on, has
    changed the active count or the free queue, and [i] has no getter left
    in the queue. *)
Theorem hard_timeout_leaves_pool_untouched :
  (∀ (p p' : Hard.hard) (r : open_result) (ds : list Z),
     Hard.acquire_alone r ds p = (p', Hard.Raised TimeoutError) →
     active_channels p' = active_channels p ∧ Hard._queue p' = Hard._queue p)
  ∧ (∀ (p : Hard.hard) (r : open_result) (ds : list Z) (t : Z),
       timeout p = Some t → Hard._queue p = [] →
       may_open p = false ∨ r = OpenRaised ChannelOpenError →
       (ds ≠ [] ∧ t ≤ foldr Z.add 0 ds) ∨ t ≤ 0 →
       (Hard.acquire_alone r ds p).2 = Hard.Raised TimeoutError)
  ∧ (∀ (kwargs : list (string * option Z)) (unsafe : option bool)
       (tr : list Hard.event) (s : Hard.sys) (i : nat),
       Hard.run (Hard.start kwargs unsafe) tr = Some s →
       Hard.consumers s !! i = Some Hard.TimedOut →
       ∃ s', Hard.step s (Hard.Ready i) = Some s'
             ∧ Hard.consumers s' !! i = Some (Hard.Raised TimeoutError)
             ∧ Hard.the_pool s' = Hard.the_pool s
             ∧ (i ∉ Hard.getters s')
             ∧ Hard.untouched_by i (Hard.start kwargs unsafe) (tr ++ [Hard.Ready i])).
Proof.
  split; [|split].
  - intros p p' r ds Hrun. by apply (acquire_alone_frame r ds p p' _ Hrun).
  - intros p r ds t Ht Hq Hno Hlate.
    assert (∀ p0, timeout p0 = Some t → Hard._queue p0 = [] →
                  (Hard.keep_waiting ds (Hard.settle (Hard.wait_for_get p0))).2
                  = Hard.Raised TimeoutError) as Hwait.
    { intros p0 Ht0 Hq0. rewrite settle_wait_for_get, Ht0, Hq0.
      case_bool_decide as Hpos; [by rewrite keep_waiting_settled|].
      destruct Hlate as [[Hne Hsum] | ?]; [|lia].
      by rewrite (keep_waiting_times_out ds _ t 0). }
    unfold Hard.acquire_alone, Hard.get_start.
    rewrite bool_decide_eq_true_2 by done.
    destruct (may_open p) eqn:Hopen.
    + destruct Hno as [? | ->]; [done|]. unfold Hard.answered.
      rewrite bool_decide_eq_true_2 by done. cbn [fst snd].
      unfold Hard.get_opened. rewrite resume_refused. cbv iota beta.
      by apply Hwait.
    + rewrite not_opening_id by apply wait_for_get_not_opening. by apply Hwait.
  - intros kwargs unsafe tr s i Hrun Hi.
    assert (i < length (Hard.consumers s))%nat as Hlen by (by eapply lookup_lt_Some).
    pose proof (hard_run_registered tr _ s Hrun (hard_start_registered kwargs unsafe))
      as (_ & Hin & _).
    eexists. split; [simpl; by rewrite Hi|]. simpl.
    split; [by apply list_lookup_insert_eq|]. split; [done|]. split.
    + intros Hgs. destruct (Hin i Hgs) as (k & Hk & Hat).
      rewrite Hi in Hk. by inversion Hk; subst.
    + apply (untouched_by_app i _ tr [Hard.Ready i] s Hrun).
      * by apply (hard_untouched_run tr _ s i Hard.TimedOut).
      * simpl. by rewrite Hi.
Qed.

Lemma hard_timeout_leaves_pool_untouched_witness :
  (* capacity 1 reached, nothing free, a bound of 5 seconds, 2 + 3 seconds go by *)
  let p : Hard.hard := Pool (Some 1) 1 (Some 5) true [0%nat] [] in
  Hard.acquire_alone (Opened 9%nat) [2; 3] p = (p, Hard.Raised TimeoutError)
  ∧ (Hard.acquire_alone (Opened 9%nat) [2; 3] p).2 = Hard.Raised TimeoutError
  ∧ active_channels p = 1
  (* the same among others: consumer 1 waits behind consumer 0, is timed out
     and has left no getter behind *)
  ∧ (1%nat ∉ Hard.getters
               (Hard.Sys (Pool (Some 1) 1 (Some 5) true [0%nat] []) 1
                         [Hard.Holding 0%nat; Hard.Raised TimeoutError] [])).
Proof.
  intros p.
  destruct hard_timeout_leaves_pool_untouched as (Hframe & Hraise & Hshared).
  split; [reflexivity|]. split; [|split].
  - apply (Hraise p (Opened 9%nat) [2; 3] 5 eq_refl eq_refl (or_introl eq_refl)).
    left. split; [discriminate | simpl; lia].
  - destruct (Hframe p p (Opened 9%nat) [2; 3] eq_refl) as [Hactive _].
    reflexivity.
  - destruct (Hshared [("max_channels", Some 1); ("timeout", Some 5)] None
                [Hard.Begin; Hard.OpenDone 0 Hard.OpenOk; Hard.Begin; Hard.Run 1;
                 Hard.Elapsed 1 5; Hard.Run 1]
                (Hard.Sys (Pool (Some 1) 1 (Some 5) true [0%nat] []) 1
                          [Hard.Holding 0%nat; Hard.TimedOut] [])
                1%nat eq_refl eq_refl) as (s' & Hstep & _ & _ & Hgone & _).
    simpl in Hstep. inversion Hstep; subst. exact Hgone.
Defined.

(** C8 as stated fails in its second part: with a channel free, an
    acquisition does not always take it.  Under a timeout that is not
    positive [asyncio.wait_for] cancels [Queue.get()] before it has run and
    raises [TimeoutError], whatever the queue holds.  Here the pool has the
    timeout 0 and channel 0 free; the acquisition ends in [TimeoutError]
    and the channel stays in the queue. *)
Lemma free_channel_is_not_taken_at_timeout_zero :
  ¬ (∀ (p : Hard.hard) (c : channel) (q : list channel) (r : open_result) (ds : list Z),
       Hard._queue p = c :: q →
       (Hard.acquire_alone r ds p).2 = Hard.Holding c).
Proof.
  intros Hclaim.
  specialize (Hclaim (Pool None 0 (Some 0) true [0%nat] [0%nat]) 0%nat []
                     (Opened 1%nat) [] eq_refl).
  vm_compute in Hclaim. discriminate.
Qed.

Lemma release_many_queue cs (p : Hard.hard) :
  Hard._queue (Hard.release_many cs p) = Hard._queue p ++ cs.
Proof.
  revert p. induction cs as [|c cs IH]; intros p; simpl.
  - by rewrite app_nil_r.
  - rewrite IH. simpl. by rewrite <- app_assoc.
Qed.

Lemma release_many_bound cs (p : Hard.hard) :
  Hard.unbounded_or_positive p → Hard.unbounded_or_positive (Hard.release_many cs p).
Proof.
  revert p. induction cs as [|c cs IH]; intros p Hp; simpl; [done|].
  apply IH. exact Hp.
Qed.

(** With a channel free, an acquisition alone takes the head of the queue
    and makes no creation attempt, under a timeout that lets [Queue.get()]
    run. *)
Lemma acquire_alone_takes_head r ds (p : Hard.hard) c q :
  Hard.unbounded_or_positive p → Hard._queue p = c :: q →
  Hard.acquire_alone r ds p
  = (set_active_channels (active_channels p + 1) (set_sub q p), Hard.Holding c).
Proof.
  intros Hbound Hq. unfold Hard.acquire_alone, Hard.get_start.
  rewrite bool_decide_eq_false_2 by (by rewrite Hq).
  rewrite not_opening_id by apply wait_for_get_not_opening.
  rewrite (settle_wait_nonempty p c q Hbound Hq). unfold Hard.hand_out.
  by rewrite keep_waiting_settled.
Qed.

Lemma get_many_drains r ds q (p : Hard.hard) :
  Hard.unbounded_or_positive p → Hard._queue p = q →
  (Hard.get_many r ds (length q) p).2 = Hard.Holding <$> q
  ∧ Hard._queue (Hard.get_many r ds (length q) p).1 = [].
Proof.
  revert p. induction q as [|c q IH]; intros p Hbound Hq; simpl; [done|].
  rewrite (acquire_alone_takes_head r ds p c q Hbound Hq). simpl.
  destruct (IH (set_active_channels (active_channels p + 1) (set_sub q p)))
    as [-> ->]; done.
Qed.

(** C8, amended.  An acquisition of the hard pool calls for a new channel
    only when the free queue is empty.  With a channel free it makes no
    creation attempt and goes to [wait_for]: under the timeout [None] it
    takes the head of the queue in the same piece; under a positive
    timeout [Queue.get()] runs in a task, which takes whatever is the head
    of the queue when it runs, and alone with the pool that is the head
    the acquisition found; under a timeout that is not positive it takes
    nothing and raises [TimeoutError], leaving the pool as it is.  A scope
    left normally puts its channel at the tail; so channels released in
    some order are handed out again in that order, after those already
    free. *)
Theorem hard_creates_only_when_empty_and_is_fifo :
  (∀ p : Hard.hard,
     (Hard.get_start p).2 = Hard.Opening → Hard._queue p = [] ∧ may_open p = true)
  ∧ (∀ (p : Hard.hard) (c : channel) (q : list channel),
       Hard._queue p = c :: q →
       Hard.get_start p = Hard.wait_for_get p
       ∧ (timeout p = None →
          Hard.get_start p
          = (set_active_channels (active_channels p + 1) (set_sub q p), Hard.Holding c))
       ∧ (∀ t, timeout p = Some t → 0 < t →
            Hard.get_start p = (p, Hard.Starting)
            ∧ Hard.queue_get 0 p = (set_sub q p, Hard.Taken c)
            ∧ Hard.hand_out c (set_sub q p)
              = (set_active_channels (active_channels p + 1) (set_sub q p),
                 Hard.Holding c))
       ∧ (Hard.unbounded_or_positive p →
          ∀ r ds, Hard.acquire_alone r ds p
                  = (set_active_channels (active_channels p + 1) (set_sub q p),
                     Hard.Holding c))
       ∧ (∀ t, timeout p = Some t → t ≤ 0 →
            ∀ r ds, Hard.acquire_alone r ds p = (p, Hard.Raised TimeoutError)))
  ∧ (∀ (s s' : Hard.sys),
       Hard.step s Hard.Begin = Some s' →
       Hard.consumers s' !! length (Hard.consumers s) = Some Hard.Opening →
       Hard._queue (Hard.the_pool s) = [])
  ∧ (∀ (p : Hard.hard) (c : channel),
       Hard._queue (Hard.get_exit Normal c p).1 = Hard._queue p ++ [c])
  ∧ (∀ (p : Hard.hard) (cs : list channel) (r : open_result) (ds : list Z),
       Hard.unbounded_or_positive p →
       (Hard.get_many r ds (length (Hard._queue p ++ cs)) (Hard.release_many cs p)).2
       = Hard.Holding <$> (Hard._queue p ++ cs)).
Proof.
  assert (∀ p : Hard.hard,
            (Hard.get_start p).2 = Hard.Opening → Hard._queue p = [] ∧ may_open p = true)
    as Honly.
  { intros p. unfold Hard.get_start.
    case_bool_decide as Hq; [destruct (may_open p) eqn:Hopen|]; try done;
      intros Hk; by destruct (wait_for_get_not_opening p). }
  split; [done|]. split; [|split; [|split]].
  - intros p c q Hq.
    assert (Hard.get_start p = Hard.wait_for_get p) as Hstart.
    { unfold Hard.get_start. by rewrite bool_decide_eq_false_2 by (by rewrite Hq). }
    split; [done|]. split; [|split; [|split]].
    + intros Hnone. rewrite Hstart, (wait_for_get_unbounded p Hnone).
      unfold Hard.queue_get. by rewrite Hq, Hnone.
    + intros t Ht Hpos. rewrite Hstart, (wait_for_get_positive p t Ht Hpos).
      unfold Hard.queue_get. by rewrite Hq, Ht.
    + intros Hbound r ds. by apply acquire_alone_takes_head.
    + intros t Ht Hle r ds. unfold Hard.acquire_alone. rewrite Hstart.
      rewrite not_opening_id by apply wait_for_get_not_opening.
      rewrite (settle_wait_nonpositive p t Ht Hle).
      by rewrite keep_waiting_settled.
  - intros s s' [= <-]. simpl. rewrite list_lookup_middle by done.
    intros [= Hk]. by apply Honly.
  - done.
  - intros p cs r ds Hbound. apply get_many_drains.
    + by apply release_many_bound.
    + apply release_many_queue.
Qed.

Lemma hard_creates_only_when_empty_and_is_fifo_witness :
  let p : Hard.hard := Pool None 0 None true [1%nat; 0%nat] [0%nat; 1%nat] in
  Hard.get_start p = (Pool None 1 None true [1%nat; 0%nat] [1%nat], Hard.Holding 0%nat)
  ∧ Hard._queue (Pool None 0 None true [0%nat] []) = []
  ∧ Hard.acquire_alone (Opened 2%nat) []
      (Pool None 0 (Some 10800) true [1%nat; 0%nat] [0%nat; 1%nat])
    = (Pool None 1 (Some 10800) true [1%nat; 0%nat] [1%nat], Hard.Holding 0%nat).
Proof.
  intros p.
  destruct hard_creates_only_when_empty_and_is_fifo as (Honly & Htake & _).
  split; [|split].
  - destruct (Htake p 0%nat [1%nat] eq_refl) as (_ & Hnone & _).
    apply Hnone. reflexivity.
  - apply (Honly (Pool None 0 None true [0%nat] [])). reflexivity.
  - destruct (Htake (Pool None 0 (Some 10800) true [1%nat; 0%nat] [0%nat; 1%nat])
                    0%nat [1%nat] eq_refl) as (_ & _ & _ & Halone & _).
    apply Halone. right. exists 10800. split; [reflexivity | lia].
Defined.

(** ** The timeout a pool is built with *)

(** No piece of [get()] writes the timeout or the termination policy. *)
Lemma hard_queue_get_config w (p : Hard.hard) :
  timeout (Hard.queue_get w p).1 = timeout p
  ∧ unsafe_terminate (Hard.queue_get w p).1 = unsafe_terminate p.
Proof.
  destruct p as [m a t u st q]. unfold Hard.queue_get, Hard._queue. simpl.
  destruct q; [done|]. by destruct t.
Qed.

Lemma hard_wait_for_get_config (p : Hard.hard) :
  timeout (Hard.wait_for_get p).1 = timeout p
  ∧ unsafe_terminate (Hard.wait_for_get p).1 = unsafe_terminate p.
Proof.
  unfold Hard.wait_for_get. destruct (timeout p) as [t|] eqn:Ht.
  - rewrite <- Ht. by case_bool_decide.
  - rewrite <- Ht. apply hard_queue_get_config.
Qed.

Lemma hard_step_config s ev s' :
  Hard.step s ev = Some s' →
  timeout (Hard.the_pool s') = timeout (Hard.the_pool s)
  ∧ unsafe_terminate (Hard.the_pool s') = unsafe_terminate (Hard.the_pool s).
Proof.
  destruct ev as [|i o|i|i|i d|i how]; simpl.
  - intros [= <-]. simpl. unfold Hard.get_start.
    case_bool_decide; [destruct (may_open _)|]; try done;
      apply hard_wait_for_get_config.
  - destruct (Hard.consumers s !! i) as [[]|]; try done.
    intros [= <-]. simpl. unfold Hard.get_opened.
    destruct o as [|e]; simpl; [done|].
    destruct e; simpl; try done.
    apply (hard_wait_for_get_config
             (set_max_channels (Some (active_channels (Hard.the_pool s)))
                               (Hard.the_pool s))).
  - destruct (Hard.consumers s !! i) as [[| | |w| |at_| | | |]|]; try done;
      intros [= <-]; simpl; try apply hard_queue_get_config.
    unfold Hard.cancel_get. destruct at_; try done. by case_bool_decide.
  - destruct (Hard.consumers s !! i) as [[| | | |c| | | | |]|]; try done;
      by intros [= <-].
  - destruct (Hard.consumers s !! i) as [[| |w|w| | | | | |]|]; try done;
      by intros [= <-].
  - destruct (Hard.consumers s !! i) as [[| | | | | | |c| |]|]; try done.
    destruct how; by intros [= <-].
Qed.

Lemma hard_step_timeout s ev s' :
  Hard.step s ev = Some s' → timeout (Hard.the_pool s') = timeout (Hard.the_pool s).
Proof. intros Hstep. by destruct (hard_step_config s ev s' Hstep). Qed.

Lemma hard_run_timeout tr s s' :
  Hard.run s tr = Some s' → timeout (Hard.the_pool s') = timeout (Hard.the_pool s).
Proof.
  revert s. induction tr as [|ev tr IH]; intros s; simpl.
  - by intros [= <-].
  - destruct (Hard.step s ev) as [s1|] eqn:Hstep; [|done].
    intros Hrun. rewrite (IH _ Hrun). by apply (hard_step_timeout s ev).
Qed.

Lemma hard_run_policy tr s s' :
  Hard.run s tr = Some s' →
  unsafe_terminate (Hard.the_pool s') = unsafe_terminate (Hard.the_pool s).
Proof.
  revert s. induction tr as [|ev tr IH]; intros s; simpl.
  - by intros [= <-].
  - destruct (Hard.step s ev) as [s1|] eqn:Hstep; [|done].
    intros Hrun. rewrite (IH _ Hrun). by destruct (hard_step_config s ev s1 Hstep).
Qed.

Lemma pool_args_timeout (max_sftp_channels wait_timeout : arg) :
  kwarg "timeout" (SSHFileSystem._pool_args max_sftp_channels wait_timeout)
        (Some _MAX_TIMEOUT)
  = match wait_timeout with
    | _UNSET => Some 10800
    | Given v => v
    end.
Proof. by destruct max_sftp_channels, wait_timeout. Qed.

(** A pool built by [SSHFileSystem] never gets [unsafe_terminate]: it is
    forceful, and its timeout is the argument given or the default. *)
Lemma connect_pool_hard repr (max_sftp_channels wait_timeout : arg) :
  SSHFileSystem.connect_pool repr "hard" max_sftp_channels wait_timeout
  = inr (SSHFileSystem.HardPool
           (Hard.init (SSHFileSystem._pool_args max_sftp_channels wait_timeout) None))
  ∧ unsafe_terminate
      (Hard.init (SSHFileSystem._pool_args max_sftp_channels wait_timeout) None) = true
  ∧ timeout (Hard.init (SSHFileSystem._pool_args max_sftp_channels wait_timeout) None)
    = match wait_timeout with
      | _UNSET => Some 10800
      | Given v => v
      end.
Proof.
  split; [reflexivity|]. split; [reflexivity|]. apply pool_args_timeout.
Qed.

(** C9 as stated fails: a pool built without a timeout does not wait without
    bound.  [SSHFileSystem] drops the unset [max_sftp_channel_wait_timeout],
    so [_SFTPChannelPool.__init__] takes its default, [_MAX_TIMEOUT], which
    is 10800 seconds; a wait of the hard pool that has lasted that long
    raises [TimeoutError]. *)
Lemma unset_timeout_waits_three_hours :
  ¬ (∀ (max_sftp_channels : arg) (unsafe : option bool) (w d : Z),
       (Hard.get_elapsed w d
          (Hard.init (SSHFileSystem._pool_args max_sftp_channels _UNSET) unsafe)).2
       ≠ Hard.Raised TimeoutError).
Proof.
  intros Hclaim. by apply (Hclaim _UNSET None 0 10800).
Qed.

(** C9, amended.  A hard pool built with the timeout given as [None] waits
    without bound: however the pool has been used since, a pending wait
    stays pending whatever time goes by.  A pool built with no timeout
    argument gets the default bound of 10800 seconds (three hours), and a
    pool built with a number gets that number: the wait raises
    [TimeoutError] exactly when the time gone by reaches the bound. *)
Theorem wait_is_unbounded_only_for_timeout_none
    (max_sftp_channels : arg) (unsafe : option bool) (tr : list Hard.event) (s : Hard.sys) :
  (Hard.run (Hard.start (SSHFileSystem._pool_args max_sftp_channels (Given None)) unsafe) tr
   = Some s →
   ∀ (ds : list Z) (w : Z),
     ∃ w', Hard.keep_waiting ds (Hard.the_pool s, Hard.Waiting w)
           = (Hard.the_pool s, Hard.Waiting w'))
  ∧ (∀ bound : option Z,
       Hard.run (Hard.start (SSHFileSystem._pool_args max_sftp_channels
                               (match bound with Some t => Given (Some t) | None => _UNSET end))
                            unsafe) tr
       = Some s →
       ∀ w d : Z,
         Hard.get_elapsed w d (Hard.the_pool s)
         = (Hard.the_pool s,
            if bool_decide (default 10800 bound ≤ w + d) then Hard.Raised TimeoutError
            else Hard.Waiting (w + d))).
Proof.
  split.
  - intros Hrun ds. apply hard_run_timeout in Hrun. simpl in Hrun.
    unfold Hard.init, init in Hrun. simpl in Hrun.
    rewrite pool_args_timeout in Hrun.
    induction ds as [|d ds IH]; intros w; simpl; [by exists w|].
    rewrite get_elapsed_unbounded by done. apply IH.
  - intros bound Hrun w d. apply hard_run_timeout in Hrun. simpl in Hrun.
    unfold Hard.init, init in Hrun. simpl in Hrun.
    rewrite pool_args_timeout in Hrun.
    apply get_elapsed_timeout. rewrite Hrun. by destruct bound.
Qed.

Lemma wait_is_unbounded_only_for_timeout_none_witness :
  (∃ w', Hard.keep_waiting [10800; 10800]
           (Pool (Some 0) 0 None true [] [], Hard.Waiting 0)
         = (Pool (Some 0) 0 None true [] [], Hard.Waiting w'))
  ∧ Hard.get_elapsed 0 10800 (Pool (Some 0) 0 (Some 10800) true [] [])
    = (Pool (Some 0) 0 (Some 10800) true [] [], Hard.Raised TimeoutError).
Proof.
  split.
  - apply (proj1 (wait_is_unbounded_only_for_timeout_none
                    _UNSET None
                    [Hard.Begin; Hard.OpenDone 0 (Hard.OpenFail ChannelOpenError)]
                    (Hard.Sys (Pool (Some 0) 0 None true [] []) 0 [Hard.Waiting 0]
                              [0%nat]))
                 eq_refl [10800; 10800] 0).
  - apply (proj2 (wait_is_unbounded_only_for_timeout_none
                    _UNSET None
                    [Hard.Begin; Hard.OpenDone 0 (Hard.OpenFail ChannelOpenError)]
                    (Hard.Sys (Pool (Some 0) 0 (Some 10800) true [] []) 0 [Hard.Starting]
                              []))
                 None eq_refl 0 10800).
Defined.

(** ** The mode check of [SSHFile] *)

(** C10 as stated fails: [super().__init__] runs before the mode is looked
    at, and fsspec's initializer refuses the mode "r" itself, with
    [NotImplementedError]; no [ValueError] is raised. *)
Lemma base_class_refuses_the_mode_first :
  ¬ (∀ (repr _parent : string → string) (token_hex : string)
       (size : list SSHFile.op * option exn) (path_arg mode_arg : string),
       mode_arg ≠ "rb" → mode_arg ≠ "wb" →
       ∃ msg, (SSHFile.init repr _parent token_hex
                 (SSHFile.AbstractBufferedFile_init size) path_arg mode_arg).2
              = inl (ValueError msg)).
Proof.
  intros Hclaim.
  destruct (Hclaim id id "00ff" ([], None) "/data/log.txt" "r") as [msg Hmsg];
    [discriminate | discriminate |].
  vm_compute in Hmsg. discriminate.
Qed.

(** C10, amended.  Opening an [SSHFile] with a mode other than exactly "rb"
    or "wb" never builds the object, and [SSHFile.__init__] does nothing
    remote of its own: whatever has been done by the time it ends was done
    by the initializer of the base class, which runs first.  An exception
    of that initializer is the exception the caller gets; where it returns,
    having stored the mode, [ValueError] is raised with a message that shows
    the mode.  With fsspec's initializer that means: [NotImplementedError]
    for a mode other than "ab", "rb" and "wb", [ValueError] for "ab", and in
    both cases no channel acquired and no remote file opened.  With "rb" or
    "wb" the object is built once the base initializer has returned, without
    a channel or an open remote file of its own; those come with
    [_async_open_file]. *)
Theorem unsupported_mode_is_refused_before_any_channel
    (repr _parent : string → string) (token_hex : string)
    (super_init : string → string → list SSHFile.op * (exn + SSHFile.base))
    (path_arg mode_arg : string) :
  (∀ ops b, super_init path_arg mode_arg = (ops, inr b) → SSHFile.mode b = mode_arg) →
  (SSHFile.init repr _parent token_hex super_init path_arg mode_arg).1
  = (super_init path_arg mode_arg).1
  ∧ (∀ e, (super_init path_arg mode_arg).2 = inl e →
          (SSHFile.init repr _parent token_hex super_init path_arg mode_arg).2 = inl e)
  ∧ (mode_arg ≠ "rb" → mode_arg ≠ "wb" →
     (∀ f, (SSHFile.init repr _parent token_hex super_init path_arg mode_arg).2 ≠ inr f)
     ∧ (∀ b, (super_init path_arg mode_arg).2 = inr b →
             (SSHFile.init repr _parent token_hex super_init path_arg mode_arg).2
             = inl (ValueError ("Unsupported file open mode: " +:+ repr mode_arg))))
  ∧ (mode_arg = "rb" ∨ mode_arg = "wb" →
     ∀ b, (super_init path_arg mode_arg).2 = inr b →
          ∃ f, (SSHFile.init repr _parent token_hex super_init path_arg mode_arg).2 = inr f
               ∧ SSHFile.inherited f = b
               ∧ SSHFile._file f = None
               ∧ SSHFile._stack f = []
               ∧ (SSHFile._async_open_file f).1
                 = [SSHFile.PoolGet; SSHFile.ChannelOpen (SSHFile._location f) mode_arg])
  ∧ (∀ size : list SSHFile.op * option exn,
       (mode_arg ∉ ["ab"; "rb"; "wb"] →
        SSHFile.init repr _parent token_hex (SSHFile.AbstractBufferedFile_init size)
                     path_arg mode_arg
        = ([], inl NotImplementedError))
       ∧ (mode_arg = "ab" →
          SSHFile.init repr _parent token_hex (SSHFile.AbstractBufferedFile_init size)
                       path_arg mode_arg
          = ([], inl (ValueError ("Unsupported file open mode: " +:+ repr mode_arg))))).
Proof.
  intros Hstored. unfold SSHFile.init.
  destruct (super_init path_arg mode_arg) as [ops [e|b]] eqn:Hsuper.
  - split; [done|]. split; [by intros e' [= <-]|].
    split; [intros _ _; split; [done | by intros b [=]]|].
    split; [by intros _ b [=]|].
    intros size. unfold SSHFile.AbstractBufferedFile_init. split.
    + intros Hmode. by rewrite bool_decide_eq_false_2.
    + by intros ->.
  - pose proof (Hstored ops b eq_refl) as Hmode. rewrite Hmode.
    split; [by destruct (_ || _)|]. split; [by intros e [=]|].
    split; [|split].
    + intros Hrb Hwb. rewrite !bool_decide_eq_false_2 by done.
      split; [done|]. by intros b' _.
    + intros Hok b' [= <-].
      assert (bool_decide (mode_arg = "rb") || bool_decide (mode_arg = "wb") = true) as ->.
      { destruct Hok as [-> | ->]; reflexivity. }
      eexists. split; [reflexivity|]. simpl. by rewrite Hmode.
    + intros size. unfold SSHFile.AbstractBufferedFile_init. split.
      * intros Hnot. by rewrite bool_decide_eq_false_2.
      * by intros ->.
Qed.

Lemma unsupported_mode_is_refused_before_any_channel_witness :
  let quote := λ s : string, "'" +:+ s +:+ "'" in
  let super_init := SSHFile.AbstractBufferedFile_init ([SSHFile.PoolGet], None) in
  SSHFile.init quote (λ _, "/data") "00ff" super_init "/data/log.txt" "r"
  = ([], inl NotImplementedError)
  ∧ SSHFile.init quote (λ _, "/data") "00ff" super_init "/data/log.txt" "ab"
    = ([], inl (ValueError "Unsupported file open mode: 'ab'"))
  ∧ (∀ f, (SSHFile.init quote (λ _, "/data") "00ff" super_init "/data/log.txt" "a+").2
          ≠ inr f)
  ∧ ∃ f, (SSHFile.init quote (λ _, "/data") "00ff" super_init "/data/log.txt" "wb").2
         = inr f
         ∧ SSHFile._file f = None.
Proof.
  intros quote super_init.
  assert (∀ mode_arg ops b,
            super_init "/data/log.txt" mode_arg = (ops, inr b) → SSHFile.mode b = mode_arg)
    as Hstored.
  { intros mode_arg ops b. unfold super_init, SSHFile.AbstractBufferedFile_init.
    repeat case_bool_decide; by intros [= <- <-]. }
  split; [|split; [|split]].
  - destruct (unsupported_mode_is_refused_before_any_channel
                quote (λ _, "/data") "00ff" super_init "/data/log.txt" "r"
                (Hstored "r")) as (_ & _ & _ & _ & Hfsspec).
    apply (Hfsspec ([SSHFile.PoolGet], None)).
    intros Hin. by repeat (apply elem_of_cons in Hin as [? | Hin]; [done|]);
      apply elem_of_nil in Hin.
  - destruct (unsupported_mode_is_refused_before_any_channel
                quote (λ _, "/data") "00ff" super_init "/data/log.txt" "ab"
                (Hstored "ab")) as (_ & _ & _ & _ & Hfsspec).
    by apply (Hfsspec ([SSHFile.PoolGet], None)).
  - destruct (unsupported_mode_is_refused_before_any_channel
                quote (λ _, "/data") "00ff" super_init "/data/log.txt" "a+"
                (Hstored "a+")) as (_ & _ & Hnone & _).
    by apply Hnone.
  - destruct (unsupported_mode_is_refused_before_any_channel
                quote (λ _, "/data") "00ff" super_init "/data/log.txt" "wb"
                (Hstored "wb")) as (_ & _ & _ & Hbuilt & _).
    destruct (Hbuilt (or_intror eq_refl) (SSHFile.Base "/data/log.txt" "wb") eq_refl)
      as (f & Hf & _ & Hfile & _).
    by exists f.
Defined.

(** ** The soft pool: the usage map *)

Section Counter.

Implicit Types cs : list (channel * Z).

Lemma counter_get_missing c cs : c ∉ cs.*1 → Soft.counter_get c cs = 0.
Proof.
  induction cs as [|[c' n] cs IH]; simpl; [done|].
  intros Hnotin. apply not_elem_of_cons in Hnotin as [Hne Hnotin].
  rewrite bool_decide_eq_false_2 by done. by apply IH.
Qed.

Lemma usage_sum_set c v cs :
  Soft.usage_sum (Soft.counter_set c v cs)
  = Soft.usage_sum cs - Soft.counter_get c cs + v.
Proof.
  unfold Soft.usage_sum.
  induction cs as [|[c' n] cs IH]; simpl; [lia|].
  case_bool_decide; simpl; lia.
Qed.

Lemma usage_sum_add c d cs :
  Soft.usage_sum (Soft.counter_add c d cs) = Soft.usage_sum cs + d.
Proof. unfold Soft.counter_add. rewrite usage_sum_set. lia. Qed.

Lemma counter_get_add c d cs :
  Soft.counter_get c (Soft.counter_add c d cs) = Soft.counter_get c cs + d.
Proof. unfold Soft.counter_add. by rewrite counter_get_set. Qed.

Lemma counter_get_add_ne c c' d cs :
  c ≠ c' → Soft.counter_get c' (Soft.counter_add c d cs) = Soft.counter_get c' cs.
Proof. unfold Soft.counter_add. apply counter_get_set_ne. Qed.

Lemma counter_set_Forall (P : channel * Z → Prop) c v cs :
  Forall P cs → P (c, v) → Forall P (Soft.counter_set c v cs).
Proof.
  intros Hcs Hcv. induction Hcs as [|[c' n] cs Hkv Hcs IH]; simpl.
  - by constructor.
  - case_bool_decide as Hc; [subst c'|]; by constructor.
Qed.

Lemma counter_set_keys c v cs :
  (Soft.counter_set c v cs).*1 = if bool_decide (c ∈ cs.*1) then cs.*1 else cs.*1 ++ [c].
Proof.
  induction cs as [|[c' n] cs IH]; csimpl; [done|].
  destruct (decide (c' = c)) as [-> | Hne].
  - rewrite bool_decide_eq_true_2 by done. csimpl.
    rewrite bool_decide_eq_true_2; [done | by left].
  - rewrite bool_decide_eq_false_2 by done. csimpl. rewrite IH.
    destruct (decide (c ∈ cs.*1)) as [Hin | Hnotin].
    + rewrite !bool_decide_eq_true_2; [done | by right | done].
    + rewrite !bool_decide_eq_false_2; [done | | done].
      intros Hin'. apply elem_of_cons in Hin' as [-> | Hin']; done.
Qed.

Lemma counter_set_nodup c v cs : NoDup cs.*1 → NoDup (Soft.counter_set c v cs).*1.
Proof.
  intros Hnodup. rewrite counter_set_keys. case_bool_decide as Hin; [done|].
  apply NoDup_app. split; [done|]. split; [|apply NoDup_singleton].
  intros c' Hin' Hc'. apply list_elem_of_singleton in Hc' as ->. done.
Qed.

Lemma counter_get_elem c n cs : NoDup cs.*1 → (c, n) ∈ cs → Soft.counter_get c cs = n.
Proof.
  induction cs as [|[c' n'] cs IH]; csimpl; intros Hnodup Hin.
  - by apply elem_of_nil in Hin.
  - apply NoDup_cons in Hnodup as [Hfirst Hnodup].
    apply elem_of_cons in Hin as [[= <- <-] | Hin].
    + by rewrite bool_decide_eq_true_2.
    + rewrite bool_decide_eq_false_2; [by apply IH|].
      intros ->. apply Hfirst. apply list_elem_of_fmap. by exists (c, n).
Qed.

Lemma counter_get_bounded b c cs :
  0 ≤ b → Forall (λ kv, kv.2 ≤ b) cs → Soft.counter_get c cs ≤ b.
Proof.
  intros Hb Hcs. induction Hcs as [|[c' n] cs Hkv Hcs IH]; simpl; [done|].
  by case_bool_decide.
Qed.

Lemma counter_set_length c v cs :
  (length cs ≤ length (Soft.counter_set c v cs))%nat.
Proof.
  induction cs as [|[c' n] cs IH]; simpl; [lia|].
  case_bool_decide; simpl; lia.
Qed.

(** The smallest entry: [py_min] returns an entry it was given, no larger
    than any of them. *)
Lemma py_min_elem best rest : Soft.py_min best rest ∈ best :: rest.
Proof.
  revert best. induction rest as [|kv rest IH]; intros best; simpl; [by left|].
  specialize (IH (if bool_decide (kv.2 < best.2) then kv else best)).
  apply elem_of_cons in IH as [-> | Hin].
  - case_bool_decide; [right; by left | by left].
  - right. by right.
Qed.

Lemma py_min_least best rest kv :
  kv ∈ best :: rest → (Soft.py_min best rest).2 ≤ kv.2.
Proof.
  revert best kv. induction rest as [|kv' rest IH]; intros best kv Hin; simpl.
  - apply list_elem_of_singleton in Hin as ->. lia.
  - assert ((Soft.py_min (if bool_decide (kv'.2 < best.2) then kv' else best) rest).2
            ≤ (if bool_decide (kv'.2 < best.2) then kv' else best).2) as Hseed.
    { apply IH. by left. }
    apply elem_of_cons in Hin as [-> | Hin]; [|apply elem_of_cons in Hin as [-> | Hin]].
    + case_bool_decide; lia.
    + case_bool_decide; lia.
    + apply IH. by right.
Qed.

Lemma least_used_empty : Soft.least_used [] = (None, 1).
Proof. reflexivity. Qed.

Lemma least_used_some cs c n :
  Soft.least_used cs = (Some c, n) →
  (c, n) ∈ cs ∧ ∀ kv, kv ∈ cs → n ≤ kv.2.
Proof.
  destruct cs as [|kv0 rest]; [done|].
  unfold Soft.least_used. simpl. intros [= Hc Hn]. split.
  - pose proof (py_min_elem kv0 rest) as Hin.
    destruct (Soft.py_min kv0 rest) as [c0 n0]. by simpl in *; subst.
  - intros kv Hin. subst n. by apply py_min_least.
Qed.

Lemma least_used_none cs n : Soft.least_used cs = (None, n) → cs = [] ∧ n = 1.
Proof. destruct cs as [|kv0 rest]; [by intros [= <-] | done]. Qed.

End Counter.

(** ** The soft pool: what every run keeps true *)

Section Counting.

Context {A : Type} (f : A → bool).

Let count (l : list A) : nat := length (filter (λ x, f x = true) l).

Lemma count_snoc l x :
  count (l ++ [x]) = (count l + (if f x then 1 else 0))%nat.
Proof.
  unfold count. rewrite filter_app, length_app. f_equal.
  rewrite filter_cons, filter_nil. destruct (f x); by case_decide.
Qed.

Lemma count_insert l i x0 x :
  l !! i = Some x0 →
  (count (<[i := x]> l) + (if f x0 then 1 else 0)
   = count l + (if f x then 1 else 0))%nat.
Proof.
  unfold count. revert i. induction l as [|y l IH]; intros i Hi; [done|].
  destruct i as [|i]; simpl in *.
  - inversion Hi; subst. rewrite !filter_cons.
    destruct (f x0), (f x); repeat case_decide; simpl; try done; lia.
  - specialize (IH i Hi). rewrite !filter_cons.
    case_decide; simpl; lia.
Qed.

End Counting.

Section SoftSound.

Implicit Types (cs : list (channel * Z)) (ks : list Soft.consumer).

Lemma holders_snoc c ks k :
  Soft.holders c (ks ++ [k]) = Soft.holders c ks + (if Soft.holds c k then 1 else 0).
Proof.
  unfold Soft.holders. rewrite (count_snoc (Soft.holds c)).
  destruct (Soft.holds c k); lia.
Qed.

Lemma holders_insert c ks i k0 k :
  ks !! i = Some k0 →
  Soft.holders c (<[i := k]> ks)
  = Soft.holders c ks - (if Soft.holds c k0 then 1 else 0)
    + (if Soft.holds c k then 1 else 0).
Proof.
  intros Hi. unfold Soft.holders.
  pose proof (count_insert (Soft.holds c) ks i k0 k Hi) as Hcount.
  destruct (Soft.holds c k0), (Soft.holds c k); lia.
Qed.

Lemma holders_nonneg c ks : 0 ≤ Soft.holders c ks.
Proof. unfold Soft.holders. lia. Qed.

Lemma known_mono n n' k : (n ≤ n')%nat → Soft.known n k → Soft.known n' k.
Proof. destruct k as [[c|] ?|c| |]; simpl; try done; lia. Qed.

Lemma known_all_mono n n' ks :
  (n ≤ n')%nat → Forall (Soft.known n) ks → Forall (Soft.known n') ks.
Proof.
  intros Hle Hks. eapply Forall_impl; [exact Hks|].
  intros k. by apply known_mono.
Qed.

(** A consumer takes channel [c]. *)
Lemma sound_take cs a n n' ks ks' c :
  Soft.sound_at cs a n ks → (n ≤ n')%nat → (c < n')%nat →
  Forall (Soft.known n') ks' →
  (∀ c', Soft.holders c' ks'
         = Soft.holders c' ks + if Soft.holds c' (Soft.Holding c) then 1 else 0) →
  Soft.sound_at (Soft.counter_add c 1 cs) (a + 1) n' ks'.
Proof.
  intros [Hsum Hnonneg Hholders Hkeys Hheld Hnodup] Hle Hc Hheld' Hcount. split.
  - rewrite usage_sum_add. lia.
  - apply counter_set_Forall; [done|]. simpl.
    pose proof (Hholders c). pose proof (holders_nonneg c ks). lia.
  - intros c'. rewrite Hcount. simpl. case_bool_decide as Hcc.
    + subst c'. rewrite counter_get_add. specialize (Hholders c). lia.
    + rewrite counter_get_add_ne by done. specialize (Hholders c'). lia.
  - apply counter_set_Forall; [|done].
    eapply Forall_impl; [exact Hkeys|]. simpl. intros kv. lia.
  - done.
  - by apply counter_set_nodup.
Qed.

(** A consumer that holds channel [c] gives it back. *)
Lemma sound_give cs a n ks ks' c :
  Soft.sound_at cs a n ks → (c < n)%nat → 1 ≤ Soft.holders c ks →
  Forall (Soft.known n) ks' →
  (∀ c', Soft.holders c' ks'
         = Soft.holders c' ks - if Soft.holds c' (Soft.Holding c) then 1 else 0) →
  Soft.sound_at (Soft.counter_add c (-1) cs) (a - 1) n ks'.
Proof.
  intros [Hsum Hnonneg Hholders Hkeys Hheld Hnodup] Hc Hone Hheld' Hcount. split.
  - rewrite usage_sum_add. lia.
  - apply counter_set_Forall; [done|]. simpl. specialize (Hholders c). lia.
  - intros c'. rewrite Hcount. simpl. case_bool_decide as Hcc.
    + subst c'. rewrite counter_get_add. specialize (Hholders c). lia.
    + rewrite counter_get_add_ne by done. specialize (Hholders c'). lia.
  - by apply counter_set_Forall.
  - done.
  - by apply counter_set_nodup.
Qed.

(** The usage map and the count stay as they are. *)
Lemma sound_idle cs a n n' ks ks' :
  Soft.sound_at cs a n ks → (n ≤ n')%nat →
  Forall (Soft.known n') ks' →
  (∀ c', Soft.holders c' ks' ≤ Soft.holders c' ks) →
  Soft.sound_at cs a n' ks'.
Proof.
  intros [Hsum Hnonneg Hholders Hkeys Hheld Hnodup] Hle Hheld' Hcount.
  split; try done.
  - intros c'. specialize (Hholders c'). specialize (Hcount c'). lia.
  - eapply Forall_impl; [exact Hkeys|]. simpl. intros kv. lia.
Qed.

(** [get_finish] on a sound system, with the consumer it leaves put into the
    list by [place]: at the end for a [get()] that begins, in place of the
    pending consumer for one that resumes. *)
Lemma sound_finish (p : Soft.soft) n n' ks l (place : Soft.consumer → list Soft.consumer) :
  Soft.sound_at (Soft._channels p) (active_channels p) n ks → (n ≤ n')%nat →
  (∀ c, l = Some c → (c < n')%nat) →
  (∀ k, Soft.known n' k → Forall (Soft.known n') (place k)) →
  (∀ k c', Soft.holders c' (place k)
           = Soft.holders c' ks + if Soft.holds c' k then 1 else 0) →
  Soft.sound_at (Soft._channels (Soft.get_finish l p).1)
                (active_channels (Soft.get_finish l p).1) n'
                (place (Soft.get_finish l p).2).
Proof.
  intros Hsound Hle Hl Hplace Hcount. destruct l as [c|]; simpl.
  - apply (sound_take _ _ n n' ks); auto. apply Hplace. simpl. auto.
  - apply (sound_idle _ _ n n' ks); auto.
    + by apply Hplace.
    + intros c'. rewrite Hcount. simpl. lia.
Qed.

Lemma soft_step_sound s ev s' :
  Soft.sound s → Soft.step s ev = Some s' → Soft.sound s'.
Proof.
  unfold Soft.sound. intros Hsound Hstep.
  pose proof (Soft.sound_held _ _ _ _ Hsound) as Hheld.
  pose proof (Soft.sound_keys _ _ _ _ Hsound) as Hkeys.
  destruct ev as [|i o|i how]; simpl in Hstep.
  - (* a get() begins *)
    inversion Hstep; subst; clear Hstep. simpl.
    assert (∀ k, Soft.known (Soft.client s) k →
                 Forall (Soft.known (Soft.client s)) (Soft.consumers s ++ [k])) as Hplace.
    { intros k Hk. apply Forall_app. split; [done | by constructor]. }
    assert (∀ c n, Soft.least_used (Soft._channels (Soft.the_pool s)) = (Some c, n) →
                   (c < Soft.client s)%nat) as Hleast.
    { intros c n Hl. apply least_used_some in Hl as [Hin _].
      rewrite Forall_forall in Hkeys. apply (Hkeys _ Hin). }
    unfold Soft.get_start.
    destruct (Soft.least_used _) as [l n] eqn:Hl.
    assert (Soft.sound_at
              (Soft._channels (Soft.get_finish l (Soft.the_pool s)).1)
              (active_channels (Soft.get_finish l (Soft.the_pool s)).1)
              (Soft.client s)
              (Soft.consumers s ++ [(Soft.get_finish l (Soft.the_pool s)).2])) as Hfinish.
    { apply (sound_finish _ (Soft.client s) _ (Soft.consumers s) l
               (λ k, Soft.consumers s ++ [k])); auto.
      - intros c ->. by apply (Hleast c n).
      - intros k c'. apply holders_snoc. }
    case_bool_decide; [destruct (may_open _)|]; try exact Hfinish.
    simpl. apply (sound_idle _ _ (Soft.client s) _ (Soft.consumers s)); auto.
    + apply Hplace. destruct l as [c|]; simpl; [|done]. by apply (Hleast c n).
    + intros c'. rewrite holders_snoc. simpl. lia.
  - (* a pending open ends *)
    destruct (Soft.consumers s !! i) as [[l n| | |]|] eqn:Hi; try done.
    inversion Hstep; subst; clear Hstep.
    cbn [Soft.the_pool Soft.client Soft.consumers].
    assert (Soft.client s ≤ Hard.next_client (Soft.client s) o)%nat as Hle.
    { destruct o; simpl; lia. }
    assert (∀ k, Soft.known (Hard.next_client (Soft.client s) o) k →
                 Forall (Soft.known (Hard.next_client (Soft.client s) o))
                        (<[i := k]> (Soft.consumers s))) as Hplace.
    { intros k Hk. apply Forall_insert; [|done]. by apply (known_all_mono (Soft.client s)). }
    assert (∀ k c', Soft.holders c' (<[i := k]> (Soft.consumers s))
                    = Soft.holders c' (Soft.consumers s)
                      + if Soft.holds c' k then 1 else 0) as Hcount.
    { intros k c'. rewrite (holders_insert c' _ i _ k Hi). simpl. lia. }
    assert (∀ c, l = Some c → (c < Hard.next_client (Soft.client s) o)%nat) as Hl.
    { intros c ->. rewrite Forall_forall in Hheld.
      assert (Soft.known (Soft.client s) (Soft.Opening (Some c) n)) as Hk.
      { apply Hheld. by eapply list_elem_of_lookup_2. }
      simpl in Hk. lia. }
    unfold Soft.get_opened.
    destruct o as [|e]; cbn [Hard.to_result].
    + rewrite resume_opened. cbv iota beta.
      apply (sound_finish _ (Soft.client s) _ (Soft.consumers s) _
               (λ k, <[i := k]> (Soft.consumers s))); auto.
      intros c [= <-]. simpl. lia.
    + destruct (decide (e = ChannelOpenError)) as [-> | Hother].
      * rewrite resume_refused. cbv iota beta.
        apply (sound_finish _ (Soft.client s) _ (Soft.consumers s) _
                 (λ k, <[i := k]> (Soft.consumers s))); auto.
      * rewrite resume_other_error by done. cbv iota beta. cbn [fst snd].
        apply (sound_idle _ _ (Soft.client s) _ (Soft.consumers s)); auto.
        -- by apply Hplace.
        -- intros c'. rewrite Hcount. simpl. lia.
  - (* a scope is left *)
    destruct (Soft.consumers s !! i) as [[|c| |]|] eqn:Hi; try done.
    inversion Hstep; subst; clear Hstep.
    assert (c < Soft.client s)%nat as Hc.
    { rewrite Forall_forall in Hheld.
      apply (Hheld (Soft.Holding c)). by eapply list_elem_of_lookup_2. }
    assert (1 ≤ Soft.holders c (Soft.consumers s)) as Hone.
    { pose proof (holders_insert c _ i _ Soft.Returned Hi) as Hins.
      pose proof (holders_nonneg c (<[i := Soft.Returned]> (Soft.consumers s))).
      simpl in Hins. rewrite bool_decide_eq_true_2 in Hins by done. lia. }
    destruct how as [|e]; simpl.
    + apply (sound_give _ _ _ (Soft.consumers s)); auto.
      * by apply Forall_insert.
      * intros c'. rewrite (holders_insert c' _ i _ _ Hi). simpl. lia.
    + apply (sound_idle _ _ (Soft.client s) _ (Soft.consumers s)); auto.
      * by apply Forall_insert.
      * intros c'. rewrite (holders_insert c' _ i _ _ Hi). simpl.
        case_bool_decide; lia.
Qed.

Lemma soft_start_sound kwargs unsafe : Soft.sound (Soft.start kwargs unsafe).
Proof. split; try done. constructor. Qed.

Lemma soft_run_sound tr s s' :
  Soft.sound s → Soft.run s tr = Some s' → Soft.sound s'.
Proof.
  revert s. induction tr as [|ev tr IH]; intros s Hsound; simpl.
  - by intros [= <-].
  - destruct (Soft.step s ev) as [s1|] eqn:Hstep; [|done].
    apply IH. by apply (soft_step_sound s ev).
Qed.

End SoftSound.

(** C5 as stated fails for [close()], which is a pool operation too: it
    clears the usage map and leaves [active_channels] as it is.  A soft pool
    built with the defaults (forceful) hands out channel 0; [close()] then
    succeeds, and the sum of the counters is 0 while the active count is
    still 1. *)
Lemma close_breaks_the_usage_sum :
  ¬ (∀ (kwargs : list (string * option Z)) (unsafe : option bool)
       (tr : list Soft.event) (s : Soft.sys) (teardown : channel → option exn),
       Soft.run (Soft.start kwargs unsafe) tr = Some s →
       Soft.usage_sum (Soft._channels (close teardown (Soft.the_pool s)).1.1)
       = active_channels (close teardown (Soft.the_pool s)).1.1).
Proof.
  intros Hclaim.
  specialize (Hclaim [] None [Soft.Begin; Soft.OpenDone 0 Hard.OpenOk]
                     (Soft.Sys (Pool None 1 (Some 10800) true [0%nat] [(0%nat, 1)]) 1
                               [Soft.Holding 0%nat])
                     (λ _, None) eq_refl).
  vm_compute in Hclaim. discriminate.
Qed.

(** C5, amended.  On a soft pool, after any sequence of acquisitions and
    releases from its construction on ([get()] begun, creation answered,
    scopes left normally or by an exception, interleaved in any way), the
    counters of the usage map add up to [active_channels] and none is
    negative, and every further such step keeps both.  [close()] keeps them
    exactly when no channel is checked out or the pool is strict
    ([unsafe_terminate] false): a strict pool with a channel checked out
    raises [RuntimeError] and is left as it was; a forceful pool with a
    channel checked out empties the map without touching the count. *)
Theorem soft_usage_sum_is_active_count
    (kwargs : list (string * option Z)) (unsafe : option bool)
    (tr : list Soft.event) (s : Soft.sys) :
  Soft.run (Soft.start kwargs unsafe) tr = Some s →
  (Soft.usage_sum (Soft._channels (Soft.the_pool s)) = active_channels (Soft.the_pool s)
   ∧ Forall (λ kv, 0 ≤ kv.2) (Soft._channels (Soft.the_pool s)))
  ∧ (∀ ev s', Soft.step s ev = Some s' →
       Soft.usage_sum (Soft._channels (Soft.the_pool s')) = active_channels (Soft.the_pool s')
       ∧ Forall (λ kv, 0 ≤ kv.2) (Soft._channels (Soft.the_pool s')))
  ∧ (∀ teardown,
       let p' := (close teardown (Soft.the_pool s)).1.1 in
       ((Soft.usage_sum (Soft._channels p') = active_channels p'
         ∧ Forall (λ kv, 0 ≤ kv.2) (Soft._channels p'))
        ↔ (active_channels (Soft.the_pool s) = 0
           ∨ unsafe_terminate (Soft.the_pool s) = false))
       ∧ (active_channels (Soft.the_pool s) ≠ 0 →
          unsafe_terminate (Soft.the_pool s) = false →
          close teardown (Soft.the_pool s)
          = (Soft.the_pool s, [],
             Some (RuntimeError (leak_message "SFTPSoftChannelPool"))))
       ∧ (active_channels (Soft.the_pool s) ≠ 0 →
          unsafe_terminate (Soft.the_pool s) = true →
          Soft._channels p' = []
          ∧ active_channels p' = active_channels (Soft.the_pool s))).
Proof.
  intros Hrun.
  assert (Soft.sound s) as Hsound.
  { eapply soft_run_sound; [apply soft_start_sound | exact Hrun]. }
  assert (Soft.usage_sum (Soft._channels (Soft.the_pool s))
          = active_channels (Soft.the_pool s)
          ∧ Forall (λ kv, 0 ≤ kv.2) (Soft._channels (Soft.the_pool s))) as Hnow.
  { split; [apply Hsound | apply (Soft.sound_nonneg _ _ _ _ Hsound)]. }
  split; [exact Hnow|]. split.
  - intros ev s' Hstep.
    pose proof (soft_step_sound s ev s' Hsound Hstep) as Hsound'.
    split; [apply Hsound' | apply (Soft.sound_nonneg _ _ _ _ Hsound')].
  - intros teardown p'.
    assert (active_channels (Soft.the_pool s) ≠ 0 →
            unsafe_terminate (Soft.the_pool s) = false →
            close teardown (Soft.the_pool s)
            = (Soft.the_pool s, [],
               Some (RuntimeError (leak_message "SFTPSoftChannelPool")))) as Hstrict.
    { intros Hout Hpolicy. by apply (close_strict_leak (HP := Soft.soft_pool)). }
    assert (active_channels (Soft.the_pool s) ≠ 0 →
            unsafe_terminate (Soft.the_pool s) = true →
            Soft._channels p' = []
            ∧ active_channels p' = active_channels (Soft.the_pool s)) as Hforce.
    { intros Hout Hpolicy. unfold p'.
      by rewrite (close_tears_down (HP := Soft.soft_pool)) by (by right). }
    split; [|by split].
    split.
    + intros [Hsum _].
      destruct (decide (active_channels (Soft.the_pool s) = 0)) as [|Hout]; [by left|].
      destruct (unsafe_terminate (Soft.the_pool s)) eqn:Hpolicy; [|by right].
      destruct (Hforce Hout eq_refl) as [Hmap Hcount].
      rewrite Hmap, Hcount in Hsum. simpl in Hsum. by destruct Hout.
    + intros Hkept.
      destruct (decide (active_channels (Soft.the_pool s) = 0)) as [Hzero|Hout].
      * unfold p'. rewrite (close_tears_down (HP := Soft.soft_pool)) by (by left).
        simpl. split; [by rewrite Hzero | constructor].
      * destruct Hkept as [Hzero | Hpolicy]; [done|].
        unfold p'. by rewrite (Hstrict Hout Hpolicy).
Qed.

Lemma soft_usage_sum_is_active_count_witness :
  (* two consumers share channel 0 under a capacity of one; one scope raises *)
  let s := Soft.Sys (Pool (Some 1) 2 (Some 10800) true [0%nat] [(0%nat, 2)]) 1
                    [Soft.Raised BrokenPipeError; Soft.Holding 0%nat] in
  Soft.usage_sum (Soft._channels (Soft.the_pool s)) = active_channels (Soft.the_pool s)
  ∧ Forall (λ kv, 0 ≤ kv.2) (Soft._channels (Soft.the_pool s)).
Proof.
  intros s.
  apply (soft_usage_sum_is_active_count
           [("max_channels", Some 1)] None
           [Soft.Begin; Soft.OpenDone 0 Hard.OpenOk; Soft.Begin;
            Soft.Exit 0 (Raising BrokenPipeError)] s eq_refl).
Defined.

(** ** The soft pool: which channel is handed out *)

Lemma soft_get_start_cases (p : Soft.soft) :
  let ln := Soft.least_used (Soft._channels p) in
  Soft.get_start p
  = if bool_decide (ln.2 > 0) && may_open p then (p, Soft.Opening ln.1 ln.2)
    else Soft.get_finish ln.1 p.
Proof.
  unfold Soft.get_start. destruct (Soft.least_used _) as [l n]. simpl.
  case_bool_decide; [destruct (may_open p)|]; done.
Qed.

(** C4.  The selection of the soft pool is an entry of the usage map whose
    counter is at most every counter of the map; with no channel known it is
    the placeholder, counted as 1, which is positive, so
    [_maybe_new_channel] is called (and opens a channel if the capacity
    allows).  An acquisition hands out either the channel selected when
    [get()] began, least used at that moment, or the channel just created;
    along any run the channel about to be created is not in the usage map,
    so its counter starts at zero and is one once it is handed out. *)
Theorem soft_hands_out_least_used_or_new :
  (∀ (cs : list (channel * Z)) (c : channel) (n : Z),
     Soft.least_used cs = (Some c, n) →
     (c, n) ∈ cs ∧ ∀ c' n', (c', n') ∈ cs → n ≤ n')
  ∧ (∀ p : Soft.soft,
       Soft._channels p = [] →
       Soft.least_used (Soft._channels p) = (None, 1)
       ∧ Soft.enters_creation p = true
       ∧ Soft.begin_attempts p = may_open p
       ∧ Soft.get_start p
         = if may_open p then (p, Soft.Opening None 1)
           else (p, Soft.Raised (ValueError "Can't create any SFTP connections!")))
  ∧ (∀ (p p' : Soft.soft) (c : channel),
       Soft.get_start p = (p', Soft.Holding c) →
       ∃ n, Soft.least_used (Soft._channels p) = (Some c, n))
  ∧ (∀ (p p' : Soft.soft) (l : option channel) (n : Z),
       Soft.get_start p = (p', Soft.Opening l n) →
       Soft.least_used (Soft._channels p) = (l, n) ∧ n > 0 ∧ p' = p)
  ∧ (∀ (l : option channel) (r : open_result) (p p' : Soft.soft) (c : channel),
       Soft.get_opened l r p = (p', Soft.Holding c) →
       r = Opened c ∨ (r = OpenRaised ChannelOpenError ∧ l = Some c))
  ∧ (∀ kwargs unsafe tr s,
       Soft.run (Soft.start kwargs unsafe) tr = Some s →
       Soft.counter_get (Soft.client s) (Soft._channels (Soft.the_pool s)) = 0
       ∧ ∀ i s', Soft.step s (Soft.OpenDone i Hard.OpenOk) = Some s' →
                 Soft.consumers s' !! i = Some (Soft.Holding (Soft.client s))
                 ∧ Soft.counter_get (Soft.client s) (Soft._channels (Soft.the_pool s')) = 1).
Proof.
  repeat apply conj.
  - intros cs c n Hl. apply least_used_some in Hl as [Hin Hleast].
    split; [done|]. intros c' n' Hin'. apply (Hleast _ Hin').
  - intros p Hcs. unfold Soft.begin_attempts, Soft.enters_creation.
    rewrite soft_get_start_cases, Hcs. simpl. by destruct (may_open p).
  - intros p p' c. rewrite soft_get_start_cases.
    destruct (Soft.least_used _) as [[c0|] n]; simpl;
      destruct (_ && _); try done.
    intros [= _ <-]. by exists n.
  - intros p p' l n. rewrite soft_get_start_cases.
    destruct (Soft.least_used _) as [l0 n0]; simpl.
    case_bool_decide as Hpos; simpl; [destruct (may_open p)|].
    + by intros [= <- <- <-].
    + by destruct l0.
    + by destruct l0.
  - intros l r p p' c. unfold Soft.get_opened.
    destruct r as [c0|e].
    + rewrite resume_opened. simpl. intros [= _ <-]. by left.
    + destruct (decide (e = ChannelOpenError)) as [-> | Hother].
      * rewrite resume_refused. destruct l as [c0|]; simpl; [|done].
        intros [= _ <-]. by right.
      * by rewrite resume_other_error.
  - intros kwargs unsafe tr s Hrun.
    assert (Soft.sound s) as Hsound.
    { eapply soft_run_sound; [apply soft_start_sound | exact Hrun]. }
    assert (Soft.counter_get (Soft.client s) (Soft._channels (Soft.the_pool s)) = 0)
      as Hfresh.
    { apply counter_get_missing. intros Hin.
      apply list_elem_of_fmap in Hin as (kv & Hkv & Hin).
      pose proof (Soft.sound_keys _ _ _ _ Hsound) as Hkeys.
      rewrite Forall_forall in Hkeys. specialize (Hkeys kv Hin). lia. }
    split; [done|]. intros i s' Hstep. simpl in Hstep.
    destruct (Soft.consumers s !! i) as [[l n| | |]|] eqn:Hi; try done.
    inversion Hstep; subst; clear Hstep. simpl.
    assert (i < length (Soft.consumers s))%nat by (by eapply lookup_lt_Some).
    rewrite list_lookup_insert_eq by done. split; [done|].
    rewrite counter_get_add. unfold Soft._channels in Hfresh. lia.
Qed.

Lemma soft_hands_out_least_used_or_new_witness :
  (* channel 1 is the first of the two least used; channel 2 would be the next created *)
  ((1%nat, 1) ∈ [(0%nat, 2); (1%nat, 1); (2%nat, 1)]
   ∧ ∀ c' n', (c', n') ∈ [(0%nat, 2); (1%nat, 1); (2%nat, 1)] → 1 ≤ n')
  ∧ Soft.counter_get 1%nat [(0%nat, 1)] = 0.
Proof.
  destruct soft_hands_out_least_used_or_new as (Hleast & _ & _ & _ & _ & Hfresh).
  split.
  - apply (Hleast [(0%nat, 2); (1%nat, 1); (2%nat, 1)] 1%nat 1 eq_refl).
  - apply (Hfresh [] None [Soft.Begin; Soft.OpenDone 0 Hard.OpenOk]
             (Soft.Sys (Pool None 1 (Some 10800) true [0%nat] [(0%nat, 1)]) 1
                       [Soft.Holding 0%nat]) eq_refl).
Defined.

(** ** After a refusal *)

Lemma least_used_busy cs l n :
  Soft.least_used cs = (l, n) → n > 0 → ∀ kv, kv ∈ cs → 1 ≤ kv.2.
Proof.
  intros Hl Hpos kv Hin. destruct l as [c|].
  - apply least_used_some in Hl as [_ Hleast]. specialize (Hleast kv Hin). lia.
  - apply least_used_none in Hl as [-> _]. by apply elem_of_nil in Hin.
Qed.

(** C2 fails in the code, against the comment in [_maybe_new_channel]
    (lines 107-109: the limit is changed "so that we don't hit these errors
    again").  The limit is set to the active count read when the refusal
    arrives, and acquisitions that overlap with the refused attempt make
    that count exceed what the server allows, or leave it behind.

    Soft pool, built with [max_channels=1]: two consumers call [get()] and
    both wait for a new channel (0 and 1).  The open of consumer 1
    succeeds: channel 0, active count 1.  A third consumer shares channel
    0: active count 2.  Now the open of consumer 0 is refused: the limit
    becomes 2.  Consumer 1 leaves its scope; the next [get()] finds channel
    0 busy and 1 < 2, and is back in [start_sftp_client].  A refusal of
    that attempt moves the limit again, to 1.

    Hard pool, built with the defaults (timeout 10800): consumer 0 holds
    channel 0; consumer 1 is refused (limit 1) and waits.  Consumer 0
    leaves: the channel is queued, consumer 1 is woken and the task of its
    [Queue.get()] takes the channel.  Before consumer 1 has counted it, a
    third [get()] finds the queue empty and 0 < 1, and is back in
    [start_sftp_client]. *)
Theorem refusal_does_not_stop_creation :
  (∃ s s',
     Soft.run (Soft.start [("max_channels", Some 1)] None)
              [Soft.Begin; Soft.Begin; Soft.OpenDone 1 Hard.OpenOk; Soft.Begin;
               Soft.OpenDone 0 (Hard.OpenFail ChannelOpenError);
               Soft.Exit 1 Normal; Soft.Begin]
     = Some s
     ∧ max_channels (Soft.the_pool s) = Some 2
     ∧ Soft.consumers s !! 3%nat = Some (Soft.Opening (Some 0%nat) 1)
     ∧ Soft.step s (Soft.OpenDone 3 (Hard.OpenFail ChannelOpenError)) = Some s'
     ∧ max_channels (Soft.the_pool s') = Some 1)
  ∧ (∃ s,
       Hard.run (Hard.start [] None)
                [Hard.Begin; Hard.OpenDone 0 Hard.OpenOk; Hard.Begin;
                 Hard.OpenDone 1 (Hard.OpenFail ChannelOpenError); Hard.Run 1;
                 Hard.Exit 0 Normal; Hard.Run 1; Hard.Begin]
       = Some s
       ∧ max_channels (Hard.the_pool s) = Some 1
       ∧ Hard.consumers s = [Hard.Returned; Hard.Taken 0%nat; Hard.Opening]).
Proof.
  split.
  - exists (Soft.Sys (Pool (Some 2) 1 (Some 10800) true [0%nat] [(0%nat, 1)]) 1
                     [Soft.Raised (ValueError "Can't create any SFTP connections!");
                      Soft.Returned; Soft.Holding 0%nat; Soft.Opening (Some 0%nat) 1]),
           (Soft.Sys (Pool (Some 1) 2 (Some 10800) true [0%nat] [(0%nat, 2)]) 1
                     [Soft.Raised (ValueError "Can't create any SFTP connections!");
                      Soft.Returned; Soft.Holding 0%nat; Soft.Holding 0%nat]).
    vm_compute. by repeat split.
  - exists (Hard.Sys (Pool (Some 1) 0 (Some 10800) true [0%nat] []) 1
                     [Hard.Returned; Hard.Taken 0%nat; Hard.Opening] []).
    vm_compute. by repeat split.
Qed.

(** * Further properties of the pools *)

(** ** The hard pool: who has which channel *)

Section HardOwnership.

Implicit Types (p : Hard.hard) (s : Hard.sys) (ks : list Hard.consumer)
         (f : Hard.consumer → option channel).

(** The channels the pool can still account for: free, or in the hands of
    a consumer. *)
Let owned s : list channel :=
  Hard._queue (Hard.the_pool s) ++ Hard.in_hands (Hard.consumers s).

(** The active count beyond the consumers inside their scopes. *)
Let beyond s : Z :=
  active_channels (Hard.the_pool s) - Z.of_nat (length (Hard.held (Hard.consumers s))).

Lemma omap_snoc f ks k : omap f (ks ++ [k]) = omap f ks ++ option_list (f k).
Proof. rewrite omap_app. simpl. by destruct (f k). Qed.

Lemma omap_insert f ks i k0 k :
  ks !! i = Some k0 →
  omap f (<[i := k]> ks) ++ option_list (f k0) ≡ₚ omap f ks ++ option_list (f k).
Proof.
  intros Hi. assert (i < length ks)%nat as Hlen by (by eapply lookup_lt_Some).
  rewrite (insert_take_drop ks i k Hlen).
  rewrite <- (take_drop_middle ks i k0 Hi) at 3.
  rewrite !omap_app. simpl.
  destruct (f k0), (f k); simpl; rewrite ?app_nil_r; solve_Permutation.
Qed.

Lemma omap_insert_same f ks i k0 k :
  ks !! i = Some k0 → f k0 = f k → omap f (<[i := k]> ks) ≡ₚ omap f ks.
Proof.
  intros Hi Hsame. pose proof (omap_insert f ks i k0 k Hi) as Hperm.
  rewrite Hsame in Hperm. by apply (inj (λ l, l ++ option_list (f k))) in Hperm.
Qed.

(** A wake-up hands no channel to anybody. *)
Lemma omap_wakeup f ks gs :
  (∀ w, f (Hard.Waiting w) = f (Hard.Woken w)) →
  omap f (Hard._wakeup_next ks gs).1 ≡ₚ omap f ks.
Proof.
  intros Hf. induction gs as [|i gs IH]; simpl; [done|].
  destruct (ks !! i) as [k|] eqn:Hi; [|done].
  destruct k; try done. simpl. by apply (omap_insert_same f ks i (Hard.Waiting waited)).
Qed.

(** What a piece of [get()] does with the queue, the stack and the active
    count: a channel it takes from the queue is in the hand of the consumer
    afterwards, and is counted once the consumer is at its [yield]. *)
Let moves p (pc : Hard.hard * Hard.consumer) : Prop :=
  Hard._queue pc.1 ++ option_list (Hard.in_hand pc.2) ≡ₚ Hard._queue p
  ∧ _stack pc.1 = _stack p
  ∧ active_channels pc.1 - Z.of_nat (length (option_list (Hard.held_by pc.2)))
    = active_channels p.

Lemma queue_get_moves w p : moves p (Hard.queue_get w p).
Proof.
  unfold moves, Hard.queue_get. destruct (Hard._queue p) as [|c q] eqn:Hq.
  - simpl. rewrite Hq, app_nil_r. repeat split; try done. lia.
  - destruct (timeout p); unfold Hard._queue in *; simpl.
    + repeat split; [solve_Permutation | lia].
    + repeat split; [solve_Permutation | lia].
Qed.

Lemma wait_for_get_moves p : moves p (Hard.wait_for_get p).
Proof.
  unfold Hard.wait_for_get. destruct (timeout p) as [t|]; [|apply queue_get_moves].
  unfold moves. case_bool_decide; simpl; rewrite app_nil_r; repeat split; try done; lia.
Qed.

Lemma get_start_moves p : moves p (Hard.get_start p).
Proof.
  unfold Hard.get_start.
  case_bool_decide; [destruct (may_open p)|]; try apply wait_for_get_moves.
  unfold moves. simpl. rewrite app_nil_r. repeat split; try done. lia.
Qed.

Lemma moves_capacity p m pc :
  moves (set_max_channels m p) pc → moves p pc.
Proof. done. Qed.

(** Placing the outcome of such a piece at a consumer that had no channel. *)
Lemma moves_insert s i k0 pc :
  Hard.consumers s !! i = Some k0 → Hard.in_hand k0 = None →
  moves (Hard.the_pool s) pc →
  Hard._queue pc.1 ++ Hard.in_hands (<[i := pc.2]> (Hard.consumers s)) ≡ₚ owned s
  ∧ active_channels pc.1
    - Z.of_nat (length (Hard.held (<[i := pc.2]> (Hard.consumers s))))
    = beyond s.
Proof.
  intros Hi Hnone (Hqueue & _ & Hactive). unfold owned, beyond, Hard.in_hands, Hard.held.
  pose proof (omap_insert Hard.in_hand _ i k0 pc.2 Hi) as Hhands.
  rewrite Hnone in Hhands. simpl in Hhands. rewrite app_nil_r in Hhands.
  pose proof (omap_insert Hard.held_by _ i k0 pc.2 Hi) as Hheld.
  assert (Hard.held_by k0 = None) as Hnot by (by destruct k0).
  rewrite Hnot in Hheld. simpl in Hheld. rewrite app_nil_r in Hheld.
  split.
  - rewrite Hhands, <- Hqueue. solve_Permutation.
  - rewrite Hheld, length_app. lia.
Qed.

Lemma moves_snoc s pc :
  moves (Hard.the_pool s) pc →
  Hard._queue pc.1 ++ Hard.in_hands (Hard.consumers s ++ [pc.2]) ≡ₚ owned s
  ∧ active_channels pc.1 - Z.of_nat (length (Hard.held (Hard.consumers s ++ [pc.2])))
    = beyond s.
Proof.
  intros (Hqueue & _ & Hactive). unfold owned, beyond, Hard.in_hands, Hard.held.
  rewrite !omap_snoc. split.
  - rewrite <- Hqueue. solve_Permutation.
  - rewrite length_app. lia.
Qed.

(** What a step does to the channels accounted for: nothing, or a new
    channel joins them, or one is lost because its scope raised; the active
    count stays ahead of the consumers inside their scopes by the number of
    scopes that raised. *)
Lemma hard_step_owned s ev s' :
  Hard.step s ev = Some s' →
  (owned s' ≡ₚ owned s ∧ Hard.client s' = Hard.client s
   ∧ length (_stack (Hard.the_pool s')) = length (_stack (Hard.the_pool s))
   ∧ beyond s' = beyond s
   ∧ Hard.is_failed_exit ev = false)
  ∨ (owned s' ≡ₚ Hard.client s :: owned s ∧ Hard.client s' = S (Hard.client s)
     ∧ length (_stack (Hard.the_pool s')) = S (length (_stack (Hard.the_pool s)))
     ∧ beyond s' = beyond s
     ∧ Hard.is_failed_exit ev = false)
  ∨ (∃ c, owned s ≡ₚ c :: owned s' ∧ Hard.client s' = Hard.client s
          ∧ length (_stack (Hard.the_pool s')) = length (_stack (Hard.the_pool s))
          ∧ beyond s' = beyond s + 1
          ∧ Hard.is_failed_exit ev = true).
Proof.
  destruct ev as [|i o|i|i|i d|i how]; simpl; intros Hstep.
  - (* a get() begins *)
    inversion Hstep; subst; clear Hstep. left.
    pose proof (get_start_moves (Hard.the_pool s)) as Hmoves.
    destruct (moves_snoc s _ Hmoves) as [Hperm Hcount].
    destruct Hmoves as (_ & Hstack & _).
    unfold owned, beyond. cbn [Hard.the_pool Hard.consumers Hard.client].
    by rewrite Hstack.
  - (* a pending open ends *)
    destruct (Hard.consumers s !! i) as [[]|] eqn:Hi; try done.
    inversion Hstep; subst; clear Hstep.
    unfold owned, beyond. cbn [Hard.the_pool Hard.consumers Hard.client].
    unfold Hard.get_opened.
    destruct o as [|e]; cbn [Hard.to_result Hard.next_client].
    + right. left.
      pose proof (omap_insert Hard.in_hand _ i _ (Hard.Holding (Hard.client s)) Hi)
        as Hhands.
      pose proof (omap_insert Hard.held_by _ i _ (Hard.Holding (Hard.client s)) Hi)
        as Hheld.
      simpl in Hhands, Hheld. rewrite app_nil_r in Hhands, Hheld.
      unfold Hard._queue, Hard.in_hands, Hard.held. simpl.
      rewrite Hhands, Hheld, length_app. simpl.
      repeat split; [solve_Permutation | lia].
    + left. destruct (decide (e = ChannelOpenError)) as [-> | Hother].
      * rewrite resume_refused. cbv iota beta.
        pose proof (wait_for_get_moves
                      (set_max_channels (Some (active_channels (Hard.the_pool s)))
                                        (Hard.the_pool s))) as Hmoves.
        destruct (moves_insert s i _ _ Hi eq_refl Hmoves) as [Hperm Hcount].
        destruct Hmoves as (_ & Hstack & _). by rewrite Hstack.
      * rewrite resume_other_error by done. simpl.
        rewrite (omap_insert_same Hard.in_hand _ i _ (Hard.Raised e) Hi) by done.
        rewrite (omap_insert_same Hard.held_by _ i _ (Hard.Raised e) Hi) by done.
        done.
  - (* the task of a consumer runs *)
    left. unfold owned, beyond.
    destruct (Hard.consumers s !! i) as [k|] eqn:Hi; [|done].
    destruct k as [| |waited|waited|c|at_| |c| |e]; try done;
      inversion Hstep; subst; clear Hstep.
    + pose proof (queue_get_moves 0 (Hard.the_pool s)) as Hmoves.
      destruct (moves_insert s i _ _ Hi eq_refl Hmoves) as [Hperm Hcount].
      destruct Hmoves as (_ & Hstack & _).
      cbn [Hard.update Hard.the_pool Hard.consumers Hard.client]. by rewrite Hstack.
    + pose proof (queue_get_moves waited (Hard.the_pool s)) as Hmoves.
      destruct (moves_insert s i _ _ Hi eq_refl Hmoves) as [Hperm Hcount].
      destruct Hmoves as (_ & Hstack & _).
      cbn [Hard.update Hard.the_pool Hard.consumers Hard.client]. by rewrite Hstack.
    + assert (Hard.in_hands (<[i := Hard.TimedOut]> (Hard.consumers s))
              ≡ₚ Hard.in_hands (Hard.consumers s)) as Hhands.
      { by apply (omap_insert_same Hard.in_hand _ i (Hard.Cancelling at_)). }
      assert (Hard.held (<[i := Hard.TimedOut]> (Hard.consumers s))
              ≡ₚ Hard.held (Hard.consumers s)) as Hheld.
      { by apply (omap_insert_same Hard.held_by _ i (Hard.Cancelling at_)). }
      unfold Hard.cancel_get.
      destruct at_; [| |case_bool_decide];
        cbn [Hard.the_pool Hard.consumers Hard.client];
        unfold Hard.in_hands, Hard.held;
        rewrite ?(omap_wakeup Hard.in_hand), ?(omap_wakeup Hard.held_by) by done;
        fold (Hard.in_hands (<[i := Hard.TimedOut]> (Hard.consumers s)));
        fold (Hard.held (<[i := Hard.TimedOut]> (Hard.consumers s)));
        by rewrite Hhands, Hheld.
  - (* [wait_for] resumes *)
    left. unfold owned, beyond.
    destruct (Hard.consumers s !! i) as [k|] eqn:Hi; [|done].
    destruct k as [| |waited|waited|c|at_| |c| |e]; try done;
      inversion Hstep; subst; clear Hstep;
      cbn [Hard.update Hard.hand_out Hard.the_pool Hard.consumers Hard.client fst snd].
    + rewrite (omap_insert_same Hard.in_hand _ i _ (Hard.Holding c) Hi) by done.
      pose proof (omap_insert Hard.held_by _ i _ (Hard.Holding c) Hi) as Hheld.
      simpl in Hheld. rewrite app_nil_r in Hheld.
      unfold Hard.held. rewrite Hheld, length_app. simpl.
      repeat split; try done. lia.
    + rewrite (omap_insert_same Hard.in_hand _ i _ (Hard.Raised TimeoutError) Hi) by done.
      by rewrite (omap_insert_same Hard.held_by _ i _ (Hard.Raised TimeoutError) Hi).
  - (* time passes for a waiting consumer *)
    left. unfold owned, beyond.
    destruct (Hard.consumers s !! i) as [k|] eqn:Hi; [|done].
    destruct k as [| |waited|waited|c|at_| |c| |e]; try done;
      inversion Hstep; subst; clear Hstep;
      cbn [Hard.the_pool Hard.consumers Hard.client].
    + rewrite (omap_insert_same Hard.in_hand _ i _ _ Hi)
        by (by destruct (Hard.expired _ _ _)).
      by rewrite (omap_insert_same Hard.held_by _ i _ _ Hi)
        by (by destruct (Hard.expired _ _ _)).
    + rewrite (omap_insert_same Hard.in_hand _ i _ _ Hi)
        by (by destruct (Hard.expired _ _ _)).
      by rewrite (omap_insert_same Hard.held_by _ i _ _ Hi)
        by (by destruct (Hard.expired _ _ _)).
  - (* a scope is left *)
    unfold owned, beyond.
    destruct (Hard.consumers s !! i) as [k|] eqn:Hi; [|done].
    destruct k as [| |waited|waited|c'|at_| |c| |e]; try done.
    destruct how as [|e]; inversion Hstep; subst; clear Hstep;
      cbn [Hard.the_pool Hard.consumers Hard.client].
    + left. unfold Hard.in_hands, Hard.held.
      rewrite (omap_wakeup Hard.in_hand), (omap_wakeup Hard.held_by) by done.
      pose proof (omap_insert Hard.in_hand _ i _ Hard.Returned Hi) as Hhands.
      pose proof (omap_insert Hard.held_by _ i _ Hard.Returned Hi) as Hheld.
      simpl in Hhands, Hheld. rewrite app_nil_r in Hhands, Hheld.
      rewrite <- Hhands, <- Hheld, length_app. unfold Hard.release, Hard._queue. simpl.
      repeat split; [solve_Permutation | lia].
    + right. right. exists c.
      pose proof (omap_insert Hard.in_hand _ i _ (Hard.Raised e) Hi) as Hhands.
      pose proof (omap_insert Hard.held_by _ i _ (Hard.Raised e) Hi) as Hheld.
      simpl in Hhands, Hheld. rewrite app_nil_r in Hhands, Hheld.
      unfold Hard.in_hands, Hard.held.
      rewrite <- Hhands, <- Hheld, length_app. simpl.
      repeat split; [solve_Permutation | lia].
Qed.

(** Along a run from the construction of the pool: the channels accounted
    for are distinct and were all opened by this pool; with the scopes left
    by an exception they are as many as the channels opened; and the active
    count is the consumers inside their scopes plus the scopes that raised. *)
Lemma hard_run_owned kwargs unsafe tr s :
  Hard.run (Hard.start kwargs unsafe) tr = Some s →
  NoDup (owned s)
  ∧ Forall (λ c, (c < Hard.client s)%nat) (owned s)
  ∧ length (_stack (Hard.the_pool s)) = Hard.client s
  ∧ Z.of_nat (length (owned s)) + Hard.failed_exits tr = Z.of_nat (Hard.client s)
  ∧ beyond s = Hard.failed_exits tr.
Proof.
  assert (∀ tr s0 s (n : Z),
            NoDup (owned s0) → Forall (λ c, (c < Hard.client s0)%nat) (owned s0) →
            length (_stack (Hard.the_pool s0)) = Hard.client s0 →
            Z.of_nat (length (owned s0)) + n = Z.of_nat (Hard.client s0) →
            beyond s0 = n →
            Hard.run s0 tr = Some s →
            NoDup (owned s)
            ∧ Forall (λ c, (c < Hard.client s)%nat) (owned s)
            ∧ length (_stack (Hard.the_pool s)) = Hard.client s
            ∧ Z.of_nat (length (owned s)) + (n + Hard.failed_exits tr)
              = Z.of_nat (Hard.client s)
            ∧ beyond s = n + Hard.failed_exits tr) as Hgen.
  { clear kwargs unsafe tr s. intros tr.
    induction tr as [|ev tr IH]; intros s0 s n Hnd Hlt Hst Hcount Hbeyond; simpl.
    - intros [= <-]. unfold Hard.failed_exits. simpl. repeat split; try done; lia.
    - destruct (Hard.step s0 ev) as [s1|] eqn:Hstep; [|done]. intros Hrun.
      assert (Hard.failed_exits (ev :: tr)
              = (if Hard.is_failed_exit ev then 1 else 0) + Hard.failed_exits tr) as ->.
      { unfold Hard.failed_exits. rewrite filter_cons.
        destruct (Hard.is_failed_exit ev); case_decide; simpl; try done; lia. }
      destruct (hard_step_owned s0 ev s1 Hstep)
        as [(Hperm & Hcl & Hstack & Hb & ->) | [(Hperm & Hcl & Hstack & Hb & ->)
                                          | (c & Hperm & Hcl & Hstack & Hb & ->)]].
      + replace (n + (0 + Hard.failed_exits tr)) with (n + Hard.failed_exits tr) by lia.
        apply (IH s1); try done.
        * by rewrite Hperm.
        * by rewrite Hperm, Hcl.
        * by rewrite Hstack, Hcl.
        * by rewrite Hperm, Hcl.
        * by rewrite Hb.
      + replace (n + (0 + Hard.failed_exits tr)) with (n + Hard.failed_exits tr) by lia.
        apply (IH s1); try done.
        * rewrite Hperm. apply NoDup_cons. split; [|done].
          intros Hin. rewrite Forall_forall in Hlt. specialize (Hlt _ Hin). lia.
        * rewrite Hperm, Hcl. constructor; [lia|].
          eapply Forall_impl; [exact Hlt|]. simpl. lia.
        * by rewrite Hstack, Hcl, Hst.
        * rewrite Hperm, Hcl. simpl. lia.
        * by rewrite Hb.
      + replace (n + (1 + Hard.failed_exits tr)) with ((n + 1) + Hard.failed_exits tr) by lia.
        rewrite Hperm in Hnd, Hlt, Hcount. apply NoDup_cons in Hnd as [_ Hnd].
        apply Forall_cons in Hlt as [_ Hlt].
        apply (IH s1); try done.
        * by rewrite Hcl.
        * by rewrite Hstack, Hcl.
        * rewrite Hcl. simpl in Hcount. lia.
        * rewrite Hb. lia. }
  intros Hrun.
  destruct (Hgen tr (Hard.start kwargs unsafe) s 0) as (? & ? & ? & ? & ?); try done.
  by constructor.
Qed.

End HardOwnership.

Lemma in_hand_elem (ks : list Hard.consumer) i k c :
  ks !! i = Some k → Hard.in_hand k = Some c → c ∈ Hard.in_hands ks.
Proof.
  revert i. induction ks as [|k' ks IH]; intros [|i] Hi Hk; try done; simpl in Hi.
  - inversion Hi; subst. unfold Hard.in_hands. simpl. rewrite Hk. by left.
  - unfold Hard.in_hands. simpl. specialize (IH i Hi Hk).
    destruct (Hard.in_hand k'); [by right | done].
Qed.

Lemma in_hands_nodup_injective (ks : list Hard.consumer) i j ki kj c :
  NoDup (Hard.in_hands ks) →
  ks !! i = Some ki → ks !! j = Some kj →
  Hard.in_hand ki = Some c → Hard.in_hand kj = Some c → i = j.
Proof.
  revert i j. induction ks as [|k ks IH]; intros i j Hnd Hi Hj Hki Hkj; [done|].
  unfold Hard.in_hands in Hnd. simpl in Hnd.
  destruct i as [|i], j as [|j]; simpl in *; try done.
  - inversion Hi; subst. rewrite Hki in Hnd.
    apply NoDup_cons in Hnd as [Hnew _]. destruct Hnew. by apply (in_hand_elem ks j kj).
  - inversion Hj; subst. rewrite Hkj in Hnd.
    apply NoDup_cons in Hnd as [Hnew _]. destruct Hnew. by apply (in_hand_elem ks i ki).
  - f_equal. apply IH; try done.
    destruct (Hard.in_hand k); [by apply NoDup_cons in Hnd as [_ ?] | done].
Qed.

Lemma in_hands_length (ks : list Hard.consumer) :
  length (Hard.in_hands ks) = (length (Hard.taken ks) + length (Hard.held ks))%nat.
Proof.
  unfold Hard.in_hands, Hard.taken, Hard.held.
  induction ks as [|k ks IH]; [done|]. destruct k; csimpl; lia.
Qed.

(** X1.  In the hard pool, however the consumers interleave and whatever
    the timeout, a channel is in one place at a time: the free queue holds
    no channel twice, no channel in the queue is in the hand of a consumer,
    and no two consumers have the same channel in hand; a consumer has a
    channel in hand from the moment its [Queue.get()] has taken it, before
    it is counted, until it leaves its scope. *)
Theorem hard_channel_has_one_holder
    (kwargs : list (string * option Z)) (unsafe : option bool)
    (tr : list Hard.event) (s : Hard.sys) :
  Hard.run (Hard.start kwargs unsafe) tr = Some s →
  NoDup (Hard._queue (Hard.the_pool s))
  ∧ (∀ i k c, Hard.consumers s !! i = Some k →
              k = Hard.Holding c ∨ k = Hard.Taken c →
              c ∉ Hard._queue (Hard.the_pool s))
  ∧ (∀ i j ki kj c, Hard.consumers s !! i = Some ki → Hard.consumers s !! j = Some kj →
                    ki = Hard.Holding c ∨ ki = Hard.Taken c →
                    kj = Hard.Holding c ∨ kj = Hard.Taken c → i = j).
Proof.
  intros Hrun. destruct (hard_run_owned kwargs unsafe tr s Hrun) as (Hnd & _).
  apply NoDup_app in Hnd as (Hqueue & Hdisjoint & Hhands).
  assert (∀ k c, k = Hard.Holding c ∨ k = Hard.Taken c → Hard.in_hand k = Some c)
    as Hhand by (by intros k c [-> | ->]).
  split; [done|]. split.
  - intros i k c Hi Hk Hin. apply (Hdisjoint c Hin).
    apply (in_hand_elem (Hard.consumers s) i k); auto.
  - intros i j ki kj c Hi Hj Hki Hkj.
    apply (in_hands_nodup_injective (Hard.consumers s) i j ki kj c); auto.
Qed.

Lemma hard_channel_has_one_holder_witness :
  (* channel 0 came back and was taken by the task of the third consumer,
     which has not counted it yet; the second consumer holds channel 1 *)
  let ks := [Hard.Returned; Hard.Holding 1%nat; Hard.Taken 0%nat] in
  NoDup ([] : list channel)
  ∧ (∀ i k c, ks !! i = Some k → k = Hard.Holding c ∨ k = Hard.Taken c → c ∉ [])
  ∧ (∀ i j ki kj c, ks !! i = Some ki → ks !! j = Some kj →
                    ki = Hard.Holding c ∨ ki = Hard.Taken c →
                    kj = Hard.Holding c ∨ kj = Hard.Taken c → i = j).
Proof.
  apply (hard_channel_has_one_holder
           [("max_channels", Some 2)] None
           [Hard.Begin; Hard.OpenDone 0 Hard.OpenOk; Hard.Begin;
            Hard.OpenDone 1 Hard.OpenOk; Hard.Begin; Hard.Run 2;
            Hard.Exit 0 Normal; Hard.Run 2]
           (Hard.Sys (Pool (Some 2) 1 (Some 10800) true [1%nat; 0%nat] []) 2
                     [Hard.Returned; Hard.Holding 1%nat; Hard.Taken 0%nat] []) eq_refl).
Defined.

(** X2.  In the hard pool, however the consumers interleave and whatever
    the timeout, [active_channels] is the number of consumers inside their
    scopes plus the number of scopes that were left by an exception.
    Together with the free queue and the channels that a finished
    [Queue.get()] has taken for a [wait_for] that has not resumed yet, it is
    the number of channels the pool has opened: each failed scope takes one
    channel out of circulation for good and the count never goes back
    below that. *)
Theorem hard_active_count_is_holders_plus_failed_scopes
    (kwargs : list (string * option Z)) (unsafe : option bool)
    (tr : list Hard.event) (s : Hard.sys) :
  Hard.run (Hard.start kwargs unsafe) tr = Some s →
  active_channels (Hard.the_pool s)
  = Z.of_nat (length (Hard.held (Hard.consumers s))) + Hard.failed_exits tr
  ∧ active_channels (Hard.the_pool s)
    + Z.of_nat (length (Hard._queue (Hard.the_pool s)))
    + Z.of_nat (length (Hard.taken (Hard.consumers s)))
    = Z.of_nat (length (_stack (Hard.the_pool s)))
  ∧ length (_stack (Hard.the_pool s)) = Hard.client s.
Proof.
  intros Hrun.
  destruct (hard_run_owned kwargs unsafe tr s Hrun) as (_ & _ & Hstack & Hcount & Hbeyond).
  rewrite length_app, in_hands_length in Hcount.
  repeat split; try done; lia.
Qed.

Lemma hard_active_count_is_holders_plus_failed_scopes_witness :
  (* one scope raised with channel 0; channel 1 came back and is taken, not
     yet counted, by the task of a consumer that waited; the count is 1 *)
  let ks := [Hard.Raised BrokenPipeError; Hard.Returned; Hard.Taken 1%nat] in
  let tr := [Hard.Begin; Hard.OpenDone 0 Hard.OpenOk; Hard.Exit 0 (Raising BrokenPipeError);
             Hard.Begin; Hard.OpenDone 1 Hard.OpenOk; Hard.Begin; Hard.Run 2;
             Hard.Exit 1 Normal; Hard.Run 2] in
  1 = Z.of_nat (length (Hard.held ks)) + Hard.failed_exits tr
  ∧ 1 + Z.of_nat (length ([] : list channel)) + Z.of_nat (length (Hard.taken ks))
    = Z.of_nat (length [1%nat; 0%nat]).
Proof.
  intros ks tr.
  destruct (hard_active_count_is_holders_plus_failed_scopes
              [("max_channels", Some 2)] None tr
              (Hard.Sys (Pool (Some 2) 1 (Some 10800) true [1%nat; 0%nat] []) 2 ks [])
              eq_refl) as (Hcount & Hsum & _).
  by split.
Defined.

(** ** Scopes left by an exception, and the strict policy *)

Section SoftHolding.

Implicit Types (p : Soft.soft) (s : Soft.sys) (ks : list Soft.consumer).

Lemma holding_snoc ks k :
  Soft.holding (ks ++ [k]) = Soft.holding ks + (if Soft.is_holding k then 1 else 0).
Proof.
  unfold Soft.holding. rewrite (count_snoc Soft.is_holding).
  destruct (Soft.is_holding k); lia.
Qed.

Lemma holding_insert ks i k0 k :
  ks !! i = Some k0 →
  Soft.holding (<[i := k]> ks)
  = Soft.holding ks - (if Soft.is_holding k0 then 1 else 0)
    + (if Soft.is_holding k then 1 else 0).
Proof.
  intros Hi. unfold Soft.holding.
  pose proof (count_insert Soft.is_holding ks i k0 k Hi) as Hcount.
  destruct (Soft.is_holding k0), (Soft.is_holding k); lia.
Qed.

Lemma finish_holding l p :
  active_channels (Soft.get_finish l p).1
  = active_channels p + (if Soft.is_holding (Soft.get_finish l p).2 then 1 else 0)
  ∧ unsafe_terminate (Soft.get_finish l p).1 = unsafe_terminate p.
Proof. destruct l as [c|]; simpl; split; try done; lia. Qed.

Lemma soft_step_holding s ev s' :
  Soft.step s ev = Some s' →
  active_channels (Soft.the_pool s') - Soft.holding (Soft.consumers s')
  = active_channels (Soft.the_pool s) - Soft.holding (Soft.consumers s)
    + (if Soft.is_failed_exit ev then 1 else 0)
  ∧ unsafe_terminate (Soft.the_pool s') = unsafe_terminate (Soft.the_pool s).
Proof.
  destruct ev as [|i o|i how]; simpl; intros Hstep.
  - inversion Hstep; subst; clear Hstep. cbn [Soft.the_pool Soft.consumers].
    rewrite holding_snoc, soft_get_start_cases. cbv zeta.
    destruct (_ && _); simpl; [split; [lia | done]|].
    destruct (finish_holding (Soft.least_used (Soft._channels (Soft.the_pool s))).1
                             (Soft.the_pool s)) as [-> ->].
    split; [lia | done].
  - destruct (Soft.consumers s !! i) as [[l n| | |]|] eqn:Hi; try done.
    inversion Hstep; subst; clear Hstep. cbn [Soft.the_pool Soft.consumers].
    rewrite (holding_insert _ i _ _ Hi). cbn [Soft.is_holding].
    unfold Soft.get_opened.
    destruct o as [|e]; cbn [Hard.to_result].
    + rewrite resume_opened. cbv iota beta.
      destruct (finish_holding (Some (Soft.client s))
                  (set_stack (Soft.client s :: _stack (Soft.the_pool s)) (Soft.the_pool s)))
        as [-> ->].
      simpl. split; [lia | done].
    + destruct (decide (e = ChannelOpenError)) as [-> | Hother].
      * rewrite resume_refused. cbv iota beta.
        destruct (finish_holding l
                    (set_max_channels (Some (active_channels (Soft.the_pool s)))
                                      (Soft.the_pool s))) as [-> ->].
        simpl. split; [lia | done].
      * rewrite resume_other_error by done. simpl. split; [lia | done].
  - destruct (Soft.consumers s !! i) as [[|c| |]|] eqn:Hi; try done.
    inversion Hstep; subst; clear Hstep. cbn [Soft.the_pool Soft.consumers].
    rewrite (holding_insert _ i _ _ Hi). destruct how; simpl; split; try done; lia.
Qed.

Lemma soft_run_holding tr s s' :
  Soft.run s tr = Some s' →
  active_channels (Soft.the_pool s') - Soft.holding (Soft.consumers s')
  = active_channels (Soft.the_pool s) - Soft.holding (Soft.consumers s)
    + Soft.failed_exits tr
  ∧ unsafe_terminate (Soft.the_pool s') = unsafe_terminate (Soft.the_pool s).
Proof.
  revert s. induction tr as [|ev tr IH]; intros s; simpl.
  - intros [= <-]. unfold Soft.failed_exits. simpl. split; [lia | done].
  - destruct (Soft.step s ev) as [s1|] eqn:Hstep; [|done]. intros Hrun.
    destruct (IH s1 Hrun) as [Hcount Hpolicy].
    destruct (soft_step_holding s ev s1 Hstep) as [Hcount1 Hpolicy1].
    split; [|by rewrite Hpolicy, Hpolicy1].
    assert (Soft.failed_exits (ev :: tr)
            = (if Soft.is_failed_exit ev then 1 else 0) + Soft.failed_exits tr) as ->.
    { unfold Soft.failed_exits. rewrite filter_cons.
      destruct (Soft.is_failed_exit ev); case_decide; simpl; try done; lia. }
    lia.
Qed.

End SoftHolding.

(** X3.  In the soft pool, however the consumers interleave,
    [active_channels] is the number of consumers inside their scopes plus
    the number of scopes that were left by an exception. *)
Theorem soft_active_count_is_holders_plus_failed_scopes
    (kwargs : list (string * option Z)) (unsafe : option bool)
    (tr : list Soft.event) (s : Soft.sys) :
  Soft.run (Soft.start kwargs unsafe) tr = Some s →
  active_channels (Soft.the_pool s)
  = Soft.holding (Soft.consumers s) + Soft.failed_exits tr.
Proof.
  intros Hrun. destruct (soft_run_holding tr _ s Hrun) as [Hcount _].
  unfold Soft.holding in Hcount at 2. simpl in Hcount. lia.
Qed.

Lemma soft_active_count_is_holders_plus_failed_scopes_witness :
  (* two consumers share channel 0; the scope of the first raises *)
  2 = Soft.holding [Soft.Raised BrokenPipeError; Soft.Holding 0%nat]
      + Soft.failed_exits
          [Soft.Begin; Soft.OpenDone 0 Hard.OpenOk; Soft.Begin;
           Soft.Exit 0 (Raising BrokenPipeError)].
Proof.
  apply (soft_active_count_is_holders_plus_failed_scopes
           [("max_channels", Some 1)] None
           [Soft.Begin; Soft.OpenDone 0 Hard.OpenOk; Soft.Begin;
            Soft.Exit 0 (Raising BrokenPipeError)]
           (Soft.Sys (Pool (Some 1) 2 (Some 10800) true [0%nat] [(0%nat, 2)]) 1
                     [Soft.Raised BrokenPipeError; Soft.Holding 0%nat]) eq_refl).
Defined.

(** X4.  A pool built with [unsafe_terminate=False] in which one scope was
    left by an exception can never be closed again: whatever happens
    afterwards, [close()] raises the [RuntimeError] about active channels
    and tears nothing down. *)
Theorem strict_pool_never_closes_after_failed_scope
    (kwargs : list (string * option Z)) (teardown : channel → option exn) :
  (∀ (tr : list Hard.event) (s : Hard.sys),
     Hard.run (Hard.start kwargs (Some false)) tr = Some s →
     0 < Hard.failed_exits tr →
     close teardown (Hard.the_pool s)
     = (Hard.the_pool s, [], Some (RuntimeError (leak_message "SFTPHardChannelPool"))))
  ∧ (∀ (tr : list Soft.event) (s : Soft.sys),
       Soft.run (Soft.start kwargs (Some false)) tr = Some s →
       0 < Soft.failed_exits tr →
       close teardown (Soft.the_pool s)
       = (Soft.the_pool s, [], Some (RuntimeError (leak_message "SFTPSoftChannelPool")))).
Proof.
  split; intros tr s Hrun Hfailed.
  - apply (close_strict_leak (HP := Hard.hard_pool)).
    + destruct (hard_run_owned kwargs (Some false) tr s Hrun) as (_ & _ & _ & _ & Hbeyond).
      lia.
    + by rewrite (hard_run_policy tr _ s Hrun).
  - destruct (soft_run_holding tr _ s Hrun) as [Hcount Hpolicy].
    apply (close_strict_leak (HP := Soft.soft_pool)).
    + unfold Soft.holding in Hcount. simpl in Hcount. lia.
    + by rewrite Hpolicy.
Qed.

Lemma strict_pool_never_closes_after_failed_scope_witness :
  (* the only scope ever opened raised; nobody holds a channel any more *)
  close (λ _, None) (Pool None 1 (Some 10800) false [0%nat] ([] : list channel))
  = (Pool None 1 (Some 10800) false [0%nat] [], [],
     Some (RuntimeError (leak_message "SFTPHardChannelPool"))).
Proof.
  apply (proj1 (strict_pool_never_closes_after_failed_scope [] (λ _, None))
               [Hard.Begin; Hard.OpenDone 0 Hard.OpenOk; Hard.Exit 0 (Raising BrokenPipeError)]
               (Hard.Sys (Pool None 1 (Some 10800) false [0%nat] []) 1
                         [Hard.Raised BrokenPipeError] []) eq_refl).
  reflexivity.
Defined.

(** ** Closing twice, and reusing a channel *)

(** X5.  Once [close()] has gone past the leak check, a second [close()]
    returns normally and tears nothing down, also when the first one raised
    because a teardown did: the exit stack was emptied the first time, so
    the teardown of a channel runs at most once. *)
Theorem second_close_tears_nothing_down (teardown teardown' : channel → option exn) :
  (∀ p : Hard.hard,
     unsafe_terminate p = true ∨ active_channels p = 0 →
     close teardown' (close teardown p).1.1 = ((close teardown p).1.1, [], None))
  ∧ (∀ p : Soft.soft,
       unsafe_terminate p = true ∨ active_channels p = 0 →
       close teardown' (close teardown p).1.1 = ((close teardown p).1.1, [], None)).
Proof.
  split; intros p Hgo.
  - rewrite (close_tears_down (HP := Hard.hard_pool) teardown p) by tauto. simpl.
    rewrite (close_tears_down (HP := Hard.hard_pool)) by (simpl; tauto).
    simpl. by rewrite !drain_empty.
  - rewrite (close_tears_down (HP := Soft.soft_pool) teardown p) by tauto. simpl.
    by rewrite (close_tears_down (HP := Soft.soft_pool)) by (simpl; tauto).
Qed.

Lemma second_close_tears_nothing_down_witness :
  (* the teardown of channel 0 raises at the first close *)
  close (λ _, Some BrokenPipeError) (Pool None 0 None true [] ([] : list channel))
  = (Pool None 0 None true [] [], [], None).
Proof.
  apply (proj1 (second_close_tears_nothing_down
                  (λ _, Some BrokenPipeError) (λ _, Some BrokenPipeError))
               (Pool None 0 None true [0%nat] [0%nat]) (or_introl eq_refl)).
Defined.

Lemma counter_set_set c v w cs :
  Soft.counter_set c v (Soft.counter_set c w cs) = Soft.counter_set c v cs.
Proof.
  induction cs as [|[c' n] cs IH]; simpl.
  - by rewrite bool_decide_eq_true_2.
  - case_bool_decide as Hc; simpl.
    + by rewrite bool_decide_eq_true_2.
    + rewrite bool_decide_eq_false_2 by done. by rewrite IH.
Qed.

Lemma counter_set_get c cs :
  c ∈ cs.*1 → Soft.counter_set c (Soft.counter_get c cs) cs = cs.
Proof.
  induction cs as [|[c' n] cs IH]; csimpl; intros Hin.
  - by apply elem_of_nil in Hin.
  - case_bool_decide as Hc; [by subst|].
    rewrite IH; [done|]. apply elem_of_cons in Hin as [-> | Hin]; done.
Qed.

Lemma acquire_alone_nonpositive r ds (p : Hard.hard) t :
  Hard._queue p ≠ [] → timeout p = Some t → t ≤ 0 →
  Hard.acquire_alone r ds p = (p, Hard.Raised TimeoutError).
Proof.
  intros Hq Ht Hle. unfold Hard.acquire_alone, Hard.get_start.
  rewrite bool_decide_eq_false_2 by done.
  rewrite not_opening_id by apply wait_for_get_not_opening.
  rewrite (settle_wait_nonpositive p t Ht Hle).
  by rewrite keep_waiting_settled.
Qed.

(** X6.  A consumer that finds a channel free makes no creation attempt.
    In the soft pool, if the least used channel had no user, it is handed
    that channel, and when it leaves its scope normally the pool is exactly
    as it was before.  In the hard pool, if that channel was the only one
    queued, the same holds provided the timeout is [None] or positive; with
    a timeout that is not positive the acquisition ends in [TimeoutError]
    and the channel stays in the queue.  So a pool used by one consumer
    after the other keeps serving the same channel and opens no further
    one, however many times. *)
Theorem reuse_cycle_restores_the_pool :
  (∀ (p : Hard.hard) (c : channel) (r : open_result) (ds : list Z) (n : nat),
     Hard._queue p = [c] →
     (Hard.get_start p).2 ≠ Hard.Opening
     ∧ (Hard.unbounded_or_positive p →
        (Hard.acquire_alone r ds p).2 = Hard.Holding c
        ∧ Nat.iter n (Hard.pass_through r ds) p = p)
     ∧ (∀ t, timeout p = Some t → t ≤ 0 →
          Hard.acquire_alone r ds p = (p, Hard.Raised TimeoutError)
          ∧ Nat.iter n (Hard.pass_through r ds) p = p))
  ∧ (∀ (p : Soft.soft) (c : channel) (n : nat),
       Soft.least_used (Soft._channels p) = (Some c, 0) →
       (∀ l m, (Soft.get_start p).2 ≠ Soft.Opening l m)
       ∧ (Soft.get_start p).2 = Soft.Holding c
       ∧ Nat.iter n Soft.pass_through p = p).
Proof.
  split.
  - intros p c r ds n Hq. split; [|split].
    + unfold Hard.get_start. rewrite bool_decide_eq_false_2 by (by rewrite Hq).
      apply wait_for_get_not_opening.
    + intros Hbound.
      pose proof (acquire_alone_takes_head r ds p c [] Hbound Hq) as Hstart.
      assert (Hard.pass_through r ds p = p) as Hcycle.
      { unfold Hard.pass_through. rewrite Hstart. clear Hstart Hbound.
        destruct p as [m a t u st q]. unfold Hard._queue in Hq. simpl in Hq. subst q.
        unfold Hard.get_exit, Hard.release, Hard._queue. simpl.
        unfold set_sub, set_active_channels. simpl. f_equal. lia. }
      split; [by rewrite Hstart|].
      induction n as [|n IH]; [done|]. simpl. by rewrite IH.
    + intros t Ht Hle.
      assert (Hard.acquire_alone r ds p = (p, Hard.Raised TimeoutError)) as Hstart.
      { apply (acquire_alone_nonpositive r ds p t); try done. by rewrite Hq. }
      split; [done|].
      assert (Hard.pass_through r ds p = p) as Hcycle.
      { unfold Hard.pass_through. by rewrite Hstart. }
      induction n as [|n IH]; [done|]. simpl. by rewrite IH.
  - intros p c n Hl.
    assert (Soft.get_start p = Soft.get_finish (Some c) p) as Hstart.
    { by rewrite soft_get_start_cases, Hl. }
    assert (Soft.pass_through p = p) as Hcycle.
    { unfold Soft.pass_through. rewrite Hstart. clear Hstart.
      apply least_used_some in Hl as [Hin _].
      assert (c ∈ (Soft._channels p).*1) as Hkey.
      { apply list_elem_of_fmap. by exists (c, 0). }
      destruct p as [m a t u st cs]. unfold Soft._channels in *. simpl in *.
      unfold Soft.release, Soft._channels, set_sub, set_active_channels. simpl.
      unfold Soft.counter_add. rewrite counter_get_set, counter_set_set.
      replace (Soft.counter_get c cs + 1 + -1) with (Soft.counter_get c cs) by lia.
      rewrite counter_set_get by done. f_equal. lia. }
    split; [|split].
    + intros l m. by rewrite Hstart.
    + by rewrite Hstart.
    + induction n as [|n IH]; [done|]. simpl. by rewrite IH.
Qed.

Lemma reuse_cycle_restores_the_pool_witness :
  Nat.iter 3 (Hard.pass_through (OpenRaised ChannelOpenError) [])
           (Pool (Some 1) 0 (Some 10800) true [0%nat] [0%nat])
  = Pool (Some 1) 0 (Some 10800) true [0%nat] [0%nat]
  ∧ Hard.acquire_alone (OpenRaised ChannelOpenError) []
                       (Pool (Some 1) 0 (Some 0) true [0%nat] [0%nat])
    = (Pool (Some 1) 0 (Some 0) true [0%nat] [0%nat], Hard.Raised TimeoutError)
  ∧ Nat.iter 3 Soft.pass_through (Pool None 0 (Some 10800) true [0%nat] [(0%nat, 0)])
    = Pool None 0 (Some 10800) true [0%nat] [(0%nat, 0)].
Proof.
  destruct reuse_cycle_restores_the_pool as [Hhard Hsoft].
  split; [|split].
  - destruct (Hhard (Pool (Some 1) 0 (Some 10800) true [0%nat] [0%nat]) 0%nat
                    (OpenRaised ChannelOpenError) [] 3%nat eq_refl) as (_ & Hcycle & _).
    apply Hcycle. right. exists 10800. split; [reflexivity | lia].
  - destruct (Hhard (Pool (Some 1) 0 (Some 0) true [0%nat] [0%nat]) 0%nat
                    (OpenRaised ChannelOpenError) [] 3%nat eq_refl) as (_ & _ & Hzero).
    apply (Hzero 0 eq_refl). lia.
  - apply (Hsoft (Pool None 0 (Some 10800) true [0%nat] [(0%nat, 0)]) 0%nat 3%nat eq_refl).
Defined.

(** X7.  At the start of [get()] the soft pool calls for a new channel
    exactly when every channel it knows has at least one user (or it knows
    none) and the capacity allows one more; as soon as some channel is
    idle, [get()] makes no attempt and hands out a channel that had no
    user. *)
Theorem soft_creates_only_when_all_busy (p : Soft.soft) :
  ((∃ l n, (Soft.get_start p).2 = Soft.Opening l n)
   ↔ may_open p = true ∧ ∀ c n, (c, n) ∈ Soft._channels p → 1 ≤ n)
  ∧ (∀ c0 n0, (c0, n0) ∈ Soft._channels p → n0 ≤ 0 →
       (∀ l n, (Soft.get_start p).2 ≠ Soft.Opening l n)
       ∧ ∃ c n, (c, n) ∈ Soft._channels p ∧ n ≤ 0
                ∧ (Soft.get_start p).2 = Soft.Holding c).
Proof.
  split.
  - rewrite soft_get_start_cases. cbv zeta.
    destruct (Soft.least_used (Soft._channels p)) as [l n] eqn:Hl. simpl. split.
    + intros (l' & n' & Hopening).
      destruct (bool_decide (n > 0)) eqn:Hpos; simpl in Hopening.
      * apply bool_decide_eq_true in Hpos.
        destruct (may_open p) eqn:Hopen.
        -- split; [done|]. intros c m Hin.
           apply (least_used_busy _ _ _ Hl Hpos (c, m) Hin).
        -- by destruct l.
      * by destruct l.
    + intros [Hopen Hbusy]. exists l, n.
      assert (n > 0) as Hpos.
      { destruct l as [c|].
        - apply least_used_some in Hl as [Hin _]. specialize (Hbusy c n Hin). lia.
        - apply least_used_none in Hl as [_ ->]. lia. }
      by rewrite bool_decide_eq_true_2, Hopen.
  - intros c0 n0 Hin0 Hidle.
    destruct (Soft.least_used (Soft._channels p)) as [[c|] n] eqn:Hl.
    + destruct (least_used_some _ _ _ Hl) as [Hin Hleast].
      specialize (Hleast _ Hin0). simpl in Hleast.
      rewrite soft_get_start_cases, Hl. simpl.
      rewrite bool_decide_eq_false_2 by lia. simpl.
      split; [done|]. exists c, n. repeat split; [done | lia].
    + apply least_used_none in Hl as [Hempty _]. rewrite Hempty in Hin0.
      by apply elem_of_nil in Hin0.
Qed.

Lemma soft_creates_only_when_all_busy_witness :
  (∃ l n, (Soft.get_start (Pool None 3 None true [1%nat; 0%nat] [(0%nat, 2); (1%nat, 1)])).2
          = Soft.Opening l n)
  ∧ (∀ l n, (Soft.get_start (Pool (Some 3) 3 None true [1%nat; 0%nat]
                                  [(0%nat, 2); (1%nat, 1)])).2
            ≠ Soft.Opening l n)
  ∧ (∀ l n, (Soft.get_start (Pool None 2 None true [1%nat; 0%nat]
                                  [(0%nat, 2); (1%nat, 0)])).2
            ≠ Soft.Opening l n).
Proof.
  split; [|split].
  - apply (proj1 (soft_creates_only_when_all_busy
                    (Pool None 3 None true [1%nat; 0%nat] [(0%nat, 2); (1%nat, 1)]))).
    split; [reflexivity|]. intros c n Hin.
    apply elem_of_cons in Hin as [[= -> ->] | Hin]; [lia|].
    apply elem_of_cons in Hin as [[= -> ->] | Hin]; [lia|].
    by apply elem_of_nil in Hin.
  - intros l n Hopening.
    destruct (proj1 (proj1 (soft_creates_only_when_all_busy
                              (Pool (Some 3) 3 None true [1%nat; 0%nat]
                                    [(0%nat, 2); (1%nat, 1)])))
                    (ex_intro _ l (ex_intro _ n Hopening))) as [Hopen _].
    discriminate.
  - apply (proj2 (soft_creates_only_when_all_busy
                    (Pool None 2 None true [1%nat; 0%nat] [(0%nat, 2); (1%nat, 0)]))
                 1%nat 0).
    + right. left.
    + lia.
Defined.

(** ** Keyword arguments *)

Lemma kwarg_cons {A : Type} (name k : string) (v : A) (kwargs : list (string * A)) (d : A) :
  kwarg name ((k, v) :: kwargs) d = if decide (k = name) then v else kwarg name kwargs d.
Proof.
  unfold kwarg. simpl. case_decide; [done|].
  by destruct (list_find _ kwargs) as [[? ?]|].
Qed.

Lemma kwarg_missing {A : Type} (name : string) (kwargs : list (string * A)) (d : A) :
  name ∉ kwargs.*1 → kwarg name kwargs d = d.
Proof.
  induction kwargs as [|[k v] kwargs IH]; csimpl; [done|].
  intros [Hne Hnotin]%not_elem_of_cons. rewrite kwarg_cons.
  case_decide; [congruence | by apply IH].
Qed.

Lemma drop_unset_keys ns : (_drop_unset ns).*1 ⊆ ns.*1.
Proof.
  unfold _drop_unset. induction ns as [|[k a] ns IH]; csimpl; [done|].
  destruct a as [|v]; csimpl.
  - intros x Hx. right. by apply IH.
  - intros x [-> | Hx]%elem_of_cons; [by left | right; by apply IH].
Qed.

(** X8.  [_drop_unset] keeps exactly the arguments that were given, in
    their order, so a parameter bound from its result is the value given,
    [None] included, when one was given, and the callee's default when the
    argument was left unset or is not in the namespace at all.  For the pool
    of [SSHFileSystem]: [max_sftp_channels=None] and leaving it out both
    mean no capacity. *)
Theorem unset_arguments_take_the_default (ns : list (string * arg)) (name : string)
    (d : option Z) :
  NoDup ns.*1 →
  (∀ a, (name, a) ∈ ns →
        kwarg name (_drop_unset ns) d = match a with _UNSET => d | Given v => v end)
  ∧ (name ∉ ns.*1 → kwarg name (_drop_unset ns) d = d)
  ∧ (∀ k v, (k, v) ∈ _drop_unset ns ↔ (k, Given v) ∈ ns)
  ∧ (∀ (max_sftp_channels wait_timeout : arg) (unsafe : option bool),
       max_channels (Hard.init (SSHFileSystem._pool_args max_sftp_channels wait_timeout)
                               unsafe)
       = match max_sftp_channels with _UNSET => None | Given v => v end).
Proof.
  intros Hnodup. repeat apply conj.
  - induction ns as [|[k a0] ns IH]; intros a Hin; [by apply elem_of_nil in Hin|].
    apply NoDup_cons in Hnodup as [Hfirst Hnodup].
    apply elem_of_cons in Hin as [[= <- <-] | Hin].
    + unfold _drop_unset. csimpl. destruct a as [|v]; csimpl.
      * apply kwarg_missing. intros Hin. apply Hfirst.
        by apply (drop_unset_keys ns).
      * rewrite kwarg_cons. by case_decide.
    + assert (k ≠ name) as Hne.
      { intros ->. apply Hfirst. apply list_elem_of_fmap. by exists (name, a). }
      unfold _drop_unset in *. csimpl. destruct a0 as [|v0]; csimpl.
      * by apply IH.
      * rewrite kwarg_cons. case_decide; [done | by apply IH].
  - intros Hnotin. apply kwarg_missing. intros Hin. apply Hnotin.
    by apply (drop_unset_keys ns).
  - intros k v. unfold _drop_unset. rewrite list_elem_of_omap. split.
    + intros ([k' a] & Hin & Hf). simpl in Hf. destruct a as [|v']; [done|].
      by inversion Hf; subst.
    + intros Hin. by exists (k, Given v).
  - intros m w unsafe. by destruct m, w.
Qed.

Lemma unset_arguments_take_the_default_witness :
  kwarg "timeout" (_drop_unset [("max_channels", Given (Some 4)); ("timeout", _UNSET)])
        (Some 10800) = Some 10800
  ∧ kwarg "timeout" (_drop_unset [("max_channels", _UNSET); ("timeout", Given None)])
          (Some 10800) = None.
Proof.
  assert (NoDup ["max_channels"; "timeout"]) as Hkeys.
  { apply NoDup_cons. split; [|apply NoDup_singleton].
    rewrite list_elem_of_singleton. discriminate. }
  split.
  - apply (proj1 (unset_arguments_take_the_default
                    [("max_channels", Given (Some 4)); ("timeout", _UNSET)]
                    "timeout" (Some 10800) Hkeys) _UNSET).
    right. left.
  - apply (proj1 (unset_arguments_take_the_default
                    [("max_channels", _UNSET); ("timeout", Given None)]
                    "timeout" (Some 10800) Hkeys) (Given None)).
    right. left.
Defined.

(** * Properties of the file system methods *)

Module Ops := SSHFileSystemOps.

(** ** [wrap_exceptions] *)

Section Suffix.

Lemma substring_whole (s : string) : String.substring 0 (String.length s) s = s.
Proof. induction s as [|a s IH]; simpl; [done | by rewrite IH]. Qed.

Lemma substring_skip (pre s : string) (m : nat) :
  String.substring (String.length pre) m (pre +:+ s) = String.substring 0 m s.
Proof. induction pre as [|a pre IH]; simpl; [done | exact IH]. Qed.

Lemma string_length_app (s1 s2 : string) :
  String.length (s1 +:+ s2) = (String.length s1 + String.length s2)%nat.
Proof. induction s1 as [|a s1 IH]; simpl; [done | by rewrite IH]. Qed.

Lemma substring_split (s : string) (k : nat) :
  (k ≤ String.length s)%nat →
  s = String.substring 0 k s +:+ String.substring k (String.length s - k) s.
Proof.
  revert k. induction s as [|a s IH]; intros k Hk; simpl in *.
  - by destruct k.
  - destruct k as [|k]; simpl.
    + by rewrite substring_whole.
    + change (String a s
              = String a (String.substring 0 k s
                          +:+ String.substring k (String.length s - k) s)).
      f_equal. apply IH. lia.
Qed.

(** [ends_with] is [str.endswith]: the string is some prefix followed by
    the suffix. *)
Lemma ends_with_iff (suffix s : string) :
  Ops.ends_with suffix s = true ↔ ∃ pre, s = pre +:+ suffix.
Proof.
  unfold Ops.ends_with. rewrite andb_true_iff, Nat.leb_le, bool_decide_eq_true. split.
  - intros [Hlen Hsub].
    exists (String.substring 0 (String.length s - String.length suffix) s).
    pose proof (substring_split s (String.length s - String.length suffix)
                  ltac:(lia)) as Hs.
    replace (String.length s - (String.length s - String.length suffix))%nat
      with (String.length suffix) in Hs by lia.
    by rewrite Hsub in Hs.
  - intros [pre ->]. rewrite string_length_app. split; [lia|].
    replace (String.length pre + String.length suffix - String.length suffix)%nat
      with (String.length pre) by lia.
    by rewrite substring_skip, substring_whole.
Qed.

End Suffix.

Section Wrap.

Variables _NOT_FOUND _FILE_EXISTS : string.
Variable strip : string → string.

Local Abbreviation wrap := (Ops.wrap_exceptions _NOT_FOUND _FILE_EXISTS strip).

Lemma wrap_return {A : Type} (a : A) : wrap (Ops.Return a) = Ops.Return a.
Proof. reflexivity. Qed.

Lemma wrap_twice {A : Type} (o : Ops.outcome A) : wrap (wrap o) = wrap o.
Proof.
  destruct o as [a|e|]; try done. destruct e; simpl; try done.
  - destruct (Ops.ends_with "already exists" reason) eqn:Hends; simpl; [done|].
    by rewrite Hends.
  - destruct (Ops.ends_with _NOT_FOUND (strip stderr)) eqn:Hends; simpl; [done|].
    by rewrite Hends.
Qed.

(** X9.  [wrap_exceptions] changes nothing in a method that returns, and
    nothing when applied a second time, as happens for every method that
    calls another wrapped method.  What it lets out is never asyncssh's
    [PermissionDenied] or [SFTPNoSuchFile]; an [SFTPFailure] becomes
    [FileExistsError] exactly when its reason ends in "already exists", and
    a [ProcessError] becomes [FileNotFoundError] exactly when its stripped
    error output ends in the system's text for [ENOENT]; every other
    exception passes as it is. *)
Theorem wrap_exceptions_translates_once {A : Type} (o : Ops.outcome A) :
  wrap (wrap o) = wrap o
  ∧ (∀ a, o = Ops.Return a → wrap o = o)
  ∧ (∀ e, wrap o = Ops.Raise e →
          (∀ r, e ≠ Ops.PermissionDenied r) ∧ (∀ r, e ≠ Ops.SFTPNoSuchFile r))
  ∧ (∀ reason,
       wrap (Ops.Raise (A := A) (Ops.SFTPFailure reason))
       = (if Ops.ends_with "already exists" reason
          then Ops.Raise (Ops.FileExistsError Ops.EEXIST _FILE_EXISTS)
          else Ops.Raise (Ops.SFTPFailure reason))
       ∧ (Ops.ends_with "already exists" reason = true
          ↔ ∃ pre, reason = pre +:+ "already exists"))
  ∧ (∀ stderr,
       wrap (Ops.Raise (A := A) (Ops.ProcessError stderr))
       = (if Ops.ends_with _NOT_FOUND (strip stderr)
          then Ops.Raise (Ops.FileNotFoundError Ops.ENOENT _NOT_FOUND)
          else Ops.Raise (Ops.ProcessError stderr))
       ∧ (Ops.ends_with _NOT_FOUND (strip stderr) = true
          ↔ ∃ pre, strip stderr = pre +:+ _NOT_FOUND))
  ∧ (∀ e, (∀ r, e ≠ Ops.PermissionDenied r) → (∀ r, e ≠ Ops.SFTPNoSuchFile r) →
          (∀ r, e ≠ Ops.SFTPFailure r) → (∀ r, e ≠ Ops.ProcessError r) →
          wrap (Ops.Raise (A := A) e) = Ops.Raise e).
Proof.
  repeat apply conj.
  - apply wrap_twice.
  - by intros a ->.
  - intros e He. destruct o as [a|e0|]; try done.
    destruct e0; simpl in He;
      repeat match goal with
             | H : (if ?b then _ else _) = _ |- _ => destruct b
             end;
      inversion He; subst; by split.
  - intros reason. split; [by simpl; destruct (Ops.ends_with _ _) | apply ends_with_iff].
  - intros stderr. split; [by simpl; destruct (Ops.ends_with _ _) | apply ends_with_iff].
  - intros e H1 H2 H3 H4. destruct e; try done.
    + by destruct (H1 reason).
    + by destruct (H2 reason).
    + by destruct (H3 reason).
    + by destruct (H4 stderr).
Qed.

End Wrap.

Lemma wrap_exceptions_translates_once_witness :
  Ops.wrap_exceptions "No such file or directory" "File exists" (λ s, s)
    (Ops.Raise (A := unit) (Ops.Other TimeoutError))
  = Ops.Raise (Ops.Other TimeoutError)
  ∧ Ops.wrap_exceptions "No such file or directory" "File exists" (λ s, s)
      (Ops.Return 5) = Ops.Return 5.
Proof.
  destruct (wrap_exceptions_translates_once
              "No such file or directory" "File exists" (λ s, s)
              (Ops.Return 5)) as (_ & Hreturn & _ & _ & _ & _).
  destruct (wrap_exceptions_translates_once
              "No such file or directory" "File exists" (λ s, s)
              (Ops.Return ())) as (_ & _ & _ & _ & _ & Hother).
  split.
  - apply Hother; discriminate.
  - apply (Hreturn 5). reflexivity.
Defined.

(** ** [_decode_attributes] *)

Lemma permission_bits_outside_format (low : Z) :
  0 ≤ low < 4096 → Z.land low 61440 = 0.
Proof.
  intros Hlow. apply Z.bits_inj'. intros n Hn.
  rewrite Z.land_spec, Z.bits_0.
  destruct (decide (n < 12)) as [Hsmall | Hlarge].
  - change 61440 with (Z.shiftl 15 12).
    rewrite Z.shiftl_spec_low by done. apply andb_false_r.
  - destruct (decide (low = 0)) as [-> | Hpos]; [by rewrite Z.bits_0|].
    rewrite (Z.bits_above_log2 low n); [done | lia |].
    assert (Z.log2 low < 12); [|lia].
    apply Z.log2_lt_pow2; lia.
Qed.

Lemma format_ignores_permission_bits (mode low : Z) :
  0 ≤ low < 4096 → Ops.S_IFMT (Z.lor mode low) = Ops.S_IFMT mode.
Proof.
  intros Hlow. unfold Ops.S_IFMT.
  rewrite Z.land_lor_distr_l. rewrite (permission_bits_outside_format low Hlow).
  apply Z.lor_0_r.
Qed.

Lemma mode_with_permission_bits (mode low : Z) :
  0 ≤ mode < 2 ^ 32 → 0 ≤ low < 4096 → 0 ≤ Z.lor mode low < 2 ^ 32.
Proof.
  intros Hmode Hlow.
  assert (0 ≤ Z.lor mode low) as Hnn by (apply Z.lor_nonneg; lia).
  split; [done|].
  destruct (decide (Z.lor mode low = 0)) as [-> | Hpos]; [lia|].
  apply Z.log2_lt_pow2; [lia|].
  rewrite Z.log2_lor by lia.
  apply Z.max_lub_lt.
  - destruct (decide (mode = 0)) as [-> | ?]; [cbn; lia|]. apply Z.log2_lt_pow2; lia.
  - destruct (decide (low = 0)) as [-> | ?]; [cbn; lia|]. apply Z.log2_lt_pow2; lia.
Qed.

(** X10.  [_decode_attributes] raises [TypeError] when the server sent no
    permissions and [OverflowError] when they do not fit 32 bits, before
    anything else is looked at; after that, an error of
    [utcfromtimestamp], on [atime] first, is the error of the call.
    Otherwise it returns, and the type it reports depends on the file type
    bits of [permissions] alone: setting any of the twelve permission bits
    changes nothing, so a mode made of [S_IFDIR], [S_IFREG] or [S_IFLNK] and
    permission bits is a "directory", a "file" or a "link", while the other
    file types of [stat] (socket, block and character device, fifo) are
    "unknown".  The sizes, owners and the permissions themselves are passed
    on as they are, ["time"] from [atime] and ["mtime"] from [mtime]. *)
Theorem file_type_ignores_permission_bits {D : Type}
    (utcfromtimestamp : option Z → exn + D) (a : Ops.attributes) (mode low : Z) :
  0 ≤ mode < 2 ^ 32 →
  0 ≤ low < 4096 →
  Ops.kind_of (Some (Z.lor mode low)) = Ops.kind_of (Some mode)
  ∧ Ops.kind_of (Some (Z.lor Ops.S_IFDIR low)) = inr "directory"
  ∧ Ops.kind_of (Some (Z.lor Ops.S_IFREG low)) = inr "file"
  ∧ Ops.kind_of (Some (Z.lor Ops.S_IFLNK low)) = inr "link"
  ∧ Forall (λ other, Ops.kind_of (Some (Z.lor other low)) = inr "unknown")
           [49152; 24576; 8192; 4096; 0]
  ∧ (∃ kind, Ops.kind_of (Some mode) = inr kind)
  ∧ Ops.kind_of None = inl (OtherException "TypeError")
  ∧ (∀ wide, ¬ (0 ≤ wide < 2 ^ 32) →
       Ops.kind_of (Some wide) = inl (OtherException "OverflowError"))
  ∧ (∀ e, Ops.kind_of (Ops.attr_permissions a) = inl e →
          Ops._decode_attributes utcfromtimestamp a = inl e)
  ∧ (∀ kind, Ops.kind_of (Ops.attr_permissions a) = inr kind →
       (∀ e, utcfromtimestamp (Ops.attr_atime a) = inl e →
             Ops._decode_attributes utcfromtimestamp a = inl e)
       ∧ (∀ time e, utcfromtimestamp (Ops.attr_atime a) = inr time →
                    utcfromtimestamp (Ops.attr_mtime a) = inl e →
                    Ops._decode_attributes utcfromtimestamp a = inl e)
       ∧ (∀ time mtime, utcfromtimestamp (Ops.attr_atime a) = inr time →
                        utcfromtimestamp (Ops.attr_mtime a) = inr mtime →
            ∃ i, Ops._decode_attributes utcfromtimestamp a = inr i
                 ∧ Ops.info_name i = None
                 ∧ Ops.info_type i = kind
                 ∧ Ops.info_permissions i = Ops.attr_permissions a
                 ∧ Ops.info_size i = Ops.attr_size a
                 ∧ Ops.info_uid i = Ops.attr_uid a ∧ Ops.info_gid i = Ops.attr_gid a
                 ∧ Ops.info_time i = time
                 ∧ Ops.info_mtime i = mtime)).
Proof.
  intros Hmode Hlow.
  assert (∀ m, 0 ≤ m < 2 ^ 32 →
               Ops.kind_of (Some (Z.lor m low)) = Ops.kind_of (Some m)) as Hkind.
  { intros m Hm. unfold Ops.kind_of, Ops.as_mode.
    rewrite (bool_decide_eq_true_2 (0 ≤ m < 2 ^ 32)) by done.
    rewrite (bool_decide_eq_true_2 (0 ≤ Z.lor m low < 2 ^ 32))
      by (by apply mode_with_permission_bits).
    by rewrite format_ignores_permission_bits. }
  split; [by apply Hkind|].
  rewrite !Hkind by (unfold Ops.S_IFDIR, Ops.S_IFREG, Ops.S_IFLNK; lia).
  split; [done|]. split; [done|]. split; [done|].
  split; [repeat constructor; by rewrite Hkind by lia|].
  split.
  { unfold Ops.kind_of, Ops.as_mode. rewrite bool_decide_eq_true_2 by done. eauto. }
  split; [done|]. split.
  { intros wide Hwide. unfold Ops.kind_of, Ops.as_mode.
    by rewrite bool_decide_eq_false_2. }
  unfold Ops._decode_attributes. split.
  - by intros e ->.
  - intros kind ->. split; [|split].
    + by intros e ->.
    + by intros time e -> ->.
    + intros time mtime -> ->. eexists. by repeat split.
Qed.

Lemma file_type_ignores_permission_bits_witness :
  (* 0o040755, a directory rwxr-xr-x; 0o100644, a file rw-r--r--; a server
     that sent no permissions *)
  Ops.kind_of (Some 16877) = inr "directory" ∧ Ops.kind_of (Some 33188) = inr "file"
  ∧ Ops._decode_attributes (λ t, inr t)
      (Ops.Attributes (Some 3) None (Some 0) (Some 0) (Some 0) (Some 0))
    = inl (OtherException "TypeError").
Proof.
  destruct (file_type_ignores_permission_bits
              (λ t, inr t) (Ops.Attributes (Some 3) None (Some 0) (Some 0) (Some 0) (Some 0))
              0 493)
    as (_ & Hdir & _ & _ & _ & _ & _ & _ & Hraise & _); [lia | lia |].
  destruct (file_type_ignores_permission_bits
              (λ t, inr t) (Ops.Attributes (Some 3) None (Some 0) (Some 0) (Some 0) (Some 0))
              0 420)
    as (_ & _ & Hreg & _); [lia | lia |].
  split; [exact Hdir|]. split; [exact Hreg|]. by apply Hraise.
Defined.

(** ** The methods *)

Section MethodProperties.

Context {D : Type} (utcfromtimestamp : option Z → exn + D).
Variables _NOT_FOUND _FILE_EXISTS : string.
Variables (strip : string → string) (split : string → list string).
Variables (quote repr : string → string).
Context {P : Type} {HP : Ops.Pooled P}.

Local Abbreviation wrap := (Ops.wrap_exceptions _NOT_FOUND _FILE_EXISTS strip).
Local Abbreviation _ls := (Ops._ls utcfromtimestamp _NOT_FOUND _FILE_EXISTS strip).
Local Abbreviation _mkdir := (Ops._mkdir _NOT_FOUND _FILE_EXISTS strip).
Local Abbreviation _makedirs := (Ops._makedirs _NOT_FOUND _FILE_EXISTS strip).
Local Abbreviation _mv := (Ops._mv _NOT_FOUND _FILE_EXISTS strip quote).
Local Abbreviation _checksum :=
  (Ops._checksum _NOT_FOUND _FILE_EXISTS strip split quote repr).
Local Abbreviation kept := (λ fa, Ops.skipped (Ops.filename fa) = false).

(** [i] is the entry of the listing of [path] made from [fa]. *)
Local Abbreviation entry :=
  (λ path fa i,
     ∃ decoded, Ops._decode_attributes utcfromtimestamp (Ops.attrs fa) = inr decoded
                ∧ i = Ops.set_name (SSHFile.posixpath_join path (Ops.filename fa)) decoded).

Lemma skipped_false_iff (name : string) :
  Ops.skipped name = false ↔ name ≠ "" ∧ name ≠ "." ∧ name ≠ "..".
Proof using Type.
  unfold Ops.skipped. rewrite !orb_false_iff, !bool_decide_eq_false.
  split; [intros [[? ?] ?] | intros (? & ? & ?)]; by repeat split.
Qed.

(** The loop ends with the entries of the names it keeps, in their order,
    after what it began with; or with the error of the first of them that
    cannot be decoded. *)
Lemma ls_loop_filter_map path file_attrs infos :
  match Ops.ls_loop utcfromtimestamp path file_attrs infos with
  | inr result =>
      ∃ added, result = infos ++ added
               ∧ Forall2 (entry path) (filter kept file_attrs) added
  | inl e =>
      ∃ fa, fa ∈ filter kept file_attrs
            ∧ Ops._decode_attributes utcfromtimestamp (Ops.attrs fa) = inl e
  end.
Proof using Type.
  revert infos. induction file_attrs as [|fa rest IH]; intros infos; simpl.
  - exists []. by rewrite app_nil_r.
  - rewrite filter_cons. destruct (Ops.skipped (Ops.filename fa)) eqn:Hskip.
    + rewrite decide_False by done. apply IH.
    + rewrite decide_True by done.
      destruct (Ops._decode_attributes utcfromtimestamp (Ops.attrs fa))
        as [e|decoded] eqn:Hdecode.
      * exists fa. split; [by left | done].
      * specialize (IH (infos ++ [Ops.set_name
                                    (SSHFile.posixpath_join path (Ops.filename fa))
                                    decoded])).
        destruct (Ops.ls_loop _ _ _ _) as [e|result].
        -- destruct IH as (fa' & Hin & Hfail). exists fa'. split; [by right | done].
        -- destruct IH as (added & -> & Hadded).
           eexists (_ :: added). rewrite <- app_assoc. split; [done|].
           constructor; [by exists decoded | done].
Qed.

Lemma entry_names path (fas : list Ops.file_attr) infos :
  Forall2 (entry path) fas infos →
  Ops.name_of <$> infos = SSHFile.posixpath_join path <$> (Ops.filename <$> fas).
Proof using Type.
  induction 1 as [|fa i fas infos (decoded & _ & ->) _ IH]; [done|].
  csimpl. by rewrite IH.
Qed.


Lemma wrap_raise_not_return {A : Type} (e : Ops.error) (a : A) :
  wrap (Ops.Raise e) ≠ Ops.Return a.
Proof.
  destruct e; simpl; try done;
    match goal with |- context [if ?b then _ else _] => by destruct b end.
Qed.

Lemma wrap_raise_is_raise {A : Type} (e : Ops.error) :
  ∃ e', wrap (Ops.Raise e) = (Ops.Raise e' : Ops.outcome A).
Proof.
  destruct e; simpl; eauto;
    match goal with |- context [if ?b then _ else _] => destruct b; eauto end.
Qed.

(** X12.  The [permissions] argument of [_mkdir] has no effect.  With
    [create_parents] it calls [_makedirs] without it, so that the request is
    [makedirs] with [exist_ok=True] and mode 511; without [create_parents]
    the attributes built from it are not handed to [channel.mkdir]. *)
Theorem mkdir_ignores_permissions
    (a : Ops.answers) (made : Ops.error + unit) (path : string)
    (create_parents : bool) (permissions permissions' : Z) (w : Ops.world) :
  _mkdir a made path create_parents permissions w
  = _mkdir a made path create_parents permissions' w
  ∧ _mkdir a made path true permissions w = _makedirs a made path true 511 w
  ∧ (∀ p1 c, Ops.enter a (Ops.pool w) = (p1, Ops.Got c) →
       Ops.log (_mkdir a made path true permissions w).1
       = Ops.log w ++ [Ops.Makedirs c path true 511]
       ∧ Ops.log (_mkdir a made path false permissions w).1
         = Ops.log w ++ [Ops.Mkdir c path]).
Proof.
  split; [by destruct create_parents|]. split.
  - unfold Ops._mkdir, Ops._makedirs.
    destruct (Ops.with_channel a _ w) as [w1 o]. by rewrite wrap_twice.
  - intros p1 c Henter. unfold Ops._mkdir, Ops._makedirs, Ops.with_channel.
    rewrite Henter. by destruct made.
Qed.

(** X13.  [_mv] first asks for [posix_rename].  If that succeeds, or fails
    with anything but [SFTPOpUnsupported], nothing else is sent; in the
    second case the error leaves through [wrap_exceptions] and the pool's
    scope is left by that exception.  If the server does not support the
    extension, the file is copied with [cp] and the source is then removed
    whatever the copy did: when the copy fails and the removal succeeds, the
    source is gone and the error of the copy is what [_mv] raises; when the
    removal fails, its error is raised instead. *)
Theorem mv_falls_back_to_copy_and_always_removes
    (a1 a2 : Ops.answers) (rename : Ops.error + unit) (cp : Ops.error + string)
    (unlink : Ops.error + unit) (lpath rpath : string) (w : Ops.world)
    (p1 : P) (c1 : channel) :
  Ops.enter a1 (Ops.pool w) = (p1, Ops.Got c1) →
  (rename = inr () →
   _mv a1 rename cp a2 unlink lpath rpath w
   = (Ops.World (Ops.leave Normal c1 p1) (Ops.log w ++ [Ops.PosixRename c1 lpath rpath]),
      Ops.Return ()))
  ∧ (∀ e, rename = inl e → (∀ r, e ≠ Ops.SFTPOpUnsupported r) →
       _mv a1 rename cp a2 unlink lpath rpath w
       = (Ops.World (Ops.leave (Raising (Ops.as_exn e)) c1 p1)
                    (Ops.log w ++ [Ops.PosixRename c1 lpath rpath]),
          wrap (Ops.Raise e)))
  ∧ (∀ r p2 c2, rename = inl (Ops.SFTPOpUnsupported r) →
       Ops.enter a2 (Ops.leave Normal c1 p1) = (p2, Ops.Got c2) →
       Ops.log (_mv a1 rename cp a2 unlink lpath rpath w).1
       = Ops.log w ++ [Ops.PosixRename c1 lpath rpath;
                       Ops.Run (Ops.cp_command quote lpath rpath);
                       Ops.Unlink c2 lpath]
       ∧ (_mv a1 rename cp a2 unlink lpath rpath w).2
         = match unlink, cp with
           | inl e2, _ => wrap (Ops.Raise e2)
           | inr _, inl e1 => wrap (Ops.Raise e1)
           | inr _, inr _ => Ops.Return ()
           end).
Proof.
  intros Henter. split; [|split].
  - intros ->. unfold Ops._mv, Ops.with_channel. by rewrite Henter.
  - intros e -> Hother. unfold Ops._mv, Ops.with_channel. rewrite Henter.
    destruct e; try done. by destruct (Hother reason).
  - intros r p2 c2 -> Henter2.
    unfold Ops._mv, Ops.with_channel. rewrite Henter. cbv iota beta.
    unfold Ops._cp_file, Ops._rm_file, Ops.with_channel. cbn [Ops.pool Ops.log].
    rewrite Henter2.
    destruct unlink as [e2|[]], cp as [e1|out]; cbn [Ops.log fst snd];
      rewrite <- ?app_assoc; (split; [done|]); rewrite ?wrap_twice; try done.
    + destruct (wrap_raise_is_raise (A := unit) e2) as [e Hw]. rewrite Hw.
      by rewrite <- Hw, wrap_twice.
    + destruct (wrap_raise_is_raise (A := unit) e2) as [e Hw]. rewrite Hw.
      by rewrite <- Hw, wrap_twice.
    + change (wrap (Ops.Return ())) with (Ops.Return ()). cbv iota.
      by rewrite wrap_twice.
Qed.

(** X14.  [_checksum] never touches the pool.  When it returns, the value
    is a word of exactly 32 characters of the output of the checksum
    command: the first word on Linux ([md5sum]), the last one on Darwin
    ([md5]).  On any other system it raises [ValueError] after [uname] and
    runs no checksum command; an output without any word ends in
    [AssertionError]. *)
Theorem checksum_returns_32_characters_or_raises
    (uname md5 : Ops.error + string) (path : string) (w : Ops.world (P := P)) :
  Ops.pool (_checksum uname md5 path w).1 = Ops.pool w
  ∧ (∀ s, (_checksum uname md5 path w).2 = Ops.Return s →
       String.length s = 32%nat
       ∧ ∃ system stdout,
           uname = inr system ∧ md5 = inr stdout
           ∧ ((strip system = "Linux"
               ∧ head (split (strip stdout)) = Some s
               ∧ Ops.log (_checksum uname md5 path w).1
                 = Ops.log w ++ [Ops.Run "uname"; Ops.Run ("md5sum " +:+ quote path)])
              ∨ (strip system = "Darwin"
                 ∧ last (split (strip stdout)) = Some s
                 ∧ Ops.log (_checksum uname md5 path w).1
                   = Ops.log w ++ [Ops.Run "uname"; Ops.Run ("md5 " +:+ quote path)])))
  ∧ (∀ system, uname = inr system →
       strip system ≠ "Linux" → strip system ≠ "Darwin" →
       _checksum uname md5 path w
       = (Ops.World (Ops.pool w) (Ops.log w ++ [Ops.Run "uname"]),
          Ops.Raise (Ops.Other (ValueError (repr (strip system)
                                            +:+ " doesn't support checksum operation")))))
  ∧ (∀ system stdout, uname = inr system → md5 = inr stdout →
       strip system = "Linux" ∨ strip system = "Darwin" →
       split (strip stdout) = [] →
       (_checksum uname md5 path w).2 = Ops.Raise Ops.AssertionError).
Proof.
  unfold Ops._checksum, Ops._get_system.
  destruct uname as [e|system].
  { destruct (wrap_raise_is_raise (A := string) e) as [e' ->]. cbv iota beta zeta.
    destruct (wrap_raise_is_raise (A := string) e') as [e'' ->].
    by repeat split. }
  change (wrap (Ops.Return (strip system))) with (Ops.Return (A := string) (strip system)).
  cbv iota beta zeta.
  destruct (decide (strip system = "Linux")) as [Hlinux | Hlinux];
    [|destruct (decide (strip system = "Darwin")) as [Hdarwin | Hdarwin]].
  - rewrite (bool_decide_eq_true_2 _ Hlinux). cbv iota beta. cbn [Ops.pool Ops.log fst snd].
    split; [done|]. split; [|split].
    + intros s Hs. destruct md5 as [e|stdout];
        [by destruct (wrap_raise_not_return e s)|].
      destruct (decide (1 ≤ length (split (strip stdout)))%nat) as [Hparts|Hparts];
        [rewrite (bool_decide_eq_true_2 _ Hparts) in Hs
        |by rewrite (bool_decide_eq_false_2 _ Hparts) in Hs].
      case_bool_decide as Hlen; [|done].
      simpl in Hs. inversion Hs; subst; clear Hs. split; [done|].
      exists system, stdout. split; [done|]. split; [done|]. left.
      split; [done|]. split; [|by rewrite <- app_assoc].
      unfold Ops.part_of. destruct (split (strip stdout)); [simpl in Hparts; lia | done].
    + by intros system' [= <-] Hne.
    + intros system' stdout [= <-] -> _ Hempty. by rewrite Hempty.
  - rewrite (bool_decide_eq_false_2 _ Hlinux), (bool_decide_eq_true_2 _ Hdarwin).
    cbv iota beta. cbn [Ops.pool Ops.log fst snd].
    split; [done|]. split; [|split].
    + intros s Hs. destruct md5 as [e|stdout];
        [by destruct (wrap_raise_not_return e s)|].
      destruct (decide (1 ≤ length (split (strip stdout)))%nat) as [Hparts|Hparts];
        [rewrite (bool_decide_eq_true_2 _ Hparts) in Hs
        |by rewrite (bool_decide_eq_false_2 _ Hparts) in Hs].
      case_bool_decide as Hlen; [|done].
      simpl in Hs. inversion Hs; subst; clear Hs. split; [done|].
      exists system, stdout. split; [done|]. split; [done|]. right.
      split; [done|]. split; [|by rewrite <- app_assoc].
      unfold Ops.part_of.
      destruct (last (split (strip stdout))) eqn:Hlast; [done|].
      apply last_None in Hlast. rewrite Hlast in Hparts. simpl in Hparts. lia.
    + by intros system' [= <-] _ Hne.
    + intros system' stdout [= <-] -> _ Hempty. by rewrite Hempty.
  - rewrite (bool_decide_eq_false_2 _ Hlinux), (bool_decide_eq_false_2 _ Hdarwin).
    cbv iota beta. cbn [Ops.pool Ops.log fst snd Ops.wrap_exceptions Ops.as_exn].
    split; [done|]. split; [done|]. split.
    + by intros system' [= <-] _ _.
    + by intros system' stdout [= <-] _ [? | ?].
Qed.

End MethodProperties.


Lemma mkdir_ignores_permissions_witness :
  Ops._mkdir (P := Soft.soft) "No such file or directory" "File exists" (λ s, s)
    (Opened 1%nat) (inr ()) "/d" true 493
    (Ops.World (Pool None 0 (Some 10800) true [0%nat] [(0%nat, 0)]) [])
  = Ops._makedirs (P := Soft.soft) "No such file or directory" "File exists" (λ s, s)
      (Opened 1%nat) (inr ()) "/d" true 511
      (Ops.World (Pool None 0 (Some 10800) true [0%nat] [(0%nat, 0)]) []).
Proof.
  apply (proj1 (proj2 (mkdir_ignores_permissions
                         (P := Soft.soft) (HP := Ops.soft_pooled)
                         "No such file or directory" "File exists" (λ s, s)
                         (Opened 1%nat) (inr ()) "/d" true 493 0
                         (Ops.World (Pool None 0 (Some 10800) true [0%nat] [(0%nat, 0)]) [])))).
Defined.

Lemma mv_falls_back_to_copy_and_always_removes_witness :
  (* the server has no posix-rename, the copy fails, the source is removed *)
  Ops.log (Ops._mv (P := Soft.soft) "No such file or directory" "File exists" (λ s, s) (λ s, s)
             (Opened 1%nat) (inl (Ops.SFTPOpUnsupported "posix-rename"))
             (inl (Ops.ProcessError "cp: disk full")) (Opened 1%nat) (inr ()) "/a" "/b"
             (Ops.World (Pool None 0 (Some 10800) true [0%nat] [(0%nat, 0)]) [])).1
  = [Ops.PosixRename 0 "/a" "/b"; Ops.Run "cp /a /b"; Ops.Unlink 0 "/a"]
  ∧ (Ops._mv (P := Soft.soft) "No such file or directory" "File exists" (λ s, s) (λ s, s)
       (Opened 1%nat) (inl (Ops.SFTPOpUnsupported "posix-rename"))
       (inl (Ops.ProcessError "cp: disk full")) (Opened 1%nat) (inr ()) "/a" "/b"
       (Ops.World (Pool None 0 (Some 10800) true [0%nat] [(0%nat, 0)]) [])).2
    = Ops.Raise (Ops.ProcessError "cp: disk full").
Proof.
  destruct (mv_falls_back_to_copy_and_always_removes
              (P := Soft.soft) (HP := Ops.soft_pooled)
              "No such file or directory" "File exists" (λ s, s) (λ s, s)
              (Opened 1%nat) (Opened 1%nat) (inl (Ops.SFTPOpUnsupported "posix-rename"))
              (inl (Ops.ProcessError "cp: disk full")) (inr ()) "/a" "/b"
              (Ops.World (Pool None 0 (Some 10800) true [0%nat] [(0%nat, 0)]) [])
              (Pool None 1 (Some 10800) true [0%nat] [(0%nat, 1)]) 0%nat eq_refl)
    as (_ & _ & Hfallback).
  exact (Hfallback "posix-rename" (Pool None 1 (Some 10800) true [0%nat] [(0%nat, 1)]) 0%nat
                   eq_refl eq_refl).
Defined.

Lemma checksum_returns_32_characters_or_raises_witness :
  (Ops._checksum (P := Soft.soft) "No such file or directory" "File exists" (λ s, s)
     (λ s, [s]) (λ s, s) (λ s, s)
     (inr "Linux") (inr "d41d8cd98f00b204e9800998ecf8427e") "/a"
     (Ops.World (Pool None 0 (Some 10800) true [0%nat] [(0%nat, 0)]) [])).2
  = Ops.Return "d41d8cd98f00b204e9800998ecf8427e"
  ∧ String.length "d41d8cd98f00b204e9800998ecf8427e" = 32%nat.
Proof.
  split; [reflexivity|].
  apply (proj1 (proj1 (proj2 (checksum_returns_32_characters_or_raises
                                (P := Soft.soft)
                                "No such file or directory" "File exists" (λ s, s)
                                (λ s, [s]) (λ s, s) (λ s, s)
                                (inr "Linux") (inr "d41d8cd98f00b204e9800998ecf8427e") "/a"
                                (Ops.World (Pool None 0 (Some 10800) true [0%nat]
                                                 [(0%nat, 0)]) [])))
                      "d41d8cd98f00b204e9800998ecf8427e" eq_refl)).
Defined.

(** ** A failed request and the requests after it *)

Section AfterFailure.

Context {D : Type} (utcfromtimestamp : option Z → exn + D).
Variables _NOT_FOUND _FILE_EXISTS : string.
Variable strip : string → string.

Local Abbreviation wrap := (Ops.wrap_exceptions _NOT_FOUND _FILE_EXISTS strip).
Local Abbreviation _info := (Ops._info utcfromtimestamp _NOT_FOUND _FILE_EXISTS strip).

Lemma world_eta {P : Type} (w : Ops.world (P := P)) :
  Ops.World (Ops.pool w) (Ops.log w) = w.
Proof. by destruct w. Qed.

Lemma keep_waiting_cases ds (p : Hard.hard) w :
  (∃ w', Hard.keep_waiting ds (p, Hard.Waiting w) = (p, Hard.Waiting w'))
  ∨ Hard.keep_waiting ds (p, Hard.Waiting w) = (p, Hard.Raised TimeoutError).
Proof using Type.
  revert w. induction ds as [|d ds IH]; intros w; [left; by exists w|].
  simpl. destruct (get_elapsed_cases w d p) as [-> | ->]; [|apply IH].
  right. by rewrite keep_waiting_settled.
Qed.

(** A hard pool whose queue holds a channel hands out its head, unless its
    timeout is a number that is not positive: then it raises
    [TimeoutError] and keeps the channel. *)
Lemma hard_enter_idle (a : open_result * list Z) (p : Hard.hard) c q :
  Hard.unbounded_or_positive p →
  Hard._queue p = c :: q →
  Ops.enter a p = (set_sub q (set_active_channels (active_channels p + 1) p), Ops.Got c).
Proof using Type.
  intros Hbound Hq. simpl.
  rewrite (acquire_alone_takes_head a.1 a.2 p c q Hbound Hq). by destruct p.
Qed.

Lemma hard_enter_nonpositive (a : open_result * list Z) (p : Hard.hard) t :
  Hard._queue p ≠ [] → timeout p = Some t → t ≤ 0 →
  Ops.enter a p = (p, Ops.Failed TimeoutError).
Proof using Type.
  intros Hq Ht Hle. simpl.
  by rewrite (acquire_alone_nonpositive a.1 a.2 p t Hq Ht Hle).
Qed.

(** A hard pool with an empty queue and no room for a new channel keeps
    the caller waiting, or times out; it does not change. *)
Lemma hard_enter_starved (a : open_result * list Z) (p : Hard.hard) :
  Hard._queue p = [] → may_open p = false →
  Ops.enter a p = (p, Ops.Pending) ∨ Ops.enter a p = (p, Ops.Failed TimeoutError).
Proof using Type.
  intros Hq Hfull. simpl. unfold Hard.acquire_alone, Hard.get_start.
  rewrite bool_decide_eq_true_2, Hfull by done.
  rewrite not_opening_id by apply wait_for_get_not_opening.
  rewrite settle_wait_for_get, Hq.
  assert (Hard.keep_waiting a.2 (p, Hard.Raised TimeoutError)
          = (p, Hard.Raised TimeoutError)) as Hout by (by apply keep_waiting_settled).
  assert (∀ pk, (∃ w, pk = (p, Hard.Waiting w)) ∨ pk = (p, Hard.Raised TimeoutError) →
                match pk with
                | (p', Hard.Holding c) => (p', Ops.Got c)
                | (p', Hard.Raised e) => (p', Ops.Failed e)
                | (p', _) => (p', Ops.Pending)
                end = (p, Ops.Pending)
                ∨ match pk with
                  | (p', Hard.Holding c) => (p', Ops.Got c)
                  | (p', Hard.Raised e) => (p', Ops.Failed e)
                  | (p', _) => (p', Ops.Pending)
                  end = (p, Ops.Failed TimeoutError)) as Hcases.
  { intros pk [[w ->] | ->]; [by left | by right]. }
  destruct (timeout p) as [t|]; [case_bool_decide|].
  - apply Hcases. right. exact Hout.
  - apply Hcases, keep_waiting_cases.
  - apply Hcases, keep_waiting_cases.
Qed.

(** X15.  On a hard pool whose only idle channel is the last one it may
    have, and whose timeout is [None] or positive, a request that succeeds
    leaves the pool as it was, while one request that fails inside its
    scope takes the channel away for good: the queue stays empty, and every
    later request, whatever the server would answer, sends nothing and
    either waits on or ends in [TimeoutError].  Under a timeout that is not
    positive no request is ever sent: each one ends in [TimeoutError] at
    once, with the channel idle in the queue. *)
Theorem failed_request_starves_a_full_hard_pool
    (a a' : open_result * list Z) (e : Ops.error) (attrs : Ops.attributes)
    (stat' : Ops.error + Ops.attributes) (path path' : string)
    (w : Ops.world (P := Hard.hard)) (c : channel) (m : Z) :
  Hard._queue (Ops.pool w) = [c] →
  max_channels (Ops.pool w) = Some m →
  m ≤ active_channels (Ops.pool w) + 1 →
  (Hard.unbounded_or_positive (Ops.pool w) →
   Ops.pool (_info a (inr attrs) path w).1 = Ops.pool w
   ∧ Ops.log (_info a (inr attrs) path w).1 = Ops.log w ++ [Ops.Stat c path]
   ∧ (_info a (inl e) path w).2 = wrap (Ops.Raise e)
   ∧ Ops.log (_info a (inl e) path w).1 = Ops.log w ++ [Ops.Stat c path]
   ∧ Hard._queue (Ops.pool (_info a (inl e) path w).1) = []
   ∧ (_info a' stat' path' (_info a (inl e) path w).1).1 = (_info a (inl e) path w).1
   ∧ ((_info a' stat' path' (_info a (inl e) path w).1).2 = Ops.Hang
      ∨ (_info a' stat' path' (_info a (inl e) path w).1).2
        = Ops.Raise (Ops.Other TimeoutError)))
  ∧ (∀ t, timeout (Ops.pool w) = Some t → t ≤ 0 →
       _info a' stat' path' w = (w, Ops.Raise (Ops.Other TimeoutError))).
Proof using Type.
  intros Hq Hmax Hfull. split.
  - intros Hbound.
    unfold Ops._info at 1 2. unfold Ops.with_channel.
    rewrite (hard_enter_idle a _ _ _ Hbound Hq). cbv iota beta. cbn [fst snd Ops.pool Ops.log].
    split.
    { destruct w as [[mx ac t u st q] l]. unfold Hard._queue in Hq. simpl in Hq. subst q.
      cbn. unfold Hard.release, Hard._queue, set_sub, set_active_channels. cbn.
      f_equal. lia. }
    split; [done|].
    assert (_info a (inl e) path w
            = (Ops.World (set_sub [] (set_active_channels (active_channels (Ops.pool w) + 1)
                                                         (Ops.pool w)))
                         (Ops.log w ++ [Ops.Stat c path]),
               wrap (Ops.Raise e))) as ->.
    { unfold Ops._info, Ops.with_channel. by rewrite (hard_enter_idle a _ _ _ Hbound Hq). }
    cbn [fst snd Ops.pool Ops.log].
    split; [done|]. split; [done|]. split; [done|].
    unfold Ops._info, Ops.with_channel. cbn [Ops.pool Ops.log].
    destruct (hard_enter_starved a'
                (set_sub [] (set_active_channels (active_channels (Ops.pool w) + 1)
                                                 (Ops.pool w)))) as [-> | ->].
    + done.
    + apply may_open_false. exists m. split; [by destruct (Ops.pool w)|].
      destruct (Ops.pool w); simpl in *; lia.
    + split; [done | by left].
    + split; [done | by right].
  - intros t Ht Hle. unfold Ops._info, Ops.with_channel.
    rewrite (hard_enter_nonpositive a' (Ops.pool w) t) by (done || by rewrite Hq).
    by rewrite world_eta.
Qed.

(** A soft pool with one channel, idle or used once, and no capacity set. *)
Lemma soft_enter_single (a : open_result) mx ac t u st (c : channel) :
  @Ops.enter Soft.soft _ a (Pool mx ac t u st [(c, 0)])
  = (Pool mx (ac + 1) t u st [(c, 1)], Ops.Got c).
Proof.
  simpl. unfold Soft.acquire_alone, Soft.get_start. simpl.
  unfold Soft.get_finish, Soft.counter_add, Soft._channels. simpl.
  by rewrite !bool_decide_eq_true_2 by done.
Qed.

Lemma soft_leave_single mx ac t u st (c : channel) :
  @Ops.leave Soft.soft _ Normal c (Pool mx (ac + 1) t u st [(c, 1)]) = Pool mx ac t u st [(c, 0)].
Proof.
  simpl. unfold Soft.release, Soft.counter_add, Soft._channels. simpl.
  rewrite !bool_decide_eq_true_2 by done.
  unfold set_active_channels, set_sub. simpl. f_equal. lia.
Qed.

Lemma soft_enter_single_busy (r : open_result) ac t u st (c : channel) :
  @Ops.enter Soft.soft _ r (Pool None ac t u st [(c, 1)])
  = match Soft.get_opened (Some c) r (Pool None ac t u st [(c, 1)]) with
    | (p', Soft.Holding c') => (p', Ops.Got c')
    | (p', Soft.Raised e) => (p', Ops.Failed e)
    | (p', _) => (p', Ops.Pending)
    end.
Proof. reflexivity. Qed.

Local Abbreviation _info_soft :=
  (Ops._info (P := Soft.soft) utcfromtimestamp _NOT_FOUND _FILE_EXISTS strip).

(** X16.  On a soft pool without a capacity whose only channel is idle, a
    request that succeeds leaves the pool as it was and the next request
    uses the same channel.  A request that fails inside its scope leaves
    the usage count of the channel at one; the next request then asks the
    connection for a new channel although none is in use: it goes to the
    new channel when one is opened, and fails without sending anything when
    the opening raises anything but [ChannelOpenError]. *)
Theorem failed_request_makes_the_soft_pool_open_another_channel
    (a a' : open_result) (e : Ops.error) (attrs : Ops.attributes)
    (stat' : Ops.error + Ops.attributes) (path path' : string)
    (w : Ops.world (P := Soft.soft)) (c c' : channel) (e0 : exn) :
  Soft._channels (Ops.pool w) = [(c, 0)] →
  max_channels (Ops.pool w) = None →
  Ops.pool (_info_soft a (inr attrs) path w).1 = Ops.pool w
  ∧ Ops.log (_info_soft a' stat' path' (_info_soft a (inr attrs) path w).1).1
    = Ops.log w ++ [Ops.Stat c path; Ops.Stat c path']
  ∧ Soft._channels (Ops.pool (_info_soft a (inl e) path w).1) = [(c, 1)]
  ∧ Ops.log (_info_soft (Opened c') stat' path' (_info_soft a (inl e) path w).1).1
    = Ops.log w ++ [Ops.Stat c path; Ops.Stat c' path']
  ∧ _stack (Ops.pool (_info_soft (Opened c') stat' path' (_info_soft a (inl e) path w).1).1)
    = c' :: _stack (Ops.pool w)
  ∧ (e0 ≠ ChannelOpenError →
     _info_soft (OpenRaised e0) stat' path' (_info_soft a (inl e) path w).1
     = ((_info_soft a (inl e) path w).1, Ops.Raise (Ops.Other e0))).
Proof.
  destruct w as [[mx ac t u st q] l]. unfold Soft._channels. simpl.
  intros -> ->.
  assert (∀ stat, _info_soft a stat path (Ops.World (Pool None ac t u st [(c, 0)]) l)
          = (Ops.World (match stat with
                        | inr _ => Pool None ac t u st [(c, 0)]
                        | inl _ => Pool None (ac + 1) t u st [(c, 1)]
                        end) (l ++ [Ops.Stat c path]),
             wrap match stat with
                  | inr attributes =>
                      match Ops._decode_attributes utcfromtimestamp attributes with
                      | inr info => Ops.Return (Ops.set_name path info)
                      | inl e => Ops.Raise (Ops.Other e)
                      end
                  | inl e => Ops.Raise e
                  end)) as Hfirst.
  { intros stat. unfold Ops._info, Ops.with_channel. cbn [Ops.pool Ops.log].
    rewrite soft_enter_single. destruct stat; [done|].
    by rewrite soft_leave_single. }
  rewrite !Hfirst. cbn [fst snd Ops.pool Ops.log].
  split; [done|]. split; [|split; [done|]].
  - unfold Ops._info, Ops.with_channel. cbn [Ops.pool Ops.log].
    rewrite soft_enter_single. rewrite <- app_assoc. by destruct stat'.
  - unfold Ops._info, Ops.with_channel. cbn [Ops.pool Ops.log].
    rewrite !soft_enter_single_busy.
    split; [|split].
    + unfold Soft.get_opened. rewrite resume_opened. cbn. rewrite <- app_assoc.
      by destruct stat'.
    + unfold Soft.get_opened. rewrite resume_opened. cbn. by destruct stat'.
    + intros He0. unfold Soft.get_opened. by rewrite resume_other_error.
Qed.

End AfterFailure.

Lemma failed_request_starves_a_full_hard_pool_witness :
  (* one channel, idle, in a pool limited to one; the second request waits
     20000 seconds under a bound of 10800; the same pool with the bound 0 *)
  let utc := λ t : option Z, @inr exn (option Z) t in
  let attrs := Ops.Attributes (Some 3) (Some 33188) (Some 0) (Some 0) (Some 0) (Some 0) in
  let w := Ops.World (Pool (Some 1) 0 (Some 10800) true [0%nat] [0%nat]) [] in
  let w0 := Ops.World (Pool (Some 1) 0 (Some 0) true [0%nat] [0%nat]) [] in
  Hard._queue
    (Ops.pool (Ops._info (P := Hard.hard) utc "No such file or directory"
                 "File exists" (λ s, s) (Opened 1%nat, [])
                 (inl (Ops.SFTPNoSuchFile "no such file")) "/missing" w).1) = []
  ∧ (Ops._info (P := Hard.hard) utc "No such file or directory"
       "File exists" (λ s, s) (Opened 1%nat, [20000]) (inr attrs) "/a"
       (Ops._info (P := Hard.hard) utc "No such file or directory"
          "File exists" (λ s, s) (Opened 1%nat, [])
          (inl (Ops.SFTPNoSuchFile "no such file")) "/missing" w).1).2
    = Ops.Raise (Ops.Other TimeoutError)
  ∧ Ops._info (P := Hard.hard) utc "No such file or directory"
      "File exists" (λ s, s) (Opened 1%nat, [20000]) (inr attrs) "/a" w0
    = (w0, Ops.Raise (Ops.Other TimeoutError)).
Proof.
  intros utc attrs w w0.
  destruct (failed_request_starves_a_full_hard_pool
              utc "No such file or directory" "File exists" (λ s, s)
              (Opened 1%nat, []) (Opened 1%nat, [20000])
              (Ops.SFTPNoSuchFile "no such file") attrs
              (inr attrs) "/missing" "/a" w
              0%nat 1 eq_refl eq_refl ltac:(simpl; lia))
    as [Hpositive _].
  destruct Hpositive as (_ & _ & _ & _ & Hqueue & _ & _).
  { right. exists 10800. split; [reflexivity | lia]. }
  destruct (failed_request_starves_a_full_hard_pool
              utc "No such file or directory" "File exists" (λ s, s)
              (Opened 1%nat, []) (Opened 1%nat, [20000])
              (Ops.SFTPNoSuchFile "no such file") attrs
              (inr attrs) "/missing" "/a" w0
              0%nat 1 eq_refl eq_refl ltac:(simpl; lia))
    as [_ Hzero].
  split; [exact Hqueue|]. split; [reflexivity|].
  apply (Hzero 0 eq_refl). lia.
Defined.

Lemma failed_request_makes_the_soft_pool_open_another_channel_witness :
  let utc := λ t : option Z, @inr exn (option Z) t in
  let attrs := Ops.Attributes (Some 3) (Some 33188) (Some 0) (Some 0) (Some 0) (Some 0) in
  Ops.log
    (Ops._info (P := Soft.soft) utc "No such file or directory" "File exists"
       (λ s, s) (Opened 1%nat) (inr attrs) "/a"
       (Ops._info (P := Soft.soft) utc "No such file or directory" "File exists"
          (λ s, s) (Opened 1%nat) (inl (Ops.SFTPNoSuchFile "no such file")) "/missing"
          (Ops.World (Pool None 0 (Some 10800) true [0%nat] [(0%nat, 0)]) [])).1).1
  = [Ops.Stat 0 "/missing"; Ops.Stat 1 "/a"].
Proof.
  intros utc attrs.
  destruct (failed_request_makes_the_soft_pool_open_another_channel
              utc "No such file or directory" "File exists" (λ s, s)
              (Opened 1%nat) (Opened 1%nat)
              (Ops.SFTPNoSuchFile "no such file") attrs (inr attrs) "/missing" "/a"
              (Ops.World (Pool None 0 (Some 10800) true [0%nat] [(0%nat, 0)]) [])
              0%nat 1%nat TimeoutError eq_refl eq_refl)
    as (_ & _ & _ & Hlog & _ & _).
  exact Hlog.
Defined.

(** What [aclose] raises is what one of the teardowns raised. *)
Lemma aclose_raises (teardown : channel → option exn) (stack : list channel) :
  (aclose teardown stack).2 = None
  ∨ ∃ e c, c ∈ stack ∧ teardown c = Some e ∧ (aclose teardown stack).2 = Some e.
Proof.
  unfold aclose. simpl.
  assert (∀ pending,
            let r := foldl (λ pending c,
                              match teardown c with Some e => Some e | None => pending end)
                           pending stack in
            r = pending ∨ ∃ e c, c ∈ stack ∧ teardown c = Some e ∧ r = Some e) as Hgen.
  { induction stack as [|c stack IH]; intros pending; simpl; [by left|].
    destruct (IH (match teardown c with Some e => Some e | None => pending end))
      as [Hsame | (e & c' & Hc' & He & Hr)].
    - simpl in Hsame. rewrite Hsame. destruct (teardown c) as [e|] eqn:Hc; [|by left].
      right. exists e, c. split; [by left | done].
    - right. exists e, c'. split; [by right | done]. }
  destruct (Hgen None) as [Hnone | Hsome]; [by left | by right].
Qed.

(** ** Finalizing the file system *)

Lemma finalize_forceful {S : Type} {HP : ChannelPool S}
    (teardown : channel → option exn) (stack_aclose : option exn) (p : pool S) :
  unsafe_terminate p = true →
  Ops._finalize teardown stack_aclose p
  = (set_stack [] (set_sub (_cleanup (sub p)).1 p), _stack p,
     bool_decide ((aclose teardown (_stack p)).2 = None),
     match (aclose teardown (_stack p)).2 with
     | Some e => Some e
     | None => match stack_aclose with Some BrokenPipeError => None | other => other end
     end).
Proof.
  intros Hforce. unfold Ops._finalize.
  rewrite (close_tears_down teardown p) by by right.
  by destruct (aclose teardown (_stack p)).2.
Qed.

(** X17.  The pool of a file system is built without [unsafe_terminate], so
    it keeps the default [True] whatever happens to it.  [_finalize] then
    never refuses: it tears down every channel the pool ever opened, scopes
    still held or left by an exception included.  It goes on to close the
    SSH connection exactly when no channel teardown raised, and then a
    [BrokenPipeError] of the connection is swallowed and any other error
    raised; when a teardown raised, that error leaves [_finalize] and the
    connection is not closed. *)
Theorem finalize_closes_the_connection_unless_a_teardown_raised
    (repr : string → string) (sftp_channel_pool : string)
    (max_sftp_channels max_sftp_channel_wait_timeout : arg)
    (teardown : channel → option exn) (stack_aclose : option exn) :
  (∀ p0 tr s,
     SSHFileSystem.connect_pool repr sftp_channel_pool max_sftp_channels
                                max_sftp_channel_wait_timeout
     = inr (SSHFileSystem.HardPool p0) →
     Hard.run (Hard.Sys p0 0 [] []) tr = Some s →
     unsafe_terminate (Hard.the_pool s) = true)
  ∧ (∀ p0 tr s,
       SSHFileSystem.connect_pool repr sftp_channel_pool max_sftp_channels
                                  max_sftp_channel_wait_timeout
       = inr (SSHFileSystem.SoftPool p0) →
       Soft.run (Soft.Sys p0 0 []) tr = Some s →
       unsafe_terminate (Soft.the_pool s) = true)
  ∧ (∀ (S : Type) (HP : ChannelPool S) (p : pool S),
       unsafe_terminate p = true →
       (Ops._finalize teardown stack_aclose p).1.1.2 = _stack p
       ∧ _stack (Ops._finalize teardown stack_aclose p).1.1.1 = []
       ∧ ((∀ c, c ∈ _stack p → teardown c = None) →
          (Ops._finalize teardown stack_aclose p).1.2 = true
          ∧ (Ops._finalize teardown stack_aclose p).2
            = match stack_aclose with Some BrokenPipeError => None | other => other end)
       ∧ (∀ c, c ∈ _stack p → teardown c ≠ None →
          (Ops._finalize teardown stack_aclose p).1.2 = false
          ∧ ∃ e c', c' ∈ _stack p ∧ teardown c' = Some e
                    ∧ (Ops._finalize teardown stack_aclose p).2 = Some e)).
Proof.
  split; [|split].
  - intros p0 tr s Hconnect Hrun. rewrite (hard_run_policy tr _ s Hrun). simpl.
    unfold SSHFileSystem.connect_pool in Hconnect.
    repeat case_bool_decide; by inversion Hconnect.
  - intros p0 tr s Hconnect Hrun.
    destruct (soft_run_holding tr _ s Hrun) as [_ ->]. simpl.
    unfold SSHFileSystem.connect_pool in Hconnect.
    repeat case_bool_decide; by inversion Hconnect.
  - intros S HP p Hforce. rewrite finalize_forceful by done. cbn [fst snd].
    split; [done|]. split; [by destruct p|]. split.
    + intros Hquiet.
      assert ((aclose teardown (_stack p)).2 = None) as ->.
      { apply aclose_quiet, Forall_forall. exact Hquiet. }
      done.
    + intros c Hc Hraises.
      destruct (aclose_raises teardown (_stack p)) as [Hnone | (e & c' & Hc' & He & ->)].
      * apply aclose_quiet in Hnone. rewrite Forall_forall in Hnone.
        by destruct (Hraises (Hnone c Hc)).
      * split; [done|]. by exists e, c'.
Qed.

Lemma finalize_closes_the_connection_unless_a_teardown_raised_witness :
  (* a soft pool with a leaked scope; tearing the channel down raises *)
  (Ops._finalize (λ _, Some BrokenPipeError) None
     (Pool None 1 (Some 10800) true [0%nat] [(0%nat, 1)])).1.2 = false.
Proof.
  destruct (finalize_closes_the_connection_unless_a_teardown_raised
              (λ s, s) "soft" _UNSET _UNSET (λ _, Some BrokenPipeError) None)
    as (_ & _ & Hfinalize).
  destruct (Hfinalize _ Soft.soft_pool (Pool None 1 (Some 10800) true [0%nat] [(0%nat, 1)])
                      eq_refl) as (_ & _ & _ & Hraised).
  apply (Hraised 0%nat); [apply list_elem_of_here | discriminate].
Defined.

(** ** Files over the hard pool *)

Module FileIO := SSHFileIO.

Section FileProperties.

Variables _NOT_FOUND _FILE_EXISTS : string.
Variable strip : string → string.
Variable quote : string → string.

Local Abbreviation wrap := (Ops.wrap_exceptions _NOT_FOUND _FILE_EXISTS strip).
Local Abbreviation _mv := (Ops._mv (P := Hard.hard) _NOT_FOUND _FILE_EXISTS strip quote).
Local Abbreviation fetch :=
  (FileIO._async_fetch_range (P := Hard.hard) _NOT_FOUND _FILE_EXISTS strip).
Local Abbreviation upload :=
  (FileIO._async_upload_chunk (P := Hard.hard) _NOT_FOUND _FILE_EXISTS strip quote).
Local Abbreviation close_file := (FileIO._async_close_file (P := Hard.hard)).

(** A hard pool with an empty queue and room for a channel opens one. *)
Lemma hard_enter_opened (ds : list Z) (p : Hard.hard) (c : channel) :
  Hard._queue p = [] → may_open p = true →
  Ops.enter (Opened c, ds) p
  = (set_active_channels (active_channels p + 1) (SFTPChannelPool.set_stack (c :: _stack p) p),
     Ops.Got c).
Proof.
  intros Hq Hroom. simpl. unfold Hard.acquire_alone, Hard.get_start.
  rewrite bool_decide_eq_true_2, Hroom by done.
  unfold Hard.answered. cbn [fst snd]. rewrite bool_decide_eq_true_2 by done.
  unfold Hard.get_opened. rewrite resume_opened. unfold Hard.hand_out.
  cbn [Hard.settle]. by rewrite keep_waiting_settled.
Qed.

Lemma mv_starved (a1 a2 : open_result * list Z) rename cp unlink lpath rpath
    (w : Ops.world (P := Hard.hard)) :
  Hard._queue (Ops.pool w) = [] → may_open (Ops.pool w) = false →
  _mv a1 rename cp a2 unlink lpath rpath w = (w, Ops.Hang)
  ∨ _mv a1 rename cp a2 unlink lpath rpath w = (w, Ops.Raise (Ops.Other TimeoutError)).
Proof.
  intros Hq Hfull. unfold Ops._mv, Ops.with_channel.
  destruct (hard_enter_starved a1 _ Hq Hfull) as [-> | ->]; rewrite world_eta;
    [by left | by right].
Qed.

(** X18.  A file written over a hard pool that has room for one more
    channel only (a fresh pool with [max_channels=1], say) cannot be
    committed by its last chunk: the file holds the channel it was opened
    on until it is closed, [_commit] asks the pool for another one through
    [_mv], and the close only comes after the commit.  Unless somebody else
    returns a channel, the upload sends the open and the write, then waits
    on or ends in [TimeoutError]; no rename is sent and the file stays
    open. *)
Theorem last_chunk_cannot_commit_on_a_hard_pool_with_one_channel
    (ds : list Z) (a1 a2 : open_result * list Z) (c : channel) (m : Z) (buffer : string)
    (rename : Ops.error + unit) (cp : Ops.error + string) (unlink : Ops.error + unit)
    (closing : option Ops.error) (f : FileIO.file) (w : Ops.world (P := Hard.hard)) :
  FileIO._file f = None →
  FileIO.autocommit f = true →
  SSHFile.contains "w" (FileIO.mode f) = true →
  Hard._queue (Ops.pool w) = [] →
  max_channels (Ops.pool w) = Some m →
  active_channels (Ops.pool w) + 1 = m →
  ∀ f' w' o,
    upload (Opened c, ds) (inr ()) (inr ()) buffer a1 rename cp a2 unlink closing true f w
    = (f', w', o) →
    Ops.log w' = Ops.log w ++ [Ops.Open c (FileIO._location f) (FileIO.mode f);
                               Ops.Write c (FileIO._location f) buffer]
    ∧ (o = Ops.Hang ∨ o = Ops.Raise (Ops.Other TimeoutError))
    ∧ FileIO._file f' = Some (c, FileIO._location f)
    ∧ FileIO._stack f'
      = FileIO._stack f ++ [FileIO.PoolScope c; FileIO.OpenedFile c (FileIO._location f)]
    ∧ Hard._queue (Ops.pool w') = []
    ∧ active_channels (Ops.pool w') = m.
Proof.
  intros Hfile Hauto Hmode Hq Hmax Hroom f' w' o.
  destruct f as [pa mo au lo fi st]. simpl in Hfile, Hauto, Hmode. subst fi au.
  unfold FileIO._async_upload_chunk, FileIO.ensure_file, FileIO._async_open_file.
  cbn [FileIO._file].
  rewrite hard_enter_opened; [|done|apply may_open_iff; right; exists m; split; [done|lia]].
  unfold FileIO.set_file, FileIO.set_stack.
  cbn [FileIO.autocommit FileIO._stack FileIO.mode
       FileIO._location FileIO.path FileIO._file Ops.pool Ops.log fst snd andb].
  unfold FileIO._commit. cbn [FileIO.mode FileIO._location FileIO.path]. rewrite Hmode.
  match goal with |- context [Ops._mv _ _ _ _ _ _ _ _ _ ?l ?r ?w0] =>
    destruct (mv_starved a1 a2 rename cp unlink l r w0) as [-> | ->]
  end.
  - done.
  - apply may_open_false. exists m. split; [by destruct (Ops.pool w)|].
    destruct (Ops.pool w); simpl in *; lia.
  - intros [= <- <- <-]. cbn. rewrite <- !app_assoc. repeat split; try done. by left.
  - intros [= <- <- <-]. cbn. rewrite <- !app_assoc. repeat split; try done. by right.
Qed.

Local Abbreviation ensure_file :=
  (FileIO.ensure_file (P := Hard.hard) _NOT_FOUND _FILE_EXISTS strip).

(** X19.  A file read over a hard pool whose timeout is [None] or positive
    keeps the channel it was opened on out of the queue for as long as it
    is open.  Closing it sends the close of the remote file and puts the
    channel at the back of the queue.  When that close raises, the scope of
    the pool is left by the exception: the channel is not returned and the
    count stays up; [_file] is not reset either, so that a later read goes
    to the closed remote file without opening it again.  Under a timeout
    that is not positive the read ends in [TimeoutError] before anything is
    opened, and the file and the pool are as they were. *)
Theorem closing_a_file_returns_its_channel_unless_the_close_raises
    (a a' : open_result * list Z) (c : channel) (q : list channel)
    (opened seek opened' : Ops.error + unit) (read : Ops.error + string) (start end_ : Z)
    (e : Ops.error) (f : FileIO.file) (w : Ops.world (P := Hard.hard)) :
  FileIO._file f = None →
  FileIO._stack f = [] →
  Hard._queue (Ops.pool w) = c :: q →
  (Hard.unbounded_or_positive (Ops.pool w) →
   ∀ f1 w1 o,
     fetch a (inr ()) seek read start end_ f w = (f1, w1, o) →
     Hard._queue (Ops.pool w1) = q
     ∧ active_channels (Ops.pool w1) = active_channels (Ops.pool w) + 1
     ∧ (∀ f2 w2 o2,
          close_file None f1 w1 = (f2, w2, o2) →
          o2 = Ops.Return ()
          ∧ FileIO._file f2 = None ∧ FileIO._stack f2 = []
          ∧ Ops.log w2 = Ops.log w1 ++ [Ops.CloseFile c (FileIO._location f)]
          ∧ Hard._queue (Ops.pool w2) = q ++ [c]
          ∧ active_channels (Ops.pool w2) = active_channels (Ops.pool w))
     ∧ (∀ f2 w2 o2,
          close_file (Some e) f1 w1 = (f2, w2, o2) →
          o2 = Ops.Raise e
          ∧ FileIO._file f2 = Some (c, FileIO._location f) ∧ FileIO._stack f2 = []
          ∧ Ops.log w2 = Ops.log w1 ++ [Ops.CloseFile c (FileIO._location f)]
          ∧ Ops.pool w2 = Ops.pool w1
          ∧ ensure_file a' opened' f2 w2 = (f2, w2, Ops.Return (c, FileIO._location f))))
  ∧ (∀ t, timeout (Ops.pool w) = Some t → t ≤ 0 →
       fetch a opened seek read start end_ f w
       = (f, w, Ops.Raise (Ops.Other TimeoutError))).
Proof.
  intros Hfile Hstack Hq. split.
  - intros Hbound f1 w1 o.
    destruct f as [pa mo au lo fi st]. simpl in Hfile, Hstack. subst fi st.
    unfold FileIO._async_fetch_range, FileIO.ensure_file, FileIO._async_open_file.
    cbn [FileIO._file].
    rewrite (hard_enter_idle a _ c q Hbound Hq).
    destruct w as [[mx ac t u stk qu] l]. unfold Hard._queue in Hq. simpl in Hq. subst qu.
    unfold FileIO.set_file, FileIO.set_stack.
    cbn [FileIO.autocommit FileIO._stack FileIO.mode FileIO._location FileIO.path
         FileIO._file Ops.pool Ops.log fst snd app].
    intros Hfetch.
    assert (f1 = FileIO.File pa mo au lo (Some (c, lo))
                             [FileIO.PoolScope c; FileIO.OpenedFile c lo]
            ∧ Ops.pool w1 = Pool mx (ac + 1) t u stk q) as [-> Hpool].
    { destruct seek; inversion Hfetch; by subst. }
    destruct w1 as [p1 l1]. simpl in Hpool. subst p1. clear Hfetch.
    split; [done|]. split; [done|]. split.
    + intros f2 w2 o2. unfold FileIO._async_close_file. cbn.
      intros [= <- <- <-]. cbn. unfold Hard.release, Hard._queue. cbn.
      repeat split; try done. lia.
    + intros f2 w2 o2. unfold FileIO._async_close_file. cbn.
      intros [= <- <- <-]. cbn. by repeat split.
  - intros t Ht Hle.
    unfold FileIO._async_fetch_range, FileIO.ensure_file, FileIO._async_open_file.
    rewrite Hfile.
    rewrite (hard_enter_nonpositive a (Ops.pool w) t) by (done || by rewrite Hq).
    by rewrite world_eta.
Qed.

(** X20.  On a hard pool that has room for one more channel only, a read
    whose [channel.open] fails (a missing file, say) raises the translated
    error and keeps the scope of the pool on the stack of the file object,
    with no remote file open.  Reading again from the same object asks the
    pool for a second channel, sends nothing, and waits on or ends in
    [TimeoutError].  Only closing the file object gives the channel back,
    whatever the close of a remote file would raise. *)
Theorem failed_open_holds_the_channel_until_the_file_is_closed
    (ds : list Z) (a' : open_result * list Z) (c : channel) (m : Z) (e : Ops.error)
    (seek opened' seek' : Ops.error + unit) (read read' : Ops.error + string)
    (start end_ start' end' : Z) (closing : option Ops.error)
    (f : FileIO.file) (w : Ops.world (P := Hard.hard)) :
  FileIO._file f = None →
  FileIO._stack f = [] →
  Hard._queue (Ops.pool w) = [] →
  max_channels (Ops.pool w) = Some m →
  active_channels (Ops.pool w) + 1 = m →
  ∀ f1 w1 o,
    fetch (Opened c, ds) (inl e) seek read start end_ f w = (f1, w1, o) →
    o = wrap (Ops.Raise e)
    ∧ Ops.log w1 = Ops.log w ++ [Ops.Open c (FileIO._location f) (FileIO.mode f)]
    ∧ FileIO._file f1 = None
    ∧ FileIO._stack f1 = [FileIO.PoolScope c]
    ∧ (fetch a' opened' seek' read' start' end' f1 w1 = (f1, w1, Ops.Hang)
       ∨ fetch a' opened' seek' read' start' end' f1 w1
         = (f1, w1, Ops.Raise (Ops.Other TimeoutError)))
    ∧ (∀ f2 w2 o2,
         close_file closing f1 w1 = (f2, w2, o2) →
         o2 = Ops.Return ()
         ∧ Ops.log w2 = Ops.log w1
         ∧ Hard._queue (Ops.pool w2) = [c]
         ∧ active_channels (Ops.pool w2) = active_channels (Ops.pool w)).
Proof.
  intros Hfile Hstack Hq Hmax Hroom f1 w1 o.
  destruct f as [pa mo au lo fi st]. simpl in Hfile, Hstack. subst fi st.
  destruct w as [[mx ac t u stk qu] l]. unfold Hard._queue in Hq.
  simpl in Hq, Hmax, Hroom. subst qu mx.
  unfold FileIO._async_fetch_range, FileIO.ensure_file, FileIO._async_open_file.
  cbn [FileIO._file Ops.pool Ops.log].
  rewrite hard_enter_opened;
    [|done|apply may_open_iff; right; exists m; split; [done|simpl; lia]].
  unfold FileIO.set_file, FileIO.set_stack.
  cbn [FileIO.autocommit FileIO._stack FileIO.mode FileIO._location FileIO.path
       FileIO._file Ops.pool Ops.log fst snd app].
  destruct (wrap_raise_is_raise _NOT_FOUND _FILE_EXISTS strip (A := FileIO.handle) e)
    as [e1 He1].
  rewrite He1.
  destruct (wrap_raise_is_raise _NOT_FOUND _FILE_EXISTS strip (A := string) e)
    as [e2 He2].
  intros [= <- <- <-].
  cbn [FileIO._file FileIO._stack Ops.pool Ops.log].
  split.
  { rewrite He2. f_equal.
    assert (Ops.Raise (A := unit) e1 = Ops.Raise e2) as [= ->]; [|done].
    destruct e; simpl in He1, He2;
      repeat match goal with
             | H : context [if ?b then _ else _] |- _ => destruct b
             end; congruence. }
  split; [done|]. split; [done|]. split; [done|]. split.
  - unfold FileIO._async_fetch_range, FileIO.ensure_file, FileIO._async_open_file.
    cbn [FileIO._file Ops.pool Ops.log].
    match goal with |- context [Ops.enter a' ?p] =>
      destruct (hard_enter_starved a' p) as [-> | ->]
    end.
    + done.
    + apply may_open_false. exists m. split; [done | simpl; lia].
    + by left.
    + by right.
  - intros f2 w2 o2. unfold FileIO._async_close_file. cbn.
    intros [= <- <- <-]. cbn. unfold Hard.release, Hard._queue. cbn.
    repeat split; try done. lia.
Qed.

End FileProperties.

Lemma last_chunk_cannot_commit_on_a_hard_pool_with_one_channel_witness :
  (* a fresh pool with [max_channels=1]; the wait of [_mv] lasts 20000
     seconds under a bound of 10800 *)
  (FileIO._async_upload_chunk (P := Hard.hard)
     "No such file or directory" "File exists" (λ s, s) (λ s, s)
     (Opened 0%nat, []) (inr ()) (inr ()) "data" (Opened 1%nat, [20000]) (inr ())
     (inr "") (Opened 1%nat, []) (inr ()) None true
     (FileIO.File "/d/x" "wb" true "/d/.tmp.0123" None [])
     (Ops.World (Pool (Some 1) 0 (Some 10800) true [] []) [])).2
  = Ops.Raise (Ops.Other TimeoutError)
  ∧ Ops.log
      (FileIO._async_upload_chunk (P := Hard.hard)
         "No such file or directory" "File exists" (λ s, s) (λ s, s)
         (Opened 0%nat, []) (inr ()) (inr ()) "data" (Opened 1%nat, [20000]) (inr ())
         (inr "") (Opened 1%nat, []) (inr ()) None true
         (FileIO.File "/d/x" "wb" true "/d/.tmp.0123" None [])
         (Ops.World (Pool (Some 1) 0 (Some 10800) true [] []) [])).1.2
    = [Ops.Open 0 "/d/.tmp.0123" "wb"; Ops.Write 0 "/d/.tmp.0123" "data"].
Proof.
  split; [reflexivity|].
  apply (last_chunk_cannot_commit_on_a_hard_pool_with_one_channel
           "No such file or directory" "File exists" (λ s, s) (λ s, s)
           [] (Opened 1%nat, [20000]) (Opened 1%nat, []) 0%nat 1 "data" (inr ())
           (inr "") (inr ()) None
           (FileIO.File "/d/x" "wb" true "/d/.tmp.0123" None [])
           (Ops.World (Pool (Some 1) 0 (Some 10800) true [] []) [])
           eq_refl eq_refl eq_refl eq_refl eq_refl eq_refl _ _ _ eq_refl).
Defined.

Lemma closing_a_file_returns_its_channel_unless_the_close_raises_witness :
  (* the close of the remote file raises: the only channel is not returned;
     the same read on a pool with the timeout 0 *)
  let f := FileIO.File "/a" "rb" true "/a" None [] in
  let w := Ops.World (Pool (Some 1) 0 (Some 10800) true [0%nat] [0%nat]) [] in
  let w0 := Ops.World (Pool (Some 1) 0 (Some 0) true [0%nat] [0%nat]) [] in
  Hard._queue
    (Ops.pool
       (FileIO._async_close_file (P := Hard.hard) (Some (Ops.SFTPFailure "closed"))
          (FileIO._async_fetch_range (P := Hard.hard)
             "No such file or directory" "File exists" (λ s, s)
             (Opened 1%nat, []) (inr ()) (inr ()) (inr "abc") 0 3 f w).1.1
          (FileIO._async_fetch_range (P := Hard.hard)
             "No such file or directory" "File exists" (λ s, s)
             (Opened 1%nat, []) (inr ()) (inr ()) (inr "abc") 0 3 f w).1.2).1.2)
  = []
  ∧ FileIO._async_fetch_range (P := Hard.hard)
      "No such file or directory" "File exists" (λ s, s)
      (Opened 1%nat, []) (inr ()) (inr ()) (inr "abc") 0 3 f w0
    = (f, w0, Ops.Raise (Ops.Other TimeoutError)).
Proof.
  intros f w w0. split.
  - destruct (closing_a_file_returns_its_channel_unless_the_close_raises
                "No such file or directory" "File exists" (λ s, s)
                (Opened 1%nat, []) (Opened 1%nat, []) 0%nat [] (inr ()) (inr ()) (inr ())
                (inr "abc") 0 3 (Ops.SFTPFailure "closed") f w
                eq_refl eq_refl eq_refl) as [Hpositive _].
    destruct (Hpositive (or_intror (ex_intro _ 10800 (conj eq_refl eq_refl)))
                        _ _ _ eq_refl) as (Hqueue & _ & _ & Hraising).
    destruct (Hraising _ _ _ eq_refl) as (_ & _ & _ & _ & Hpool & _).
    exact (eq_trans (f_equal Hard._queue Hpool) Hqueue).
  - destruct (closing_a_file_returns_its_channel_unless_the_close_raises
                "No such file or directory" "File exists" (λ s, s)
                (Opened 1%nat, []) (Opened 1%nat, []) 0%nat [] (inr ()) (inr ()) (inr ())
                (inr "abc") 0 3 (Ops.SFTPFailure "closed") f w0
                eq_refl eq_refl eq_refl) as [_ Hzero].
    apply (Hzero 0 eq_refl). lia.
Defined.

Lemma failed_open_holds_the_channel_until_the_file_is_closed_witness :
  (* the file does not exist; closing the file object returns the channel *)
  Hard._queue
    (Ops.pool
       (FileIO._async_close_file (P := Hard.hard) None
          (FileIO._async_fetch_range (P := Hard.hard)
             "No such file or directory" "File exists" (λ s, s)
             (Opened 0%nat, []) (inl (Ops.SFTPNoSuchFile "no such file")) (inr ())
             (inr "abc") 0 3
             (FileIO.File "/a" "rb" true "/a" None [])
             (Ops.World (Pool (Some 1) 0 (Some 10800) true [] []) [])).1.1
          (FileIO._async_fetch_range (P := Hard.hard)
             "No such file or directory" "File exists" (λ s, s)
             (Opened 0%nat, []) (inl (Ops.SFTPNoSuchFile "no such file")) (inr ())
             (inr "abc") 0 3
             (FileIO.File "/a" "rb" true "/a" None [])
             (Ops.World (Pool (Some 1) 0 (Some 10800) true [] []) [])).1.2).1.2)
  = [0%nat].
Proof.
  destruct (failed_open_holds_the_channel_until_the_file_is_closed
              "No such file or directory" "File exists" (λ s, s)
              [] (Opened 1%nat, []) 0%nat 1 (Ops.SFTPNoSuchFile "no such file")
              (inr ()) (inr ()) (inr ()) (inr "abc") (inr "abc") 0 3 0 3 None
              (FileIO.File "/a" "rb" true "/a" None [])
              (Ops.World (Pool (Some 1) 0 (Some 10800) true [] []) [])
              eq_refl eq_refl eq_refl eq_refl eq_refl _ _ _ eq_refl)
    as (_ & _ & _ & _ & _ & Hclose).
  destruct (Hclose _ _ _ eq_refl) as (_ & _ & Hqueue & _).
  exact Hqueue.
Defined.
